(** * Verification of the integration SDK runtime: synchronization uploader,
      relationship construction and step execution summary.

    The development is a shallow embedding of the TypeScript sources:
    - [JS]: the fragment of JavaScript values and built-ins the code relies on
      (JSON values, property access, [for..in], [JSON.stringify],
      [Buffer.byteLength], [String.prototype.split] ...);
    - [Relationships]: [createDirectRelationship] and the generators of
      relationship [_type] and [_key];
    - [Shrink]: [shrinkRawData];
    - [Upload]: [uploadData], [uploadDataChunk], the retry loop and
      [handleUploadDataChunkError];
    - [Sync]: [synchronizeCollectedData] as a labelled transition system;
    - [Execution]: the step scheduler, job state and execution summary. *)

From Stdlib Require Import ZArith Lia Ascii.
From stdpp Require Import base list strings gmap pretty.

#[local] Set Warnings "-register-all".
Local Open Scope string_scope.
Local Open Scope list_scope.

(** ** JavaScript values *)

Module JS.

(** A JSON value as [JSON.parse] produces it. Numbers are restricted to the
    integers; a string is a sequence of UTF-16 code units in the range
    U+0000..U+00FF, one [ascii] each. An object is the list of its own
    enumerable properties in [for..in] order, and an array carries, besides
    its elements, the named properties JavaScript allows to be set on it
    (absent from parsed JSON, ignored by [JSON.stringify]). *)
Inductive json : Type :=
| JNull
| JBool (b : bool)
| JNum (n : Z)
| JStr (s : string)
| JArr (elems : list json) (named : list (string * json))
| JObj (props : list (string * json)).

(** A JavaScript value is a JSON value or [undefined]. *)
Definition value := option json.
Definition undefined : value := None.

Definition obj := list (string * json).

(** [o[k]] on a property list: the first binding wins. *)
Fixpoint lookup_prop (k : string) (o : obj) : value :=
  match o with
  | [] => undefined
  | (k', v) :: o' => if String.eqb k k' then Some v else lookup_prop k o'
  end.

(** [o[k] = v] on a property list: an existing property keeps its place in
    the enumeration order, a new one is appended. *)
Fixpoint set_prop (k : string) (v : json) (o : obj) : obj :=
  match o with
  | [] => [(k, v)]
  | (k', v') :: o' =>
      if String.eqb k k' then (k, v) :: o' else (k', v') :: set_prop k v o'
  end.

(** Object spread [{...o, ...extra}] and the object literal
    [{k1: v1, ..., ...extra}]. *)
Definition spread (o extra : obj) : obj :=
  fold_left (fun acc kv => set_prop kv.1 kv.2 acc) extra o.

(** The canonical array index a property key denotes, if any. *)
Definition index_of_key (len : nat) (k : string) : option nat :=
  List.find (fun i => String.eqb (pretty i) k) (seq 0 len).

Definition index_keys (len : nat) : list string :=
  pretty <$> seq 0 len.

(** The keys [for (const k in v)] enumerates. Nothing is enumerated for
    [null], [undefined], numbers and booleans. *)
Definition forin (v : value) : list string :=
  match v with
  | Some (JObj o) => o.*1
  | Some (JArr l o) => index_keys (length l) ++ o.*1
  | Some (JStr s) => index_keys (String.length s)
  | _ => []
  end.

(** Results of operations that may throw a [TypeError]. *)
Inductive result (A : Type) : Type :=
| Ok (a : A)
| TypeError.
Arguments Ok {A} a.
Arguments TypeError {A}.

Definition rbind {A B} (r : result A) (f : A -> result B) : result B :=
  match r with
  | Ok a => f a
  | TypeError => TypeError
  end.

#[export] Instance result_ret : MRet result := @Ok.
#[export] Instance result_bind : MBind result := fun A B f r => rbind r f.

(** Property read [v[k]]: reading from [undefined] or [null] throws. *)
Definition get (v : value) (k : string) : result value :=
  match v with
  | None | Some JNull => TypeError
  | Some (JObj o) => Ok (lookup_prop k o)
  | Some (JArr l o) =>
      match index_of_key (length l) k with
      | Some i => Ok (l !! i)
      | None => Ok (lookup_prop k o)
      end
  | Some (JStr s) =>
      match index_of_key (String.length s) k with
      | Some i => Ok (Some (JStr (String.substring i 1 s)))
      | None => Ok undefined
      end
  | Some (JBool _) | Some (JNum _) => Ok undefined
  end.

(** Property write [v[k] = x] in strict-mode code (module code is strict):
    writing to [undefined], [null] or a primitive throws. The result is the
    updated container. *)
Definition put (v : value) (k : string) (x : json) : result json :=
  match v with
  | Some (JObj o) => Ok (JObj (set_prop k x o))
  | Some (JArr l o) =>
      match index_of_key (length l) k with
      | Some i => Ok (JArr (<[i := x]> l) o)
      | None => Ok (JArr l (set_prop k x o))
      end
  | _ => TypeError
  end.

(** Reading along a path of keys, [v[k1][k2]...], and the value obtained by
    assigning to the end of a path, [v[k1][k2]... = x]. *)
Fixpoint get_path (v : value) (path : list string) : result value :=
  match path with
  | [] => Ok v
  | k :: path' => child ← get v k; get_path child path'
  end.

Fixpoint put_path (v : value) (path : list string) (x : json) : result json :=
  match path with
  | [] => Ok x
  | k :: path' =>
      child ← get v k;
      child' ← put_path child path' x;
      put v k child'
  end.

(** Two paths that part at some key: neither leads through the other. *)
Definition diverge (p q : list string) : Prop :=
  exists common k1 k2 p' q',
    p = common ++ k1 :: p' /\ q = common ++ k2 :: q' /\ k1 <> k2.

(** JavaScript truthiness. *)
Definition truthy (v : value) : bool :=
  match v with
  | None | Some JNull => false
  | Some (JBool b) => b
  | Some (JNum n) => negb (Z.eqb n 0)
  | Some (JStr s) => negb (String.eqb s "")
  | Some (JArr _ _) | Some (JObj _) => true
  end.

(** *** [JSON.stringify] *)

Definition hex_digit (n : nat) : string :=
  match n with
  | 0 => "0" | 1 => "1" | 2 => "2" | 3 => "3" | 4 => "4" | 5 => "5"
  | 6 => "6" | 7 => "7" | 8 => "8" | 9 => "9" | 10 => "a" | 11 => "b"
  | 12 => "c" | 13 => "d" | 14 => "e" | _ => "f"
  end.

Definition dquote : string := String (ascii_of_nat 34) "".

(** The escape sequence of one code unit inside a JSON string literal. *)
Definition quote_char (c : ascii) : string :=
  let n := nat_of_ascii c in
  if Nat.eqb n 34 then "\" +:+ dquote
  else if Nat.eqb n 92 then "\\"
  else if Nat.eqb n 8 then "\b"
  else if Nat.eqb n 9 then "\t"
  else if Nat.eqb n 10 then "\n"
  else if Nat.eqb n 12 then "\f"
  else if Nat.eqb n 13 then "\r"
  else if Nat.ltb n 32 then
    "\u00" +:+ hex_digit (n / 16) +:+ hex_digit (n mod 16)
  else String c "".

Fixpoint quote_body (s : string) : string :=
  match s with
  | EmptyString => ""
  | String c s' => quote_char c +:+ quote_body s'
  end.

Definition quote (s : string) : string := dquote +:+ quote_body s +:+ dquote.

(** [xs.join(sep)]. *)
Fixpoint join (sep : string) (xs : list string) : string :=
  match xs with
  | [] => ""
  | [x] => x
  | x :: xs' => x +:+ sep +:+ join sep xs'
  end.

Fixpoint stringify (v : json) : string :=
  match v with
  | JNull => "null"
  | JBool true => "true"
  | JBool false => "false"
  | JNum n => pretty n
  | JStr s => quote s
  | JArr l _ => "[" +:+ join "," (map stringify l) +:+ "]"
  | JObj o =>
      "{" +:+
      join "," (map (fun kv => quote (fst kv) +:+ ":" +:+ stringify (snd kv)) o)
      +:+ "}"
  end.

(** [JSON.stringify(v).length]; [JSON.stringify(undefined)] is [undefined],
    whose [length] cannot be read. *)
Definition stringify_length (v : value) : result nat :=
  match v with
  | None => TypeError
  | Some j => Ok (String.length (stringify j))
  end.

(** [Buffer.byteLength(s)] (UTF-8): one byte per code unit below U+0080, two
    for the code units U+0080..U+00FF. *)
Fixpoint byteLength (s : string) : nat :=
  match s with
  | EmptyString => 0
  | String c s' => (if Nat.ltb (nat_of_ascii c) 128 then 1 else 2) + byteLength s'
  end.

(** Whether a code unit occurs in a string. *)
Fixpoint occurs (c : ascii) (s : string) : bool :=
  match s with
  | EmptyString => false
  | String d s' => Ascii.eqb d c || occurs c s'
  end.

(** *** [JSON.parse] *)

(** [JSON.parse] on compact JSON text, as [JSON.stringify] writes it: no
    insignificant white space, integer numbers, [\u] escapes of the code
    units below U+0100, and member names that differ within an object (the
    members are kept as read). [None] stands for the [SyntaxError]. *)

Definition hex_value (c : ascii) : option nat :=
  let n := nat_of_ascii c in
  if Nat.leb 48 n && Nat.leb n 57 then Some (n - 48)
  else if Nat.leb 97 n && Nat.leb n 102 then Some (n - 87)
  else if Nat.leb 65 n && Nat.leb n 70 then Some (n - 55)
  else None.

(** The character an escape sequence denotes, and the text after it; the
    argument is the text after the backslash. *)
Definition parse_escape (s : string) : option (ascii * string) :=
  match s with
  | String e s' =>
      let n := nat_of_ascii e in
      if Nat.eqb n 34 then Some (e, s')
      else if Nat.eqb n 92 then Some (e, s')
      else if Nat.eqb n 47 then Some (e, s')
      else if Nat.eqb n 98 then Some (ascii_of_nat 8, s')
      else if Nat.eqb n 116 then Some (ascii_of_nat 9, s')
      else if Nat.eqb n 110 then Some (ascii_of_nat 10, s')
      else if Nat.eqb n 102 then Some (ascii_of_nat 12, s')
      else if Nat.eqb n 114 then Some (ascii_of_nat 13, s')
      else if Nat.eqb n 117 then
        match s' with
        | String z1 (String z2 (String h1 (String h2 s''))) =>
            if Ascii.eqb z1 "0" && Ascii.eqb z2 "0" then
              match hex_value h1, hex_value h2 with
              | Some a, Some b => Some (ascii_of_nat (16 * a + b), s'')
              | _, _ => None
              end
            else None
        | _ => None
        end
      else None
  | EmptyString => None
  end.

(** The body of a string literal, after its opening quote: the string it
    denotes and the text after the closing quote. *)
Fixpoint parse_string_body (fuel : nat) (s : string) : option (string * string) :=
  match fuel with
  | 0 => None
  | S fuel' =>
      match s with
      | EmptyString => None
      | String c s' =>
          let n := nat_of_ascii c in
          if Nat.eqb n 34 then Some (EmptyString, s')
          else if Nat.eqb n 92 then
            match parse_escape s' with
            | Some (d, s'') =>
                match parse_string_body fuel' s'' with
                | Some (body, rest) => Some (String d body, rest)
                | None => None
                end
            | None => None
            end
          else if Nat.ltb n 32 then None
          else
            match parse_string_body fuel' s' with
            | Some (body, rest) => Some (String c body, rest)
            | None => None
            end
      end
  end.

Definition is_digit (c : ascii) : bool :=
  Nat.leb 48 (nat_of_ascii c) && Nat.leb (nat_of_ascii c) 57.

(** The digits a text starts with, read as a decimal number. *)
Fixpoint parse_digits (acc : N) (s : string) : N * string :=
  match s with
  | String c s' =>
      if is_digit c
      then parse_digits (10 * acc + N.of_nat (nat_of_ascii c - 48)) s'
      else (acc, s)
  | EmptyString => (acc, s)
  end.

(** An unsigned integer literal: [0], or digits that do not start with
    [0]. *)
Definition parse_nat (s : string) : option (N * string) :=
  match s with
  | String c s' =>
      if Ascii.eqb c "0" then
        match s' with
        | String d _ => if is_digit d then None else Some (0%N, s')
        | EmptyString => Some (0%N, s')
        end
      else if is_digit c then Some (parse_digits 0 s)
      else None
  | EmptyString => None
  end.

Definition parse_number (s : string) : option (json * string) :=
  match s with
  | String c s' =>
      if Ascii.eqb c "-" then
        match parse_nat s' with
        | Some (n, rest) => Some (JNum (- Z.of_N n), rest)
        | None => None
        end
      else
        match parse_nat s with
        | Some (n, rest) => Some (JNum (Z.of_N n), rest)
        | None => None
        end
  | EmptyString => None
  end.

(** [prefix p s]: the text after [p] when [s] starts with [p]. *)
Fixpoint strip_prefix (p s : string) : option string :=
  match p, s with
  | EmptyString, _ => Some s
  | String a p', String b s' => if Ascii.eqb a b then strip_prefix p' s' else None
  | String _ _, EmptyString => None
  end.

Fixpoint parse_value (fuel : nat) (s : string) : option (json * string) :=
  match fuel with
  | 0 => None
  | S fuel' =>
      match s with
      | EmptyString => None
      | String c s' =>
          let n := nat_of_ascii c in
          if Nat.eqb n 110 then
            (fun rest => (JNull, rest)) <$> strip_prefix "ull" s'
          else if Nat.eqb n 116 then
            (fun rest => (JBool true, rest)) <$> strip_prefix "rue" s'
          else if Nat.eqb n 102 then
            (fun rest => (JBool false, rest)) <$> strip_prefix "alse" s'
          else if Nat.eqb n 34 then
            match parse_string_body (String.length s') s' with
            | Some (str, rest) => Some (JStr str, rest)
            | None => None
            end
          else if Nat.eqb n 91 then
            match s' with
            | String d s'' =>
                if Nat.eqb (nat_of_ascii d) 93 then Some (JArr [] [], s'')
                else
                  match parse_elements fuel' s' with
                  | Some (l, rest) => Some (JArr l [], rest)
                  | None => None
                  end
            | EmptyString => None
            end
          else if Nat.eqb n 123 then
            match s' with
            | String d s'' =>
                if Nat.eqb (nat_of_ascii d) 125 then Some (JObj [], s'')
                else
                  match parse_members fuel' s' with
                  | Some (o, rest) => Some (JObj o, rest)
                  | None => None
                  end
            | EmptyString => None
            end
          else parse_number s
      end
  end

(** The elements of a non-empty array, up to and including its closing
    bracket. *)
with parse_elements (fuel : nat) (s : string) : option (list json * string) :=
  match fuel with
  | 0 => None
  | S fuel' =>
      match parse_value fuel' s with
      | Some (v, String c rest) =>
          if Nat.eqb (nat_of_ascii c) 44 then
            match parse_elements fuel' rest with
            | Some (l, rest') => Some (v :: l, rest')
            | None => None
            end
          else if Nat.eqb (nat_of_ascii c) 93 then Some ([v], rest)
          else None
      | _ => None
      end
  end

(** The members of a non-empty object, up to and including its closing
    brace. *)
with parse_members (fuel : nat) (s : string)
    : option (list (string * json) * string) :=
  match fuel with
  | 0 => None
  | S fuel' =>
      match s with
      | String q s1 =>
          if Nat.eqb (nat_of_ascii q) 34 then
            match parse_string_body (String.length s1) s1 with
            | Some (k, String colon s2) =>
                if Nat.eqb (nat_of_ascii colon) 58 then
                  match parse_value fuel' s2 with
                  | Some (v, String c rest) =>
                      if Nat.eqb (nat_of_ascii c) 44 then
                        match parse_members fuel' rest with
                        | Some (o, rest') => Some ((k, v) :: o, rest')
                        | None => None
                        end
                      else if Nat.eqb (nat_of_ascii c) 125
                      then Some ([(k, v)], rest)
                      else None
                  | _ => None
                  end
                else None
            | _ => None
            end
          else None
      | EmptyString => None
      end
  end.

(** [JSON.parse(text)]. No value nests deeper than the text is long. *)
Definition parse (text : string) : option json :=
  match parse_value (S (String.length text)) text with
  | Some (v, EmptyString) => Some v
  | _ => None
  end.

(** The values [JSON.parse] yields: arrays carry no named properties. *)
Fixpoint plain (v : json) : bool :=
  match v with
  | JArr l o => forallb plain l && bool_decide (o = [])
  | JObj o => forallb (fun kv => plain (snd kv)) o
  | _ => true
  end.

(** The text of one member of an object, as [stringify] writes it. *)
Definition member_text (kv : string * json) : string :=
  quote (fst kv) +:+ ":" +:+ stringify (snd kv).

(** Whether a text does not go on with a digit: what follows a number
    literal in compact JSON. *)
Definition no_digit_start (s : string) : bool :=
  match s with
  | String c _ => negb (is_digit c)
  | EmptyString => true
  end.

(** *** Conversion to text *)

(** [String(v)], the text a template literal puts for a value: an array is
    its elements joined by commas, with nothing for [null]. *)
Fixpoint toString (v : json) : string :=
  match v with
  | JNull => "null"
  | JBool true => "true"
  | JBool false => "false"
  | JNum n => pretty n
  | JStr s => s
  | JArr l _ =>
      join "," (map (fun e => match e with
                              | JNull => ""
                              | _ => toString e
                              end) l)
  | JObj _ => "[object Object]"
  end.

Definition template (v : value) : string :=
  match v with
  | Some j => toString j
  | None => "undefined"
  end.

(** The UTF-8 bytes of a serialized value, and of [xs.join(sep)]. *)
Definition bytes (v : json) : nat := byteLength (stringify v).

Definition joined_bytes (sep : string) (xs : list string) : nat :=
  byteLength (join sep xs).

End JS.

Import JS.

(** ** Graph objects *)

(** Entities and relationships are JavaScript objects. Their TypeScript types
    make [_key] and [_type] strings; a field that is missing or not a string
    reads as the empty string. *)
Definition Entity := obj.
Definition Relationship := obj.

Definition string_field (k : string) (o : obj) : string :=
  match lookup_prop k o with
  | Some (JStr s) => s
  | _ => ""
  end.

Definition _key (o : obj) : string := string_field "_key" o.
Definition _type (o : obj) : string := string_field "_type" o.

(** ** Relationship construction *)

Module Relationships.

(** [String.prototype.toLowerCase] on the code units of the model: the
    letters A-Z (U+0041..U+005A) and the letters of U+00C0..U+00DE (the
    multiplication sign U+00D7 is none) become the code unit 32 above;
    every other code unit stays. *)
Definition lower_char (c : ascii) : ascii :=
  let n := nat_of_ascii c in
  if (Nat.leb 65 n && Nat.leb n 90)
     || (Nat.leb 192 n && Nat.leb n 222 && negb (Nat.eqb n 215))
  then ascii_of_nat (n + 32) else c.

(** [String.prototype.toUpperCase] on one code unit: a-z and the letters of
    U+00E0..U+00FE (the division sign U+00F7 is none) become the code unit
    32 below, and the sharp s U+00DF becomes [SS]. The upper-case forms of
    U+00B5 and U+00FF are U+039C and U+0178, which are no code units of
    the model: these two are left as they are (a name that holds one of
    them is no class of the data model, whose classes are words of A-Z and
    the underscore, here as in JavaScript). *)
Definition upper_char (c : ascii) : string :=
  let n := nat_of_ascii c in
  if Nat.eqb n 223 then "SS"
  else if (Nat.leb 97 n && Nat.leb n 122)
          || (Nat.leb 224 n && Nat.leb n 254 && negb (Nat.eqb n 247))
  then String (ascii_of_nat (n - 32)) ""
  else String c "".

Fixpoint map_string (f : ascii -> ascii) (s : string) : string :=
  match s with
  | EmptyString => EmptyString
  | String c s' => String (f c) (map_string f s')
  end.

Definition toLowerCase : string -> string := map_string lower_char.

Fixpoint toUpperCase (s : string) : string :=
  match s with
  | EmptyString => EmptyString
  | String c s' => upper_char c +:+ toUpperCase s'
  end.

(** Whether every code unit of a string is below U+0080. *)
Fixpoint is_ascii (s : string) : bool :=
  match s with
  | EmptyString => true
  | String c s' => Nat.ltb (nat_of_ascii c) 128 && is_ascii s'
  end.

(** [s.split(sep)] for a separator of one code unit. *)
Fixpoint split (sep : ascii) (s : string) : list string :=
  match s with
  | EmptyString => [EmptyString]
  | String c s' =>
      if Ascii.eqb c sep then EmptyString :: split sep s'
      else match split sep s' with
           | p :: ps => String c p :: ps
           | [] => [String c EmptyString]
           end
  end.

Definition underscore : ascii := "_"%char.

(** What a function returns or throws. *)
Inductive outcome (A : Type) : Type :=
| Return (a : A)
| ThrowIntegrationError (code : string).
Arguments Return {A} a.
Arguments ThrowIntegrationError {A} code.

(** The argument [from] or [to] of the generators: an object carrying the
    field, or the string itself. *)
Inductive TypeArg : Type :=
| ByString (s : string)
| ByObject (o : obj).

Definition falsy_arg (a : TypeArg) : bool :=
  match a with
  | ByString s => String.eqb s ""
  | ByObject _ => false
  end.

Definition type_value (a : TypeArg) : string :=
  match a with
  | ByString s => s
  | ByObject o => _type o
  end.

Definition key_value (a : TypeArg) : string :=
  match a with
  | ByString s => s
  | ByObject o => _key o
  end.

(** The [do { ... } while (i < toValueParts.length - 1)] loop of
    [generateRelationshipType]; [parts !! i] is [parts[i]], [None] standing
    for [undefined]. The counter grows at each round and the loop ends once
    it reaches [length toValueParts - 1], so [length toValueParts] rounds are
    enough (see [skip_common_fuel]). *)
Fixpoint skip_common (fuel : nat) (fromValueParts toValueParts : list string)
    (i : nat) : nat :=
  match fuel with
  | 0 => i
  | S fuel' =>
      if decide (toValueParts !! i = fromValueParts !! i) then
        if Nat.ltb (S i) (length toValueParts - 1)
        then skip_common fuel' fromValueParts toValueParts (S i)
        else S i
      else i
  end.

Definition generateRelationshipType (_class : string) (from to : TypeArg)
    : outcome string :=
  if falsy_arg from || falsy_arg to then
    ThrowIntegrationError
      "GENERATE_RELATIONSHIP_TYPE_MISSING_RELATIONSIHP_FROM_OR_TO"
  else
    let fromValue := type_value from in
    let toValue := type_value to in
    let fromValueParts := split underscore fromValue in
    let toValueParts := split underscore toValue in
    let i := skip_common (length toValueParts) fromValueParts toValueParts 0 in
    Return (fromValue +:+ "_" +:+ toLowerCase _class +:+ "_" +:+
            join "_" (drop i toValueParts)).

Definition generateRelationshipKey (_class : string) (from to : TypeArg)
    : outcome string :=
  if falsy_arg from || falsy_arg to then
    ThrowIntegrationError
      "GENERATE_RELATIONSHIP_KEY_MISSING_RELATIONSHIP_FROM_OR_TO"
  else
    Return (key_value from +:+ "|" +:+ toLowerCase _class +:+ "|" +:+
            key_value to).

Record DirectRelationshipLiteralOptions := {
  lit_class : string;
  fromType : string;
  fromKey : string;
  toType : string;
  toKey : string;
  lit_properties : option obj
}.

Record DirectRelationshipOptions := {
  opt_class : string;
  from : Entity;
  to : Entity;
  opt_properties : option obj
}.

Definition obind {A B} (r : outcome A) (f : A -> outcome B) : outcome B :=
  match r with
  | Return a => f a
  | ThrowIntegrationError c => ThrowIntegrationError c
  end.

(** [{...properties}] where [properties] may be [undefined]. *)
Definition spread_opt (o : obj) (properties : option obj) : obj :=
  match properties with
  | Some p => spread o p
  | None => o
  end.

(** Whether [properties] is an object with the property [k]. *)
Definition defines (k : string) (properties : option obj) : bool :=
  match properties with
  | Some p => bool_decide (lookup_prop k p <> None)
  | None => false
  end.

Definition createRelationship (options : DirectRelationshipLiteralOptions)
    : outcome Relationship :=
  let _class := lit_class options in
  let relationshipClass := toUpperCase _class in
  obind (generateRelationshipType _class (ByString (fromType options))
           (ByString (toType options)))
    (fun _type =>
       Return (spread_opt
         [ ("_key", JStr (fromKey options +:+ "|" +:+ toLowerCase _class +:+
                          "|" +:+ toKey options));
           ("_type", JStr _type);
           ("_class", JStr relationshipClass);
           ("_fromEntityKey", JStr (fromKey options));
           ("_toEntityKey", JStr (toKey options));
           ("displayName", JStr relationshipClass) ]
         (lit_properties options))).

Section WithDataModel.

(** The [RelationshipClass] enumeration of [@jupiterone/data-model], given by
    its membership test: [RelationshipClass c] holds when [c] is one of its
    keys. *)
Variable RelationshipClass : string -> bool.

Definition isValidDataModelClass (_class : string) : bool :=
  RelationshipClass _class.

(** [createDirectRelationship] on an options object that carries [from] and
    [to] (no [fromType] field) ... *)
Definition createDirectRelationship (options : DirectRelationshipOptions)
    : outcome Relationship :=
  let normalizedClass := toUpperCase (opt_class options) in
  if negb (isValidDataModelClass normalizedClass) then
    ThrowIntegrationError "INVALID_RELATIONSHIP_CLASS"
  else
    createRelationship
      {| lit_class := opt_class options;
         fromType := _type (from options);
         fromKey := _key (from options);
         toType := _type (to options);
         toKey := _key (to options);
         lit_properties := opt_properties options |}.

(** ... and on the literal form, which has [fromType]. *)
Definition createDirectRelationshipLiteral
    (options : DirectRelationshipLiteralOptions) : outcome Relationship :=
  let normalizedClass := toUpperCase (lit_class options) in
  if negb (isValidDataModelClass normalizedClass) then
    ThrowIntegrationError "INVALID_RELATIONSHIP_CLASS"
  else createRelationship options.

End WithDataModel.

(** The fields [createRelationship] generates, before the additional
    properties are spread over them. *)
Definition generated_fields (options : DirectRelationshipLiteralOptions)
    (type : string) : obj :=
  [ ("_key", JStr (fromKey options +:+ "|" +:+ toLowerCase (lit_class options)
                   +:+ "|" +:+ toKey options));
    ("_type", JStr type);
    ("_class", JStr (toUpperCase (lit_class options)));
    ("_fromEntityKey", JStr (fromKey options));
    ("_toEntityKey", JStr (toKey options));
    ("displayName", JStr (toUpperCase (lit_class options))) ].

(** The number of leading parts two lists of parts have in common. *)
Fixpoint common_prefix (xs ys : list string) : nat :=
  match xs, ys with
  | x :: xs', y :: ys' =>
      if decide (x = y) then S (common_prefix xs' ys') else 0
  | _, _ => 0
  end.

(** *** Mapped relationships *)

(** [TargetFilterKey = string | string[]]. *)
Inductive TargetFilterKey : Type :=
| FilterKey (k : string)
| FilterKeys (ks : list string).

(** [RelationshipMapping], with the fields the code reads.
    [relationshipDirection] is a value of the string enumeration
    [RelationshipDirection]; [skipTargetCreation] is [None] when the
    property is [undefined] or absent. *)
Record RelationshipMapping := {
  relationshipDirection : string;
  sourceEntityKey : string;
  targetEntity : obj;
  targetFilterKeys : list TargetFilterKey;
  skipTargetCreation : option bool
}.

Record MappedRelationshipLiteralOptions := {
  mlit_key : option string;
  mlit_type : option string;
  mlit_class : string;
  _mapping : RelationshipMapping;
  mlit_properties : option obj
}.

Record MappedRelationshipOptions := {
  mopt_key : option string;
  mopt_type : option string;
  mopt_class : string;
  source : Entity;
  target : obj;
  mopt_properties : option obj;
  mopt_relationshipDirection : option string;
  mopt_targetFilterKeys : option (list TargetFilterKey);
  mopt_skipTargetCreation : option bool
}.

(** [`${e}=${mapping.targetEntity[e]}`]. *)
Definition filter_text (targetEntity : obj) (e : string) : string :=
  e +:+ "=" +:+ template (lookup_prop e targetEntity).

Definition targetEntityKey (mapping : RelationshipMapping) : string :=
  fold_left
    (fun key filterKey =>
       match filterKey with
       | FilterKeys ks =>
           key +:+ ":" +:+
           join ":" (map (filter_text (targetEntity mapping)) ks)
       | FilterKey k =>
           key +:+ ":" +:+ filter_text (targetEntity mapping) k
       end)
    (targetFilterKeys mapping) (relationshipDirection mapping).

(** [properties && properties[k]] for a field the TypeScript type makes a
    string: the empty string when it is falsy. *)
Definition property_string (k : string) (properties : option obj) : string :=
  match properties with
  | Some p => string_field k p
  | None => ""
  end.

(** [key] and [type]; the argument [toKey] or [toType] is the empty string
    when it is [undefined]. *)
Definition key (properties : option obj) (_class fromKey toKey : string)
    : outcome string :=
  if negb (String.eqb (property_string "_key" properties) "")
  then Return (property_string "_key" properties)
  else if String.eqb toKey ""
  then ThrowIntegrationError "MISSING_RELATIONSHIP_TO_KEY"
  else generateRelationshipKey _class (ByString fromKey) (ByString toKey).

Definition type (properties : option obj) (_class fromType toType : string)
    : outcome string :=
  if negb (String.eqb (property_string "_type" properties) "")
  then Return (property_string "_type" properties)
  else if String.eqb toType ""
  then ThrowIntegrationError "MISSING_RELATIONSHIP_TO_TYPE"
  else generateRelationshipType _class (ByString fromType) (ByString toType).

(** Whether an optional string is given and not empty, and [s || f()]. *)
Definition given (s : option string) : bool :=
  match s with
  | Some s' => negb (String.eqb s' "")
  | None => false
  end.

Definition or_else (s : option string) (f : outcome string) : outcome string :=
  match s with
  | Some s' => if String.eqb s' "" then f else Return s'
  | None => f
  end.

(** The mapping as the value of the property [_mapping]; the property
    [skipTargetCreation] is deleted when it is [undefined]. The keys come
    in the order of the literal [createMappedRelationship] builds. *)
Definition filter_key_json (k : TargetFilterKey) : json :=
  match k with
  | FilterKey k => JStr k
  | FilterKeys ks => JArr (JStr <$> ks) []
  end.

Definition mapping_json (m : RelationshipMapping) : json :=
  JObj ([("relationshipDirection", JStr (relationshipDirection m));
         ("sourceEntityKey", JStr (sourceEntityKey m));
         ("targetEntity", JObj (targetEntity m));
         ("targetFilterKeys",
          JArr (filter_key_json <$> targetFilterKeys m) [])]
        ++ match skipTargetCreation m with
           | Some b => [("skipTargetCreation", JBool b)]
           | None => []
           end).

(** [mapping.targetEntity._key || targetEntityKey(mapping)]. *)
Definition target_key (mapping : RelationshipMapping) : string :=
  if String.eqb (_key (targetEntity mapping)) ""
  then targetEntityKey mapping
  else _key (targetEntity mapping).

Definition createMappedRelationshipLiteral
    (options : MappedRelationshipLiteralOptions) : outcome obj :=
  let mapping := _mapping options in
  obind
    (or_else (mlit_key options)
       (key (mlit_properties options) (mlit_class options)
          (sourceEntityKey mapping) (target_key mapping)))
    (fun _key =>
       obind
         (or_else (mlit_type options)
            (type (mlit_properties options) (mlit_class options)
               "mapping_source" (_type (targetEntity mapping))))
         (fun _type =>
            let relationshipClass := toUpperCase (mlit_class options) in
            Return
              (set_prop "_type" (JStr _type)
                 (set_prop "_key" (JStr _key)
                    (spread_opt
                       [("_class", JStr relationshipClass);
                        ("_mapping", mapping_json mapping);
                        ("displayName", JStr relationshipClass)]
                       (mlit_properties options)))))).

(** The argument of [createMappedRelationship]: the literal form, which has
    [_mapping], or the form with [source] and [target]. *)
Inductive MappedOptions : Type :=
| WithMapping (options : MappedRelationshipLiteralOptions)
| WithSourceTarget (options : MappedRelationshipOptions).

Definition mapped_class (options : MappedOptions) : string :=
  match options with
  | WithMapping o => mlit_class o
  | WithSourceTarget o => mopt_class o
  end.

Section WithTypes.

Variable RelationshipClass : string -> bool.

(** [RelationshipDirection.FORWARD]. *)
Variable FORWARD : string.

Definition createMappedRelationship (options : MappedOptions) : outcome obj :=
  let normalizedClass := toUpperCase (mapped_class options) in
  if negb (isValidDataModelClass RelationshipClass normalizedClass) then
    ThrowIntegrationError "INVALID_RELATIONSHIP_CLASS"
  else
    match options with
    | WithMapping o => createMappedRelationshipLiteral o
    | WithSourceTarget o =>
        createMappedRelationshipLiteral
          {| mlit_class := mopt_class o;
             mlit_type := mopt_type o;
             mlit_key := mopt_key o;
             _mapping :=
               {| relationshipDirection :=
                    match mopt_relationshipDirection o with
                    | Some d => if String.eqb d "" then FORWARD else d
                    | None => FORWARD
                    end;
                  sourceEntityKey := _key (source o);
                  targetEntity := target o;
                  targetFilterKeys :=
                    default [FilterKeys ["_type"; "_key"]]
                      (mopt_targetFilterKeys o);
                  skipTargetCreation := mopt_skipTargetCreation o |};
             mlit_properties := mopt_properties o |}
    end.

End WithTypes.

(** The names a filter key stands for, and whether it stands for one at
    least. *)
Definition filter_key_names (k : TargetFilterKey) : list string :=
  match k with
  | FilterKey k => [k]
  | FilterKeys ks => ks
  end.

Definition nonempty_group (k : TargetFilterKey) : bool :=
  match k with
  | FilterKeys [] => false
  | _ => true
  end.

(** *** Sample entities and options *)

Definition sample_user : Entity :=
  [("_key", JStr "u1"); ("_type", JStr "acme_user"); ("_class", JStr "User")].

Definition sample_group : Entity :=
  [("_key", JStr "g1"); ("_type", JStr "acme_group");
   ("_class", JStr "UserGroup")].

(** A mapping to a target known by its [_type] and its [email]. *)
Definition sample_mapping : RelationshipMapping :=
  {| relationshipDirection := "FORWARD";
     sourceEntityKey := "u1";
     targetEntity := [("_type", JStr "acme_mailbox");
                      ("email", JStr "u1@acme.test")];
     targetFilterKeys := [FilterKeys ["_type"; "email"]];
     skipTargetCreation := None |}.

Definition sample_mapped_literal : MappedRelationshipLiteralOptions :=
  {| mlit_key := None; mlit_type := None; mlit_class := "HAS";
     _mapping := sample_mapping; mlit_properties := None |}.

Definition sample_mapped_options : MappedRelationshipOptions :=
  {| mopt_key := None; mopt_type := None; mopt_class := "HAS";
     source := sample_user;
     target := [("_type", JStr "acme_mailbox")];
     mopt_properties := None;
     mopt_relationshipDirection := None;
     mopt_targetFilterKeys := None;
     mopt_skipTargetCreation := None |}.

(** The relationships [createMappedRelationship] returns for them. *)
Definition sample_mapped_literal_result : obj :=
  [("_class", JStr "HAS");
   ("_mapping",
    JObj [("relationshipDirection", JStr "FORWARD");
          ("sourceEntityKey", JStr "u1");
          ("targetEntity",
           JObj [("_type", JStr "acme_mailbox");
                 ("email", JStr "u1@acme.test")]);
          ("targetFilterKeys",
           JArr [JArr [JStr "_type"; JStr "email"] []] [])]);
   ("displayName", JStr "HAS");
   ("_key", JStr "u1|has|FORWARD:_type=acme_mailbox:email=u1@acme.test");
   ("_type", JStr "mapping_source_has_acme_mailbox")].

Definition sample_mapped_options_result : obj :=
  [("_class", JStr "HAS");
   ("_mapping",
    JObj [("relationshipDirection", JStr "FORWARD");
          ("sourceEntityKey", JStr "u1");
          ("targetEntity", JObj [("_type", JStr "acme_mailbox")]);
          ("targetFilterKeys",
           JArr [JArr [JStr "_type"; JStr "_key"] []] [])]);
   ("displayName", JStr "HAS");
   ("_key", JStr "u1|has|FORWARD:_type=acme_mailbox:_key=undefined");
   ("_type", JStr "mapping_source_has_acme_mailbox")].

End Relationships.

(** ** Raw-data shrinking *)

Module Shrink.

Definition UPLOAD_SIZE_MAX : Z := 6275072.

(** [Buffer.byteLength("'TRUNCATED'")]. *)
Definition sizeOfTruncated : Z := Z.of_nat (byteLength "'TRUNCATED'").

(** The three search loops of [shrinkRawData] share one shape:
    [for (const k in keys) { const length = measure k;
       if (length > largestSize) { largestSize = length; largestKey = k } }]
    started from the key [''] and the size [0]. *)
Definition largest_round (measure : string -> result nat)
    (acc : result (string * nat)) (k : string) : result (string * nat) :=
  best ← acc;
  length ← measure k;
  mret (if Nat.ltb best.2 length then (k, length) else best).

Definition largest (keys : list string) (measure : string -> result nat)
    : result (string * nat) :=
  fold_left (largest_round measure) keys (Ok ("", 0)).

(** What a search loop finds: the first key whose measure is the largest,
    when some measure is above 0; the key [''] with the size 0 otherwise. *)
Definition first_largest (keys : list string) (measure : string -> result nat)
    (k : string) (n : nat) : Prop :=
  (k = "" /\ n = 0 /\ forall k', k' ∈ keys -> measure k' = Ok 0)
  \/ (0 < n /\ exists before after,
        keys = before ++ k :: after /\ measure k = Ok n
        /\ (forall k', k' ∈ before -> exists m, measure k' = Ok m /\ m < n)
        /\ (forall k', k' ∈ after -> exists m, measure k' = Ok m /\ m <= n)).

(** The measures of the three loops. *)
Definition entity_length (data : json) (entity : string) : result nat :=
  v ← get (Some data) entity; stringify_length v.

Definition entry_length (rawArr : value) (rawEntry : string) : result nat :=
  v ← get rawArr rawEntry; stringify_length v.

Definition item_length (rawData : value) (item : string) : result nat :=
  v ← get rawData item;
  if truthy v then stringify_length v else Ok 0.

(** One round of the [while] loop: the updated batch and [largestItemSize].
    The batch is a tree (it was parsed from JSON), so the assignment in place
    to [data[e]['_rawData'][r]['rawData'][i]] is the update of that one
    path. *)
Definition shrinkIteration (data : json) : result (json * nat) :=
  largestEntity ← largest (forin (Some data)) (entity_length data);
  let largestEntityKey := largestEntity.1 in
  entity ← get (Some data) largestEntityKey;
  rawArr ← get entity "_rawData";
  largestRawDataEntry ← largest (forin rawArr) (entry_length rawArr);
  let largestRawDataEntryKey := largestRawDataEntry.1 in
  entry ← get rawArr largestRawDataEntryKey;
  rawData ← get entry "rawData";
  largestItem ← largest (forin rawData) (item_length rawData);
  let largestItemKey := largestItem.1 in
  let largestItemSize := largestItem.2 in
  rawData' ← put rawData largestItemKey (JStr "TRUNCATED");
  entry' ← put entry "rawData" rawData';
  rawArr' ← put rawArr largestRawDataEntryKey entry';
  entity' ← put entity "_rawData" rawArr';
  data' ← put (Some data) largestEntityKey entity';
  mret (data', largestItemSize).

(** The selection of one round: the entity [kE], its [_rawData] entry [kR]
    and the field [kI] of the [rawData] of that entry, with the measure
    [size] of the field. *)
Definition selects (data : json) (kE kR kI : string) (size : nat) : Prop :=
  exists nE nR entity rawArr entry rawData,
    first_largest (forin (Some data)) (entity_length data) kE nE
    /\ get (Some data) kE = Ok entity
    /\ get entity "_rawData" = Ok rawArr
    /\ first_largest (forin rawArr) (entry_length rawArr) kR nR
    /\ get rawArr kR = Ok entry
    /\ get entry "rawData" = Ok rawData
    /\ first_largest (forin rawData) (item_length rawData) kI size.

Definition selected_path (kE kR kI : string) : list string :=
  [kE; "_rawData"; kR; "rawData"; kI].

(** The variables of the loop. *)
Record state := {
  data : json;
  totalSize : Z;
  itemsRemoved : nat
}.

Definition step (st : state) : result state :=
  r ← shrinkIteration (data st);
  mret {| data := r.1;
          itemsRemoved := itemsRemoved st + 1;
          totalSize := totalSize st - Z.of_nat r.2 + sizeOfTruncated |}.

(** How a call ends: it returns (and logs the sizes and the count), or a
    [TypeError] escapes. *)
Inductive ending : Type :=
| Returned (final : state)
| ThrewTypeError.

(** [while (totalSize > maxSize) { ... }], with [None] when [fuel] rounds
    were not enough to leave the loop. *)
Fixpoint while_loop (fuel : nat) (maxSize : Z) (st : state) : option ending :=
  if Z.ltb maxSize (totalSize st) then
    match fuel with
    | 0 => None
    | S fuel' =>
        match step st with
        | Ok st' => while_loop fuel' maxSize st'
        | TypeError => Some ThrewTypeError
        end
    end
  else Some (Returned st).

Definition initial (batch : list json) : state :=
  {| data := JArr batch [];
     totalSize := Z.of_nat (byteLength (stringify (JArr batch [])));
     itemsRemoved := 0 |}.

Definition shrinkRawData (fuel : nat) (batch : list json) (maxSize : Z)
    : option ending :=
  while_loop fuel maxSize (initial batch).

(** The call ends when some number of rounds is enough. *)
Definition terminates (batch : list json) (maxSize : Z) : Prop :=
  exists fuel e, shrinkRawData fuel batch maxSize = Some e.

(** Whether every round of a run of the loop selects a field that measures
    above 0: a field that exists and whose value is truthy. *)
Fixpoint positive_rounds (fuel : nat) (maxSize : Z) (st : state) : bool :=
  if Z.ltb maxSize (totalSize st) then
    match fuel with
    | 0 => true
    | S fuel' =>
        match shrinkIteration (data st), step st with
        | Ok (_, size), Ok st' =>
            Nat.ltb 0 size && positive_rounds fuel' maxSize st'
        | _, _ => true
        end
    end
  else true.

(** *** Sample batches *)

Definition sample_entity (rawData : obj) : json :=
  JObj [("_key", JStr "a");
        ("_rawData",
         JArr [JObj [("name", JStr "default"); ("rawData", JObj rawData)]]
              [])].

(** One entity whose raw data holds a 20 character payload; 106 bytes. *)
Definition payload_batch : list json :=
  [sample_entity [("a", JNull); ("b", JNum 7);
                  ("payload", JStr "0123456789abcdefghij")]].

(** The same batch once the payload is truncated. *)
Definition payload_batch_truncated : list json :=
  [sample_entity [("a", JNull); ("b", JNum 7);
                  ("payload", JStr "TRUNCATED")]].

(** One entity whose raw data holds [null] only, and the same batch after
    a round. *)
Definition null_batch : list json :=
  [sample_entity [("a", JNull)]].

Definition null_batch_truncated : list json :=
  [sample_entity [("a", JNull); ("", JStr "TRUNCATED")]].

(** [c.repeat(n)] for one code unit. *)
Fixpoint repeat_string (n : nat) (c : ascii) : string :=
  match n with
  | 0 => EmptyString
  | S n' => String c (repeat_string n' c)
  end.

(** One entity whose raw data holds a payload of [n] characters: the batch
    takes 78 bytes more than the payload. *)
Definition sized_batch (n : nat) : list json :=
  [sample_entity
     [("id", JNum 7); ("payload", JStr (repeat_string n "x"))]].

(** The batch whose payload alone is [UPLOAD_SIZE_MAX] characters long,
    the same batch once the payload is truncated, and the loop variables
    after that round. *)
Definition oversized_batch : list json :=
  sized_batch (Z.to_nat UPLOAD_SIZE_MAX).

Definition oversized_batch_truncated : list json :=
  [sample_entity [("id", JNum 7); ("payload", JStr "TRUNCATED")]].

Definition oversized_batch_shrunk : state :=
  {| data := JArr oversized_batch_truncated [];
     totalSize := 87;
     itemsRemoved := 1 |}.

(** Two relationships, which carry no [_rawData]; 39 bytes. *)
Definition relationship_batch : list json :=
  [JObj [("_key", JStr "a|has|b")]; JObj [("_key", JStr "a|has|c")]].

(** One entity whose raw data holds [null] and a number. *)
Definition falsy_batch : list json :=
  [sample_entity [("a", JNull); ("b", JNum 7)]].

Definition falsy_batch_truncated : list json :=
  [sample_entity [("a", JNull); ("b", JStr "TRUNCATED")]].

End Shrink.

(** ** Uploading batches *)

Module Upload.

Import Shrink.

Definition UPLOAD_BATCH_SIZE : Z := 250.
Definition UPLOAD_CONCURRENCY : nat := 6.

(** [keyof UploadDataLookup]. *)
Inductive UploadType : Type := entities | relationships.

Definition type_name (t : UploadType) : string :=
  match t with
  | entities => "entities"
  | relationships => "relationships"
  end.

(** *** lodash [chunk] *)

(** [chunk(array, size)]: the slices [array.slice(index, index += size)]
    while [index < length]; no chunk at all when [size < 1] or the array is
    empty. Each round consumes [size >= 1] elements, so [length array] rounds
    are enough. *)
Fixpoint chunk_slices {A} (fuel size : nat) (array : list A) : list (list A) :=
  match fuel with
  | 0 => []
  | S fuel' =>
      match array with
      | [] => []
      | _ => take size array :: chunk_slices fuel' size (drop size array)
      end
  end.

Definition chunk {A} (array : list A) (size : Z) : list (list A) :=
  if Z.ltb size 1 then []
  else chunk_slices (length array) (Z.to_nat size) array.

(** *** Requests *)

Record Request := {
  url : string;
  body : json
}.

(** The [POST] of [uploadDataChunk]:
    [/persister/synchronization/jobs/${jobId}/${type}] with the body
    [{[type]: batch}]. *)
Definition chunk_request (jobId : string) (type : UploadType) (batch : json)
    : Request :=
  {| url := "/persister/synchronization/jobs/" +:+ jobId +:+ "/" +:+
            type_name type;
     body := JObj [(type_name type, batch)] |}.

(** *** Errors *)

(** [err.response.data.error]. *)
Record SystemErrorResponseData := {
  sys_code : string;
  sys_message : string
}.

(** [err.response]: its [status] and the [error] field of its [data]. *)
Record ErrorResponse := {
  status : Z;
  data_error : option SystemErrorResponseData
}.

(** What the code reads of an error a [POST] was rejected with. *)
Record UploadError := {
  code : option string;
  response : option ErrorResponse
}.

Record IntegrationError := {
  ie_code : string;
  ie_fatal : bool;
  ie_message : string;
  ie_cause : UploadError
}.

Definition isRequestUploadTooLargeError (err : UploadError) : bool :=
  bool_decide (code err = Some "RequestEntityTooLargeException")
  || bool_decide (status <$> response err = Some 413%Z).

Definition getSystemErrorResponseData (err : UploadError)
    : option SystemErrorResponseData :=
  r ← response err; data_error r.

(** The [AttemptContext] of [@lifeomic/attempt]. *)
Record AttemptContext := {
  attemptNum : nat;
  attemptsRemaining : nat
}.

Inductive LogEntry : Type :=
| InfoShrink
| InfoShrunk (initialSize finalSize : Z) (removed : nat)
| WarnWillRetry (err : UploadError) (attempt : nat).

(** What escapes a function as an exception. *)
Inductive Thrown : Type :=
| ThrownUploadError (err : UploadError)
| ThrownIntegrationError (err : IntegrationError)
| ThrownTypeError.

(** How [handleUploadDataChunkError] ends: it returns, leaving the batch
    (shrunk in place or untouched) and its log entries; it throws; or the
    shrinking loop is still running after the rounds it was given. *)
Inductive Handled : Type :=
| HandledOk (batch : json) (log : list LogEntry)
| HandledThrow (t : Thrown) (log : list LogEntry)
| HandledLooping.

Definition warn_log (err : UploadError) (ctx : AttemptContext)
    : list LogEntry :=
  if negb (Nat.eqb (attemptsRemaining ctx) 0)
     && negb (bool_decide (code err = Some "CredentialsError"))
  then [WarnWillRetry err (attemptNum ctx)]
  else [].

Definition batch_elems (batch : json) : list json :=
  match batch with
  | JArr l _ => l
  | _ => []
  end.

Definition handleUploadDataChunkError (shrinkFuel : nat) (err : UploadError)
    (attemptContext : AttemptContext) (batch : json) : Handled :=
  let systemErrorResponseData := getSystemErrorResponseData err in
  if isRequestUploadTooLargeError err then
    match shrinkRawData shrinkFuel (batch_elems batch) UPLOAD_SIZE_MAX with
    | None => HandledLooping
    | Some ThrewTypeError => HandledThrow ThrownTypeError [InfoShrink]
    | Some (Returned st) =>
        HandledOk (data st)
          ([InfoShrink;
            InfoShrunk (totalSize (initial (batch_elems batch)))
                       (totalSize st) (itemsRemoved st)]
           ++ warn_log err attemptContext)
    end
  else if bool_decide (sys_code <$> systemErrorResponseData
                       = Some "JOB_NOT_AWAITING_UPLOADS") then
    HandledThrow
      (ThrownIntegrationError
         {| ie_code := "INTEGRATION_UPLOAD_AFTER_JOB_ENDED";
            ie_fatal := true;
            ie_message :=
              "Failed to upload integration data because job has already ended";
            ie_cause := err |})
      []
  else HandledOk batch (warn_log err attemptContext).

(** *** The retry loop *)

(** The options [uploadDataChunk] passes to [retry]. *)
Definition maxAttempts : nat := 5.
Definition delay : Z := 200.
(** [factor] is 1.05, kept as the fraction 105/100. *)
Definition factor_num : Z := 105.
Definition factor_den : Z := 100.

(** [Math.round(delay * Math.pow(factor, attemptNum - 1))], the pause
    before the attempt that follows failure number [attemptNum >= 1]. *)
Definition calculateDelay (attemptNum : nat) : Z :=
  let n := Z.of_nat (attemptNum - 1) in
  (2 * delay * factor_num ^ n + factor_den ^ n) / (2 * factor_den ^ n).

Inductive Event : Type :=
| Post (r : Request)
| Log (l : LogEntry)
| Sleep (ms : Z).

Inductive ChunkResult : Type :=
| Resolved
| Rejected (t : Thrown)
| Looping.

Section WithApi.

(** The service: what the [POST] number [n] (from 0) of a chunk upload is
    answered, given the request; [None] is a 2xx answer. *)
Variable apiClient_post : nat -> Request -> option UploadError.
Variable shrinkFuel : nat.
Variable jobId : string.
Variable type : UploadType.

(** [makeAttempt] of [retry], entered with [context.attemptsRemaining =
    remaining] and [context.attemptNum = num]: the counter is decremented,
    the attempt made, and on failure [handleError] runs before the error is
    rethrown (no attempt left) or the next attempt is made after the
    pause. *)
Fixpoint makeAttempt (remaining num : nat) (batch : json)
    : list Event * ChunkResult :=
  match remaining with
  | 0 => ([], Resolved)
  | S remaining' =>
      let request := chunk_request jobId type batch in
      match apiClient_post num request with
      | None => ([Post request], Resolved)
      | Some err =>
          let context :=
            {| attemptNum := num; attemptsRemaining := remaining' |} in
          match handleUploadDataChunkError shrinkFuel err context batch with
          | HandledLooping => ([Post request], Looping)
          | HandledThrow t log =>
              (Post request :: (Log <$> log), Rejected t)
          | HandledOk batch' log =>
              if Nat.eqb remaining' 0 then
                (Post request :: (Log <$> log),
                 Rejected (ThrownUploadError err))
              else
                let rest := makeAttempt remaining' (S num) batch' in
                (Post request :: (Log <$> log)
                   ++ Sleep (calculateDelay (S num)) :: rest.1,
                 rest.2)
          end
      end
  end.

Definition uploadDataChunk (batch : json) : list Event * ChunkResult :=
  makeAttempt maxAttempts 0 batch.

End WithApi.

(** The requests posted and the pauses made, read off the events. *)
Definition posts (events : list Event) : list Request :=
  omap (fun e => match e with Post r => Some r | _ => None end) events.

Definition sleeps (events : list Event) : list Z :=
  omap (fun e => match e with Sleep ms => Some ms | _ => None end) events.

(** The fatal error [handleUploadDataChunkError] throws for [err]. *)
Definition upload_after_job_ended (err : UploadError) : Thrown :=
  ThrownIntegrationError
    {| ie_code := "INTEGRATION_UPLOAD_AFTER_JOB_ENDED";
       ie_fatal := true;
       ie_message :=
         "Failed to upload integration data because job has already ended";
       ie_cause := err |}.

(** An answer with the status 413 whose body carries the application error
    code [JOB_NOT_AWAITING_UPLOADS]. *)
Definition job_ended_too_large : UploadError :=
  {| code := None;
     response :=
       Some {| status := 413;
               data_error :=
                 Some {| sys_code := "JOB_NOT_AWAITING_UPLOADS";
                         sys_message := "job is not awaiting uploads" |} |} |}.

(** A service that gives that answer to every [POST]. *)
Definition always_too_large (_ : nat) (_ : Request) : option UploadError :=
  Some job_ended_too_large.

(** An answer with the status 409 and the same body. *)
Definition job_ended : UploadError :=
  {| code := None;
     response :=
       Some {| status := 409;
               data_error :=
                 Some {| sys_code := "JOB_NOT_AWAITING_UPLOADS";
                         sys_message := "job is not awaiting uploads" |} |} |}.

(** An error [handleUploadDataChunkError] neither shrinks the batch for nor
    turns into the fatal error. *)
Definition retriable (err : UploadError) : Prop :=
  isRequestUploadTooLargeError err = false
  /\ sys_code <$> getSystemErrorResponseData err
     <> Some "JOB_NOT_AWAITING_UPLOADS".

(** An error after which the same batch is posted again while attempts
    remain: a retriable one, or a too-large error for a batch that is
    within [UPLOAD_SIZE_MAX] already, which the shrinking leaves as it
    is. *)
Definition retried_as_is (batch : json) (err : UploadError) : Prop :=
  retriable err
  \/ (isRequestUploadTooLargeError err = true
      /\ exists l, batch = JArr l []
                   /\ (Z.of_nat (bytes (JArr l [])) <= UPLOAD_SIZE_MAX)%Z).

(** A connection error, and a service that fails with it on the first two
    [POST]s. *)
Definition connection_reset : UploadError :=
  {| code := Some "ECONNRESET"; response := None |}.

Definition fails_twice (n : nat) (_ : Request) : option UploadError :=
  if Nat.ltb n 2 then Some connection_reset else None.


(** A service that fails with it twice and then answers that the job has
    ended, and one that finds the first [POST] too large. *)
Definition job_ends_after_two (n : nat) (_ : Request) : option UploadError :=
  if Nat.ltb n 2 then Some connection_reset else Some job_ended.

Definition too_large_once (n : nat) (_ : Request) : option UploadError :=
  if Nat.eqb n 0 then Some job_ended_too_large else None.

(** *** [uploadData] and [uploadGraphObjectData] *)

(** One call of [uploadDataChunk]. *)
Record ChunkCall := {
  call_jobId : string;
  call_type : UploadType;
  call_batch : list json
}.

Definition call_request (c : ChunkCall) : Request :=
  chunk_request (call_jobId c) (call_type c) (JArr (call_batch c) []).

(** [uploadBatchSize || UPLOAD_BATCH_SIZE]. *)
Definition batch_size (uploadBatchSize : option Z) : Z :=
  match uploadBatchSize with
  | Some n => if Z.eqb n 0 then UPLOAD_BATCH_SIZE else n
  | None => UPLOAD_BATCH_SIZE
  end.

(** The calls of [uploadDataChunk] the mapper of [uploadData] makes, in the
    order of the batches: one for each batch with [batch.length] non-zero. *)
Definition uploadData (jobId : string) (type : UploadType) (data : list json)
    (uploadBatchSize : option Z) : list ChunkCall :=
  let batches := chunk data (batch_size uploadBatchSize) in
  (fun batch => {| call_jobId := jobId; call_type := type;
                   call_batch := batch |})
    <$> filter (fun batch => length batch <> 0) batches.

(** [FlushedGraphObjectData]: both fields are optional. *)
Record FlushedGraphObjectData := {
  fg_entities : option (list json);
  fg_relationships : option (list json)
}.

(** The calls [uploadGraphObjectData] makes through [uploadData]: entities
    first, then relationships, each only when it is an array of non-zero
    length. *)
Definition uploadGraphObjectData (jobId : string)
    (graphObjectData : FlushedGraphObjectData) (uploadBatchSize : option Z)
    : list ChunkCall :=
  (match fg_entities graphObjectData with
   | Some (e :: es) => uploadData jobId entities (e :: es) uploadBatchSize
   | _ => []
   end)
  ++
  (match fg_relationships graphObjectData with
   | Some (r :: rs) => uploadData jobId relationships (r :: rs) uploadBatchSize
   | _ => []
   end).

(** *** [p-map] *)

(** The state of [pMap(inputs, mapper, {concurrency})]: the inputs the
    iterator has not yielded yet, the inputs whose mapper call is pending
    ([resolvingCount] is their number), the inputs whose call has
    fulfilled, and [isRejected]. *)
Record PMap (A : Type) := {
  waiting : list A;
  pending : list A;
  finished : list A;
  isRejected : bool
}.
Arguments waiting {A} _.
Arguments pending {A} _.
Arguments finished {A} _.
Arguments isRejected {A} _.

(** [next()]: nothing once a call has rejected; otherwise the next input,
    if the iterator has one, is handed to the mapper. *)
Definition next {A} (st : PMap A) : PMap A :=
  if isRejected st then st
  else
    match waiting st with
    | [] => st
    | x :: w =>
        {| waiting := w; pending := pending st ++ [x];
           finished := finished st; isRejected := false |}
    end.

(** The loop [for (let i = 0; i < concurrency; i++) { next(); ... }] that
    starts the first calls. *)
Definition pmap_init {A} (concurrency : nat) (inputs : list A) : PMap A :=
  Nat.iter concurrency next
    {| waiting := inputs; pending := []; finished := [];
       isRejected := false |}.

(** The pending call of index [k] settles. When it fulfils,
    [resolvingCount] goes down and [next()] runs; when it rejects,
    [isRejected] is set and the promise of [pMap] rejects. [None] when
    there is no such call. *)
Definition pmap_settle {A} (k : nat) (fulfils : bool) (st : PMap A)
    : option (PMap A) :=
  x ← pending st !! k;
  Some (if fulfils then
          next {| waiting := waiting st; pending := delete k (pending st);
                  finished := finished st ++ [x];
                  isRejected := isRejected st |}
        else
          {| waiting := waiting st; pending := delete k (pending st);
             finished := finished st; isRejected := true |}).

Definition pmap_step {A} (st st' : PMap A) : Prop :=
  exists k fulfils, pmap_settle k fulfils st = Some st'.

Definition pmap_reachable {A} (concurrency : nat) (inputs : list A)
    (st : PMap A) : Prop :=
  rtc pmap_step (pmap_init concurrency inputs) st.

(** The promise of [pMap] fulfils when no call has rejected, the iterator
    is done and no call is pending. *)
Definition pmap_fulfilled {A} (st : PMap A) : bool :=
  negb (isRejected st)
  && bool_decide (length (pending st) = 0)
  && bool_decide (length (waiting st) = 0).

(** The [pMap] call of [uploadData]: its inputs are the batches and its
    concurrency is [UPLOAD_CONCURRENCY]. *)
Definition uploadData_start (data : list json) (uploadBatchSize : option Z)
    : PMap (list json) :=
  pmap_init UPLOAD_CONCURRENCY (chunk data (batch_size uploadBatchSize)).

Definition uploadData_reachable (data : list json)
    (uploadBatchSize : option Z) (st : PMap (list json)) : Prop :=
  rtc pmap_step (uploadData_start data uploadBatchSize) st.

(** The calls of [uploadDataChunk] the mapper of [uploadData] makes for
    some of the batches. *)
Definition mapper_calls (jobId : string) (type : UploadType)
    (batches : list (list json)) : list ChunkCall :=
  (fun batch => {| call_jobId := jobId; call_type := type;
                   call_batch := batch |})
    <$> filter (fun batch => length batch <> 0) batches.

End Upload.

(** ** Synchronization *)

Module Sync.

(** What [synchronizeCollectedData] awaits, in program order. *)
Inductive Action : Type :=
| Initiate            (* initiateSynchronization: POST .../jobs *)
| AttachQueue         (* createEventPublishingQueue; logger.on('event', ...) *)
| UploadCollectedData (* uploadCollectedData *)
| GetPartialDatasets  (* getPartialDatasets: read summary.json *)
| Finalize            (* finalizeSynchronization: POST .../finalize *)
| LogError            (* logger.error in the catch block *)
| Abort               (* abortSynchronization: POST .../abort *)
| LogAbortError       (* logger.error for the abort error *)
| OnIdle.             (* await eventPublishingQueue.onIdle() *)

#[export] Instance Action_eq_dec : EqDecision Action.
Proof. solve_decision. Defined.

(** Which of the awaited calls fail in a run. *)
Record Outcomes := {
  initiate_ok : bool;
  upload_ok : bool;
  summary_ok : bool;
  finalize_ok : bool;
  abort_ok : bool
}.

Inductive Settled : Type :=
| ResolvesWithJob
| RejectsWithInitiateError
| RejectsWithError
| RejectsWithAbortError.

(** The [try] block, up to the first failing call. *)
Definition try_block (o : Outcomes) : list Action * bool :=
  if negb (upload_ok o) then ([UploadCollectedData], false)
  else if negb (summary_ok o) then
    ([UploadCollectedData; GetPartialDatasets], false)
  else ([UploadCollectedData; GetPartialDatasets; Finalize], finalize_ok o).

(** The [catch] block. *)
Definition catch_block (o : Outcomes) : list Action * Settled :=
  if abort_ok o then ([LogError; Abort], RejectsWithError)
  else ([LogError; Abort; LogAbortError], RejectsWithAbortError).

(** The calls [synchronizeCollectedData] awaits and how it settles. *)
Definition synchronizeCollectedData (o : Outcomes) : list Action * Settled :=
  if negb (initiate_ok o) then ([Initiate], RejectsWithInitiateError)
  else
    let t := try_block o in
    if t.2 then
      (Initiate :: AttachQueue :: t.1 ++ [OnIdle], ResolvesWithJob)
    else
      let c := catch_block o in
      (Initiate :: AttachQueue :: t.1 ++ c.1 ++ [OnIdle], c.2).

Section WithLogger.

Variable LoggerEvent : Type.

(** The events the logger emits while a call is awaited. *)
Variable emits : Action -> list LoggerEvent.

(** The program together with the event publishing queue. The queue
    publishes the events handed to it one at a time, in order, on its own
    schedule; [onIdle] settles only once the queue is empty. Events emitted
    before the queue is attached are not handed to it. *)
Record System := {
  todo : list Action;
  performed : list Action;
  attached : bool;
  queue : list LoggerEvent;
  published : list LoggerEvent
}.

Definition enqueue (s : System) (a : Action) : list LoggerEvent :=
  if attached s then queue s ++ emits a else queue s.

Inductive sys_step : System -> System -> Prop :=
| step_call a rest s :
    todo s = a :: rest ->
    a <> OnIdle ->
    sys_step s
      {| todo := rest;
         performed := performed s ++ [a];
         attached := attached s || bool_decide (a = AttachQueue);
         queue := enqueue s a;
         published := published s |}
| step_onIdle rest s :
    todo s = OnIdle :: rest ->
    queue s = [] ->
    sys_step s
      {| todo := rest;
         performed := performed s ++ [OnIdle];
         attached := attached s;
         queue := [];
         published := published s |}
| step_publish e q s :
    queue s = e :: q ->
    sys_step s
      {| todo := todo s;
         performed := performed s;
         attached := attached s;
         queue := q;
         published := published s ++ [e] |}.

Definition sys_init (o : Outcomes) : System :=
  {| todo := (synchronizeCollectedData o).1;
     performed := [];
     attached := false;
     queue := [];
     published := [] |}.

Definition sys_reachable (o : Outcomes) (s : System) : Prop :=
  rtc sys_step (sys_init o) s.

(** The events handed to the queue by the calls of a list, given whether
    the queue is attached at its start. *)
Fixpoint handed (att : bool) (l : list Action) : list LoggerEvent :=
  match l with
  | [] => []
  | a :: l' =>
      (if att && negb (bool_decide (a = OnIdle)) then emits a else [])
        ++ handed (att || bool_decide (a = AttachQueue)) l'
  end.

(** What holds in every state of a run. *)
Definition sync_invariant (o : Outcomes) (s : System) : Prop :=
  (synchronizeCollectedData o).1 = performed s ++ todo s
  /\ attached s = bool_decide (AttachQueue ∈ performed s)
  /\ published s ++ queue s = handed false (performed s)
  /\ (queue s <> [] -> OnIdle ∈ todo s).

End WithLogger.

Arguments todo {LoggerEvent} _.
Arguments performed {LoggerEvent} _.
Arguments attached {LoggerEvent} _.
Arguments queue {LoggerEvent} _.
Arguments published {LoggerEvent} _.
Arguments enqueue {LoggerEvent} _ _ _.
Arguments sys_step {LoggerEvent} _ _ _.
Arguments sys_init {LoggerEvent} _.
Arguments sys_reachable {LoggerEvent} _ _ _.
Arguments handed {LoggerEvent} _ _ _.
Arguments sync_invariant {LoggerEvent} _ _ _.

(** How often a call is awaited in a run. *)
Definition occurrences (a : Action) (l : list Action) : nat :=
  length (filter (fun b => b = a) l).

(** *** A sample run *)

(** Every call succeeds. *)
Definition all_ok : Outcomes :=
  {| initiate_ok := true; upload_ok := true; summary_ok := true;
     finalize_ok := true; abort_ok := true |}.

(** The logger publishes an event at the start and at the end of the
    upload. *)
Definition upload_events (a : Action) : list string :=
  match a with
  | UploadCollectedData => ["sync_upload_start"; "sync_upload_end"]
  | _ => []
  end.

(** The state in which [finalizeSynchronization] has just returned while
    the queue has published nothing yet, and the state at the end of the
    run. *)
Definition finalized_undrained : System string :=
  {| todo := [OnIdle];
     performed := [Initiate; AttachQueue; UploadCollectedData;
                   GetPartialDatasets; Finalize];
     attached := true;
     queue := ["sync_upload_start"; "sync_upload_end"];
     published := [] |}.

Definition settled_drained : System string :=
  {| todo := [];
     performed := [Initiate; AttachQueue; UploadCollectedData;
                   GetPartialDatasets; Finalize; OnIdle];
     attached := true;
     queue := [];
     published := ["sync_upload_start"; "sync_upload_end"] |}.

End Sync.

(** ** Step execution *)

Module Execution.

Inductive StepResultStatus : Type :=
| SUCCESS
| FAILURE
| PARTIAL_SUCCESS_DUE_TO_DEPENDENCY_FAILURE
| DISABLED
| CANCELLED.

#[export] Instance StepResultStatus_eq_dec : EqDecision StepResultStatus.
Proof. solve_decision. Defined.

(** A declared entity or relationship type of a step; [partial] is [false]
    when the declaration does not carry the flag. *)
Record StepGraphObjectMetadata := {
  meta_type : string;
  partial : bool
}.

(** Modelled from the spec: the step handler is absent from the sources as a
    value (it is user code); it is given by the calls it makes on its job
    state, in order, ending with [throws] when it rejects on its own. An
    error thrown by a call ends the handler. *)
Inductive JobStateCall : Type :=
| addEntity (e : Entity)
| addEntities (es : list Entity)
| addRelationship (r : Relationship)
| addRelationships (rs : list Relationship)
| throws (message : string).

Record Step := {
  id : string;
  name : string;
  entities : list StepGraphObjectMetadata;
  relationships : list StepGraphObjectMetadata;
  dependsOn : option (list string);
  executionHandler : list JobStateCall
}.

Record StepResult := {
  result_id : string;
  result_name : string;
  declaredTypes : list string;
  partialTypes : list string;
  encounteredTypes : list string;
  result_dependsOn : option (list string);
  status : StepResultStatus
}.

Record StepStartState := { disabled : bool }.

(** Modelled from the spec: the invocation configuration, without the
    optional hooks. [validateInvocation] is the message it rejects with, if
    it is provided and rejects; [getStepStartStates] is the value it
    returns or resolves to, if it is provided. *)
Record IntegrationInvocationConfig := {
  validateInvocation : option string;
  getStepStartStates : option (gmap string StepStartState);
  integrationSteps : list Step
}.

Record ExecuteIntegrationResult := {
  integrationStepResults : list StepResult;
  partialDatasets_types : list string
}.

(** *** Execution summary *)

(** lodash [uniq]: the first occurrence of each element is kept. *)
Definition uniq (l : list string) : list string :=
  fold_left (fun (acc : list string) x =>
               if decide (x ∈ acc) then acc else acc ++ [x]) l [].

Definition is_partial_status (s : StepResultStatus) : bool :=
  bool_decide (s = FAILURE)
  || bool_decide (s = PARTIAL_SUCCESS_DUE_TO_DEPENDENCY_FAILURE).

(** The types one step result contributes. *)
Definition stepPartialDatasets (r : StepResult) : list string :=
  (if bool_decide (status r = DISABLED) then [] else partialTypes r)
  ++ (if is_partial_status (status r) then declaredTypes r else []).

(** Modelled from the spec: the function that computes
    [metadata.partialDatasets.types] from the step results is absent from
    the sources. The results are folded in order and duplicates dropped;
    the contribution of a [DISABLED] step is the one the tests of
    [executeIntegrationInstance] expect. *)
Definition determinePartialDatasetsFromStepExecutionResults
    (results : list StepResult) : list string :=
  fold_left (fun (types : list string) r =>
               uniq (types ++ stepPartialDatasets r)) results [].

(** The union as the specification words it: the declared types of the
    failed and partially successful steps and the partial types of every
    step, whatever its status. *)
Definition spec_partial_types (results : list StepResult) (t : string)
    : Prop :=
  exists r, r ∈ results /\
    ((is_partial_status (status r) = true /\ t ∈ declaredTypes r)
     \/ t ∈ partialTypes r).

(** *** Persistence *)

Inductive Collection : Type := Entities | Relationships.

#[export] Instance Collection_eq_dec : EqDecision Collection.
Proof. solve_decision. Defined.

Definition collection_name (c : Collection) : string :=
  match c with
  | Entities => "entities"
  | Relationships => "relationships"
  end.

(** A file under [graph/]: [graph/<stepId>/<collection>/<uuid>.json]. The
    [uuid] is the number of files written before, which makes it free of
    collisions. The [index/] tree and [summary.json] are not part of the
    model. *)
Record Path := GraphFile {
  path_stepId : string;
  path_collection : Collection;
  path_uuid : nat
}.

Definition path_string (p : Path) : string :=
  "graph/" +:+ path_stepId p +:+ "/" +:+
  collection_name (path_collection p) +:+ "/" +:+
  pretty (path_uuid p) +:+ ".json".

(** The content of a flushed file: [{entities: [...]}] or
    [{relationships: [...]}]. *)
Definition flushed_data (c : Collection) (objects : list obj) : json :=
  JObj [(collection_name c, JArr (JObj <$> objects) [])].

Definition FLUSH_THRESHOLD : nat := 500.

(** Modelled from the spec: the object store is absent from the sources.
    It holds the keys seen so far, the buffered objects partitioned by
    [_type] in insertion order, and the files written, each with the
    objects flushed into it. [accepted] records every object the store took,
    in order; it serves the statements about the store and plays no part in
    the run. *)
Record Store := {
  entityKeys : gset string;
  relationshipKeys : gset string;
  entityBuffer : list (string * list obj);
  relationshipBuffer : list (string * list obj);
  files : list (Path * list obj);
  accepted : list (Collection * obj)
}.

Definition empty_store : Store :=
  {| entityKeys := ∅; relationshipKeys := ∅;
     entityBuffer := []; relationshipBuffer := [];
     files := []; accepted := [] |}.

Definition keys_of (c : Collection) (st : Store) : gset string :=
  match c with
  | Entities => entityKeys st
  | Relationships => relationshipKeys st
  end.

Definition buffer_of (c : Collection) (st : Store)
    : list (string * list obj) :=
  match c with
  | Entities => entityBuffer st
  | Relationships => relationshipBuffer st
  end.

Definition set_collection (c : Collection) (keys : gset string)
    (buffer : list (string * list obj)) (st : Store) : Store :=
  match c with
  | Entities =>
      {| entityKeys := keys; relationshipKeys := relationshipKeys st;
         entityBuffer := buffer; relationshipBuffer := relationshipBuffer st;
         files := files st; accepted := accepted st |}
  | Relationships =>
      {| entityKeys := entityKeys st; relationshipKeys := keys;
         entityBuffer := entityBuffer st; relationshipBuffer := buffer;
         files := files st; accepted := accepted st |}
  end.

Definition set_files (fs : list (Path * list obj)) (st : Store) : Store :=
  {| entityKeys := entityKeys st; relationshipKeys := relationshipKeys st;
     entityBuffer := entityBuffer st;
     relationshipBuffer := relationshipBuffer st;
     files := fs; accepted := accepted st |}.

Definition record_accepted (c : Collection) (o : obj) (st : Store) : Store :=
  {| entityKeys := entityKeys st; relationshipKeys := relationshipKeys st;
     entityBuffer := entityBuffer st;
     relationshipBuffer := relationshipBuffer st;
     files := files st; accepted := accepted st ++ [(c, o)] |}.

Fixpoint buffer_add (t : string) (o : obj) (buffer : list (string * list obj))
    : list (string * list obj) :=
  match buffer with
  | [] => [(t, [o])]
  | (t', os) :: rest =>
      if String.eqb t t' then (t', os ++ [o]) :: rest
      else (t', os) :: buffer_add t o rest
  end.

Definition buffer_objects (buffer : list (string * list obj)) : list obj :=
  concat (snd <$> buffer).

(** The objects of one kind among a list of files or of accepted
    objects. *)
Definition file_objects (c : Collection) (fs : list (Path * list obj))
    : list obj :=
  concat (snd <$> filter (fun f => path_collection f.1 = c) fs).

Definition accepted_of (c : Collection) (l : list (Collection * obj))
    : list obj :=
  snd <$> filter (fun a => a.1 = c) l.

(** Everything of one kind the store holds, on disk and in memory. *)
Definition stored (c : Collection) (st : Store) : list obj :=
  file_objects c (files st) ++ buffer_objects (buffer_of c st).

(** Modelled from the spec: a flush moves the whole buffer of one kind into
    one new file of the owning step; an empty buffer writes no file. *)
Definition flush (stepId : string) (c : Collection) (st : Store) : Store :=
  match buffer_objects (buffer_of c st) with
  | [] => st
  | objects =>
      set_files
        (files st ++ [(GraphFile stepId c (length (files st)), objects)])
        (set_collection c (keys_of c st) [] st)
  end.

(** What the job state of a step accumulates. *)
Record JobState := {
  store : Store;
  encountered : list string
}.

Inductive JobStateError : Type :=
| DUPLICATE_KEY (key : string)
| STEP_HANDLER_ERROR (message : string).

(** Modelled from the spec: adding one object. A key already in the store
    is a [DUPLICATE_KEY] error and leaves the state as it is; otherwise the
    key and the object are recorded, the [_type] joins the encountered
    types, and the buffer is flushed once it holds more than
    [FLUSH_THRESHOLD] objects. *)
Definition add_object (stepId : string) (c : Collection) (o : obj)
    (js : JobState) : JobStateError + JobState :=
  let st := store js in
  if decide (_key o ∈ keys_of c st) then inl (DUPLICATE_KEY (_key o))
  else
    let st1 :=
      record_accepted c o
        (set_collection c ({[ _key o ]} ∪ keys_of c st)
           (buffer_add (_type o) o (buffer_of c st)) st) in
    let st2 :=
      if Nat.ltb FLUSH_THRESHOLD (length (buffer_objects (buffer_of c st1)))
      then flush stepId c st1 else st1 in
    inr {| store := st2;
           encountered :=
             if decide (_type o ∈ encountered js) then encountered js
             else encountered js ++ [_type o] |}.

(** Adding a batch: the objects before the first duplicate are retained. *)
Fixpoint add_objects (stepId : string) (c : Collection) (os : list obj)
    (js : JobState) : JobState * option JobStateError :=
  match os with
  | [] => (js, None)
  | o :: os' =>
      match add_object stepId c o js with
      | inl e => (js, Some e)
      | inr js' => add_objects stepId c os' js'
      end
  end.

Definition job_state_call (stepId : string) (call : JobStateCall)
    (js : JobState) : JobState * option JobStateError :=
  match call with
  | addEntity e => add_objects stepId Entities [e] js
  | addEntities es => add_objects stepId Entities es js
  | addRelationship r => add_objects stepId Relationships [r] js
  | addRelationships rs => add_objects stepId Relationships rs js
  | throws message => (js, Some (STEP_HANDLER_ERROR message))
  end.

(** Running the handler: the calls in order, up to the first error. *)
Fixpoint run_handler (stepId : string) (calls : list JobStateCall)
    (js : JobState) : JobState * option JobStateError :=
  match calls with
  | [] => (js, None)
  | call :: calls' =>
      match job_state_call stepId call js with
      | (js', None) => run_handler stepId calls' js'
      | (js', Some e) => (js', Some e)
      end
  end.

Definition step_declaredTypes (s : Step) : list string :=
  meta_type <$> (entities s ++ relationships s).

Definition step_partialTypes (s : Step) : list string :=
  meta_type <$> filter (fun m => partial m = true)
                  (entities s ++ relationships s).

Definition step_result (s : Step) (enc : list string)
    (st : StepResultStatus) : StepResult :=
  {| result_id := id s; result_name := name s;
     declaredTypes := step_declaredTypes s;
     partialTypes := step_partialTypes s;
     encounteredTypes := enc;
     result_dependsOn := dependsOn s;
     status := st |}.

Definition dependencies (s : Step) : list string :=
  default [] (dependsOn s).

(** Whether a dependency of the step ended in [FAILURE] or in
    [PARTIAL_SUCCESS_DUE_TO_DEPENDENCY_FAILURE]. *)
Definition dependency_failed (results : list StepResult) (s : Step) : bool :=
  existsb
    (fun r => bool_decide (result_id r ∈ dependencies s)
              && is_partial_status (status r))
    results.

Definition is_disabled (starts : option (gmap string StepStartState))
    (s : Step) : bool :=
  match starts with
  | Some m => match m !! id s with Some st => disabled st | None => false end
  | None => false
  end.

(** The status of a step whose handler has run. *)
Definition handler_status (results : list StepResult) (s : Step)
    (error : option JobStateError) : StepResultStatus :=
  match error with
  | Some _ => FAILURE
  | None =>
      if dependency_failed results s
      then PARTIAL_SUCCESS_DUE_TO_DEPENDENCY_FAILURE
      else SUCCESS
  end.

(** Modelled from the spec: one step, given the store and the results of
    the steps that ran before it. A disabled step ends at once as
    [DISABLED]; otherwise the handler runs, both buffers are flushed, and
    the status is [FAILURE] after an error, else
    [PARTIAL_SUCCESS_DUE_TO_DEPENDENCY_FAILURE] or [SUCCESS]. *)
Definition executeStep (starts : option (gmap string StepStartState))
    (results : list StepResult) (st : Store) (s : Step)
    : Store * StepResult :=
  if is_disabled starts s then (st, step_result s [] DISABLED)
  else
    let r := run_handler (id s) (executionHandler s)
               {| store := st; encountered := [] |} in
    (flush (id s) Relationships (flush (id s) Entities (store r.1)),
     step_result s (encountered r.1) (handler_status results s r.2)).

(** *** Dependency graph *)

(** The first of the remaining steps whose dependencies have all ended;
    each step comes with its position in the declaration. *)
Fixpoint next_runnable (ended : list string) (remaining : list (nat * Step))
    : option ((nat * Step) * list (nat * Step)) :=
  match remaining with
  | [] => None
  | s :: rest =>
      if forallb (fun d => bool_decide (d ∈ ended)) (dependencies s.2)
      then Some (s, rest)
      else
        match next_runnable ended rest with
        | Some (s', rest') => Some (s', s :: rest')
        | None => None
        end
  end.

(** Modelled from the spec: the order in which the steps run, one at a
    time; [None] when some step can never run (a dependency cycle). Each
    round takes one step, so one round per step is enough. *)
Fixpoint execution_order (fuel : nat) (ended : list string)
    (remaining : list (nat * Step)) : option (list (nat * Step)) :=
  match remaining with
  | [] => Some []
  | _ =>
      match fuel with
      | 0 => None
      | S fuel' =>
          match next_runnable ended remaining with
          | Some (s, rest) =>
              cons s <$> execution_order fuel' (ended ++ [id s.2]) rest
          | None => None
          end
      end
  end.

(** The steps of an order run one after the other, from a store and the
    results so far. *)
Definition run_steps (starts : option (gmap string StepStartState))
    (order : list (nat * Step)) (init : Store * list (nat * StepResult))
    : Store * list (nat * StepResult) :=
  fold_left
    (fun acc s =>
       let r := executeStep starts (snd <$> acc.2) acc.1 s.2 in
       (r.1, acc.2 ++ [(s.1, r.2)]))
    order init.

(** *** The run *)

Inductive RunError : Type :=
| VALIDATION_ERROR (message : string)
| START_STATES_MISSING (stepIds : list string)
| CYCLIC_DEPENDENCY.

(** The steps without an entry in the start states. *)
Definition missing_start_states (m : gmap string StepStartState)
    (steps : list Step) : list string :=
  id <$> filter (fun s => m !! id s = None) steps.

(** The check of the start states, made when [getStepStartStates] is
    provided. *)
Definition start_states_missing (starts : option (gmap string StepStartState))
    (steps : list Step) : list string :=
  match starts with
  | Some m => missing_start_states m steps
  | None => []
  end.

(** How a run ends, the files it leaves under [graph/] with the objects
    flushed into each, the objects the store accepted, and the steps whose
    handler was invoked, in order. *)
Record Run := {
  outcome : RunError + ExecuteIntegrationResult;
  graph_files : list (Path * list obj);
  accepted_objects : list (Collection * obj);
  invoked : list string
}.

Definition rejected (e : RunError) : Run :=
  {| outcome := inl e; graph_files := []; accepted_objects := [];
     invoked := [] |}.

(** The results in the order the steps are declared in. *)
Definition in_declaration_order (n : nat) (results : list (nat * StepResult))
    : list StepResult :=
  omap (fun i => snd <$> List.find (fun r => Nat.eqb r.1 i) results)
       (seq 0 n).

(** Modelled from the spec: [executeIntegrationInstance] is absent from the
    sources (its tests are there). The storage root is cleared; the
    validation phase runs [validateInvocation], checks the start states
    and builds the dependency graph; the steps run; the summary is
    computed. *)
Definition executeIntegrationInstance (config : IntegrationInvocationConfig)
    : Run :=
  match validateInvocation config with
  | Some message => rejected (VALIDATION_ERROR message)
  | None =>
      let steps := integrationSteps config in
      let starts := getStepStartStates config in
      match start_states_missing starts steps with
      | (_ :: _) as missing => rejected (START_STATES_MISSING missing)
      | [] =>
          match execution_order (length steps) [] (imap pair steps) with
          | None => rejected CYCLIC_DEPENDENCY
          | Some order =>
              let r := run_steps starts order (empty_store, []) in
              let results := in_declaration_order (length steps) r.2 in
              {| outcome :=
                   inr {| integrationStepResults := results;
                          partialDatasets_types :=
                            determinePartialDatasetsFromStepExecutionResults
                              results |};
                 graph_files := files r.1;
                 accepted_objects := accepted r.1;
                 invoked :=
                   (fun s => id s.2)
                   <$> filter (fun s => is_disabled starts s.2 = false) order |}
          end
      end
  end.

(** What holds of every store a run goes through: the keys are those of
    the accepted objects, no two accepted objects of a kind share a key,
    and the objects held, on disk or in memory, are the accepted ones. *)
Definition store_inv (st : Store) : Prop :=
  forall c,
    (forall k, k ∈ keys_of c st
               <-> exists o, o ∈ accepted_of c (accepted st) /\ _key o = k)
    /\ NoDup (_key <$> accepted_of c (accepted st))
    /\ stored c st ≡ₚ accepted_of c (accepted st).

(** What holds of the job state of a step started on the store [st0]: the
    encountered types are the types of the objects accepted since. *)
Definition job_inv (st0 : Store) (js : JobState) : Prop :=
  store_inv (store js)
  /\ exists new,
       accepted (store js) = accepted st0 ++ new
       /\ forall t, t ∈ encountered js
                    <-> exists x, x ∈ new /\ _type x.2 = t.

(** Nothing is left in memory. *)
Definition flushed (st : Store) : Prop :=
  forall c, buffer_objects (buffer_of c st) = [].

(** The entities a call hands to the job state, for the calls that add
    entities. *)
Definition entity_call (call : JobStateCall) : option (list Entity) :=
  match call with
  | addEntity e => Some [e]
  | addEntities es => Some es
  | _ => None
  end.




(** *** The files on disk *)

Record Env := {
  INTEGRATION_FILE_COMPRESSION_ENABLED : option string
}.

Definition compression_enabled (env : Env) : bool :=
  match INTEGRATION_FILE_COMPRESSION_ENABLED env with
  | Some v => negb (String.eqb v "")
  | None => false
  end.

Section WithCodec.

(** The Brotli coder and decoder of [zlib], on the text of a file. *)
Variable brotliCompress : string -> string.
Variable brotliDecompress : string -> string.

Variable env : Env.

(** Modelled from the spec: the text written for a file, Brotli-compressed
    when [INTEGRATION_FILE_COMPRESSION_ENABLED] is not empty. *)
Definition file_content (data : json) : string :=
  if compression_enabled env then brotliCompress (stringify data)
  else stringify data.

(** The storage a run leaves: each file with its content. *)
Definition storage (fs : list (Path * list obj)) : list (Path * string) :=
  (fun f => (f.1, file_content (flushed_data (path_collection f.1) f.2)))
  <$> fs.

(** A graph file read back as the test does: the content is decompressed
    and parsed. *)
Definition read_graph_file (content : string) : option json :=
  parse (brotliDecompress content).

Definition read_graph_files (files : list (Path * string))
    : list (option json) :=
  (fun f => read_graph_file f.2) <$> files.

End WithCodec.

(** *** The configurations of the tests *)

Definition declared (t : string) : StepGraphObjectMetadata :=
  {| meta_type := t; partial := false |}.

Definition declared_partial (t : string) : StepGraphObjectMetadata :=
  {| meta_type := t; partial := true |}.

Definition test_entity (k t c : string) : Entity :=
  [("_key", JStr k); ("_type", JStr t); ("_class", JStr c)].

Definition test_step (i : string) (es rs : list StepGraphObjectMetadata)
    (deps : option (list string)) (handler : list JobStateCall) : Step :=
  {| id := i; name := "My awesome step"; entities := es;
     relationships := rs; dependsOn := deps; executionHandler := handler |}.

Definition test_config (starts : option (gmap string StepStartState))
    (steps : list Step) : IntegrationInvocationConfig :=
  {| validateInvocation := None; getStepStartStates := starts;
     integrationSteps := steps |}.

(** A step result a test expects. *)
Definition expected (i : string) (declared partials encountered : list string)
    (deps : option (list string)) (st : StepResultStatus) : StepResult :=
  {| result_id := i; result_name := "My awesome step";
     declaredTypes := declared; partialTypes := partials;
     encounteredTypes := encountered; result_dependsOn := deps;
     status := st |}.

(** "throws validation errors on invalid output of getStepStartStates" *)
Definition test_missing_start_states : IntegrationInvocationConfig :=
  test_config (Some ∅) [test_step "my-step" [declared "test"] [] None []].

(** "returns integration step results and metadata about partial
    datasets" *)
Definition test_single_success : IntegrationInvocationConfig :=
  test_config None [test_step "my-step" [declared "test"] [] None []].

(** "populates partialDatasets type for failed steps" *)
Definition test_single_failure : IntegrationInvocationConfig :=
  test_config None
    [test_step "my-step" [declared "test"] [] None
       [throws "something broke"]].

(** "includes types for partially successful steps in partial datasets" *)
Definition test_dependency_failure : IntegrationInvocationConfig :=
  test_config None
    [test_step "my-step-a" [declared "test_a"] [] None
       [throws "something broke"];
     test_step "my-step-b" [declared "test_b"] [] (Some ["my-step-a"]) []].

(** "includes partialTypes declared in subsequent step meta data when
    dependency failure" *)
Definition test_dependency_failure_partial : IntegrationInvocationConfig :=
  test_config None
    [test_step "my-step-a" [declared "test_a"] [] None
       [throws "something broke"];
     test_step "my-step-b" [declared "test_b"; declared_partial "test_b2"]
       [] (Some ["my-step-a"]) []].

(** "includes partialTypes declared in failing step meta data" *)
Definition test_failure_partial : IntegrationInvocationConfig :=
  test_config None
    [test_step "my-step-a" [declared "test_a"; declared_partial "test_a2"]
       [] None [throws "something broke"];
     test_step "my-step-b" [declared "test_b"] [] (Some ["my-step-a"]) []].

(** "does not include partialTypes for disabled steps" *)
Definition test_disabled_partial : IntegrationInvocationConfig :=
  test_config
    (Some (<["my-step-b" := {| disabled := true |}]>
             (<["my-step-a" := {| disabled := false |}]> ∅)))
    [test_step "my-step-a" [declared "test_a"] [] None
       [throws "something broke"];
     test_step "my-step-b" [declared_partial "test_b"] [] None []].

(** What that test expects: the disabled step [my-step-b] has the partial
    type [test_b], and the partial datasets hold [test_a] only. *)
Definition test_disabled_partial_expected : ExecuteIntegrationResult :=
  {| integrationStepResults :=
       [expected "my-step-a" ["test_a"] [] [] None FAILURE;
        expected "my-step-b" ["test_b"] ["test_b"] [] None DISABLED];
     partialDatasets_types := ["test_a"] |}.

(** "includes step partialTypes when all success" *)
Definition test_all_success_partial : IntegrationInvocationConfig :=
  test_config None
    [test_step "my-step" [declared "test_1"; declared_partial "test_1b"]
       [] None [];
     {| id := "my-step-2"; name := "My awesome second step";
        entities := [declared "test_2"; declared_partial "test_2b"];
        relationships := [declared_partial "test_3"];
        dependsOn := None; executionHandler := [] |}].

(** "throws error if duplicate key is found within same step" *)
Definition test_duplicate_same_step : IntegrationInvocationConfig :=
  test_config None
    [{| id := "a"; name := "a"; entities := [declared "duplicate_entity"];
        relationships := []; dependsOn := None;
        executionHandler :=
          [addEntities
             [test_entity "key_a" "duplicate_entity" "DuplicateEntity";
              test_entity "key_a" "duplicate_entity" "DuplicateEntity"]] |}].

(** "throws error if duplicate key is found across steps" *)
Definition duplicate_entity : Entity :=
  test_entity "key_a" "duplicate_entity" "DuplicateEntity".

Definition test_duplicate_step (i : string) : Step :=
  {| id := i; name := i; entities := [declared "duplicate_entity"];
     relationships := []; dependsOn := None;
     executionHandler := [addEntity duplicate_entity] |}.

Definition test_duplicate_across_steps : IntegrationInvocationConfig :=
  test_config None [test_duplicate_step "a"; test_duplicate_step "b"].

Definition test_duplicate_across_steps_expected : ExecuteIntegrationResult :=
  {| integrationStepResults :=
       [{| result_id := "a"; result_name := "a";
           declaredTypes := ["duplicate_entity"]; partialTypes := [];
           encounteredTypes := ["duplicate_entity"];
           result_dependsOn := None; status := SUCCESS |};
        {| result_id := "b"; result_name := "b";
           declaredTypes := ["duplicate_entity"]; partialTypes := [];
           encounteredTypes := [];
           result_dependsOn := None; status := FAILURE |}];
     partialDatasets_types := ["duplicate_entity"] |}.

(** The store and the results once the step [a] has run. *)
Definition after_step_a : Store * list (nat * StepResult) :=
  run_steps None [(0, test_duplicate_step "a")] (empty_store, []).

(** A step that writes an entity of a type it did not declare and then an
    entity with the same key. *)
Definition undeclared_then_duplicate : IntegrationInvocationConfig :=
  test_config None
    [{| id := "a"; name := "a"; entities := [declared "declared_entity"];
        relationships := []; dependsOn := None;
        executionHandler :=
          [addEntity (test_entity "key_a" "undeclared_entity" "Entity");
           addEntity (test_entity "key_a" "undeclared_entity" "Entity")] |}].

Definition undeclared_then_duplicate_result : ExecuteIntegrationResult :=
  {| integrationStepResults :=
       [{| result_id := "a"; result_name := "a";
           declaredTypes := ["declared_entity"]; partialTypes := [];
           encounteredTypes := ["undeclared_entity"];
           result_dependsOn := None; status := FAILURE |}];
     partialDatasets_types := ["declared_entity"] |}.

(** "compresses files when INTEGRATION_FILE_COMPRESSION_ENABLED is set":
    the entities of the handler, and the relationship
    [createDirectRelationship] returns for them. *)
Definition test_from_entity : Entity := test_entity "test" "test" "Test".
Definition test_to_entity : Entity := test_entity "test1" "test" "Test".

Definition test_relationship : Relationship :=
  match
    Relationships.createDirectRelationship (fun c => String.eqb c "HAS")
      {| Relationships.opt_class := "HAS";
         Relationships.from := test_from_entity;
         Relationships.to := test_to_entity;
         Relationships.opt_properties := None |}
  with
  | Relationships.Return r => r
  | Relationships.ThrowIntegrationError _ => []
  end.

Definition test_compression : IntegrationInvocationConfig :=
  test_config None
    [test_step "my-step" [declared "test"] [] None
       [addEntity test_from_entity; addEntity test_to_entity;
        addRelationship test_relationship]].

Definition test_compression_env : Env :=
  {| INTEGRATION_FILE_COMPRESSION_ENABLED := Some "1" |}.

(** What that test expects of the files under [graph/], read in the order
    of their paths. *)
Definition test_compression_expected : list json :=
  [JObj [("entities",
          JArr [JObj [("_key", JStr "test"); ("_type", JStr "test");
                      ("_class", JStr "Test")];
                JObj [("_key", JStr "test1"); ("_type", JStr "test");
                      ("_class", JStr "Test")]] [])];
   JObj [("relationships",
          JArr [JObj [("_key", JStr "test|has|test1");
                      ("_type", JStr "test_has_");
                      ("_class", JStr "HAS");
                      ("_fromEntityKey", JStr "test");
                      ("_toEntityKey", JStr "test1");
                      ("displayName", JStr "HAS")]] [])]].

End Execution.

(** * Properties *)

(** ** Relationship construction *)

Section RelationshipProperties.

Import Relationships.

Lemma split_no_separator sep s :
  occurs sep s = false -> split sep s = [s].
Proof.
  induction s as [|c s IH]; simpl; [done|].
  intros [Hc Hs]%orb_false_iff. rewrite Hc, (IH Hs). done.
Qed.

(** The fuel given to the loop of [generateRelationshipType] never runs
    out: any two positive amounts that cover the rest of [toValueParts] give
    the same counter. *)
Lemma skip_common_fuel fs ts f1 f2 i :
  0 < f1 -> 0 < f2 ->
  length ts - i <= f1 -> length ts - i <= f2 ->
  skip_common f1 fs ts i = skip_common f2 fs ts i.
Proof.
  revert f2 i. induction f1 as [|f1 IH]; intros f2 i H1 H2 Hf1 Hf2; [lia|].
  destruct f2 as [|f2]; [lia|]. simpl.
  destruct (decide (ts !! i = fs !! i)); [|done].
  destruct (Nat.ltb_spec (S i) (length ts - 1)); [|done].
  apply IH; lia.
Qed.

Lemma lookup_set_prop_ne k k' v o :
  k <> k' -> lookup_prop k (set_prop k' v o) = lookup_prop k o.
Proof.
  intros Hne. induction o as [|[k0 v0] o IH]; simpl.
  - destruct (String.eqb_spec k k'); [done|done].
  - destruct (String.eqb_spec k' k0) as [->|Hk0]; simpl.
    + destruct (String.eqb_spec k k0); [done|done].
    + destruct (String.eqb_spec k k0); [done|apply IH].
Qed.

Lemma lookup_set_prop_eq k v o :
  lookup_prop k (set_prop k v o) = Some v.
Proof.
  induction o as [|[k0 v0] o IH]; simpl.
  - by rewrite String.eqb_refl.
  - destruct (String.eqb_spec k k0) as [->|Hk0]; simpl.
    + by rewrite String.eqb_refl.
    + destruct (String.eqb_spec k k0); [done|apply IH].
Qed.

(** A property the spread object does not define keeps its value. *)
Lemma lookup_spread_absent k o extra :
  lookup_prop k extra = None ->
  lookup_prop k (spread o extra) = lookup_prop k o.
Proof.
  unfold spread. revert o.
  induction extra as [|[k' v'] extra IH]; intros o Hk; simpl in *; [done|].
  destruct (String.eqb_spec k k') as [->|Hne]; [done|].
  rewrite IH by done. by apply lookup_set_prop_ne.
Qed.

Lemma string_field_spread_opt k o properties :
  defines k properties = false ->
  string_field k (spread_opt o properties) = string_field k o.
Proof.
  destruct properties as [p|]; simpl; [|done].
  intros Hd. unfold string_field. rewrite lookup_spread_absent; [done|].
  apply bool_decide_eq_false in Hd. by destruct (lookup_prop k p); [destruct Hd|].
Qed.

Lemma generateRelationshipType_same _class t :
  t <> "" -> occurs underscore t = false ->
  generateRelationshipType _class (ByString t) (ByString t)
  = Return (t +:+ "_" +:+ toLowerCase _class +:+ "_").
Proof.
  intros Ht Hu. unfold generateRelationshipType. simpl.
  destruct (String.eqb_spec t "") as [|_]; [done|]. simpl.
  rewrite (split_no_separator _ _ Hu). simpl.
  rewrite decide_True by done. reflexivity.
Qed.

End RelationshipProperties.

(** C10. For [createDirectRelationship] between two entities whose [_type]
    values are equal, non-empty and free of underscores, with a class the
    data model accepts and no [_key] or [_type] among the additional
    properties, the relationship [_type] has an empty target segment and a
    trailing underscore, [fromType_class_] with the class in lower case,
    and the relationship [_key] is [fromKey|class|toKey]. *)
Theorem createDirectRelationship_same_type
    (RelationshipClass : string -> bool) (_class : string)
    (from to : Entity) (properties : option obj) :
  RelationshipClass (Relationships.toUpperCase _class) = true ->
  _type from = _type to ->
  _type from <> "" ->
  occurs Relationships.underscore (_type from) = false ->
  Relationships.defines "_key" properties = false ->
  Relationships.defines "_type" properties = false ->
  exists r,
    Relationships.createDirectRelationship RelationshipClass
      {| Relationships.opt_class := _class;
         Relationships.from := from;
         Relationships.to := to;
         Relationships.opt_properties := properties |}
    = Relationships.Return r
    /\ _type r = _type from +:+ "_" +:+ Relationships.toLowerCase _class +:+ "_"
    /\ _key r = _key from +:+ "|" +:+ Relationships.toLowerCase _class +:+ "|"
                +:+ _key to.
Proof.
  intros Hvalid Heq Hne Hu Hk Ht.
  unfold Relationships.createDirectRelationship,
    Relationships.isValidDataModelClass. simpl.
  rewrite Hvalid. simpl.
  unfold Relationships.createRelationship. simpl.
  rewrite <- Heq.
  rewrite generateRelationshipType_same by done. simpl.
  eexists. split; [reflexivity|].
  split; [unfold _type|unfold _key];
    rewrite string_field_spread_opt by done; reflexivity.
Qed.

Lemma createDirectRelationship_same_type_witness :
  exists r,
    Relationships.createDirectRelationship (fun c => String.eqb c "HAS")
      {| Relationships.opt_class := "HAS";
         Relationships.from :=
           [("_key", JStr "test"); ("_type", JStr "test");
            ("_class", JStr "Test")];
         Relationships.to :=
           [("_key", JStr "test1"); ("_type", JStr "test");
            ("_class", JStr "Test")];
         Relationships.opt_properties := None |}
    = Relationships.Return r
    /\ _type r = "test_has_"
    /\ _key r = "test|has|test1".
Proof.
  apply (createDirectRelationship_same_type (fun c => String.eqb c "HAS")
           "HAS"
           [("_key", JStr "test"); ("_type", JStr "test");
            ("_class", JStr "Test")]
           [("_key", JStr "test1"); ("_type", JStr "test");
            ("_class", JStr "Test")]
           None); [reflexivity|reflexivity|discriminate|reflexivity..].
Defined.

(** The relationships the tests of [executeIntegrationInstance] expect:
    between two entities of type [test], and between entities of the types
    [test] and [test1]. *)
Example createDirectRelationship_test_has_ :
  Relationships.createDirectRelationship (fun c => String.eqb c "HAS")
    {| Relationships.opt_class := "HAS";
       Relationships.from :=
         [("_key", JStr "test"); ("_type", JStr "test");
          ("_class", JStr "Test")];
       Relationships.to :=
         [("_key", JStr "test1"); ("_type", JStr "test");
          ("_class", JStr "Test")];
       Relationships.opt_properties := None |}
  = Relationships.Return
      [("_key", JStr "test|has|test1"); ("_type", JStr "test_has_");
       ("_class", JStr "HAS"); ("_fromEntityKey", JStr "test");
       ("_toEntityKey", JStr "test1"); ("displayName", JStr "HAS")].
Proof. reflexivity. Qed.

Example createDirectRelationship_test_has_test1 :
  Relationships.createDirectRelationship (fun c => String.eqb c "HAS")
    {| Relationships.opt_class := "HAS";
       Relationships.from :=
         [("_key", JStr "test"); ("_type", JStr "test");
          ("_class", JStr "Test")];
       Relationships.to :=
         [("_key", JStr "test1"); ("_type", JStr "test1");
          ("_class", JStr "Test1")];
       Relationships.opt_properties := None |}
  = Relationships.Return
      [("_key", JStr "test|has|test1"); ("_type", JStr "test_has_test1");
       ("_class", JStr "HAS"); ("_fromEntityKey", JStr "test");
       ("_toEntityKey", JStr "test1"); ("displayName", JStr "HAS")].
Proof. reflexivity. Qed.

(** ** Batches *)

Section ChunkProperties.

Import Upload.

Context {A : Type}.
Implicit Types (array : list A) (size fuel : nat).

Lemma chunk_slices_concat fuel size array :
  length array <= fuel -> 0 < size ->
  concat (chunk_slices fuel size array) = array.
Proof.
  revert array. induction fuel as [|fuel IH]; intros array Hlen Hsize.
  - destruct array; [done|simpl in Hlen; lia].
  - destruct array as [|x array]; [done|].
    cbn [chunk_slices concat]. rewrite IH; [apply take_drop| |done].
    rewrite length_drop. simpl in *. lia.
Qed.

(** The chunk of index [i] is [array.slice(i * size, (i + 1) * size)], and
    there are as many chunks as it takes to cover the array. *)
Lemma chunk_slices_lookup fuel size array i :
  length array <= fuel -> 0 < size ->
  chunk_slices fuel size array !! i
  = if decide (i * size < length array)
    then Some (take size (drop (i * size) array)) else None.
Proof.
  revert array i. induction fuel as [|fuel IH]; intros array i Hlen Hsize.
  - destruct array; [|simpl in Hlen; lia].
    destruct (decide (i * size < length (@nil A))) as [H|H];
      [simpl in H; lia|done].
  - destruct array as [|x array].
    { destruct (decide (i * size < length (@nil A))) as [H|H];
        [simpl in H; lia|done]. }
    cbn [chunk_slices]. destruct i as [|i].
    { destruct (decide (0 * size < length (x :: array))) as [H|H];
        [done|simpl in H; lia]. }
    cbn [lookup list_lookup]. rewrite IH; [| |done].
    2:{ rewrite length_drop. simpl in *. lia. }
    rewrite length_drop, drop_drop.
    replace (size + i * size) with (S i * size) by lia.
    destruct (decide (i * size < length (x :: array) - size)),
      (decide (S i * size < length (x :: array))); try done; lia.
Qed.

Lemma chunk_slices_nonempty fuel size array c :
  0 < size -> c ∈ chunk_slices fuel size array -> 0 < length c <= size.
Proof.
  intros Hsize. revert array. induction fuel as [|fuel IH]; intros array.
  - simpl. by intros ?%elem_of_nil.
  - destruct array as [|x array]; [by intros ?%elem_of_nil|].
    cbn [chunk_slices]. intros [->|Hc]%elem_of_cons; [|by eapply IH].
    rewrite length_take. simpl. lia.
Qed.

End ChunkProperties.

Section UploadDataProperties.

Import Upload.

Lemma chunk_nonempty {A} (array : list A) (size : Z) c :
  c ∈ chunk array size -> 0 < length c /\ (Z.of_nat (length c) <= size)%Z.
Proof.
  unfold chunk. destruct (Z.ltb_spec size 1); [by intros ?%elem_of_nil|].
  intros Hc%chunk_slices_nonempty; lia.
Qed.

(** Every chunk has elements, so the guard [if (batch.length)] of the
    mapper lets every batch through. *)
Lemma uploadData_chunks jobId type data uploadBatchSize :
  uploadData jobId type data uploadBatchSize
  = (fun batch => {| call_jobId := jobId; call_type := type;
                     call_batch := batch |})
      <$> chunk data (batch_size uploadBatchSize).
Proof.
  unfold uploadData. f_equal.
  assert (Hall : Forall (fun c : list json => length c <> 0)
                   (chunk data (batch_size uploadBatchSize))).
  { apply Forall_forall. intros c Hc%chunk_nonempty. lia. }
  induction Hall as [|c l Hc _ IH]; [done|].
  by rewrite filter_cons_True, IH.
Qed.

(** The first calls [pMap] starts are those for the first [concurrency]
    inputs. *)
Lemma iter_next {A} n (w p f : list A) :
  Nat.iter n next
    {| waiting := w; pending := p; finished := f; isRejected := false |}
  = {| waiting := drop n w; pending := p ++ take n w; finished := f;
       isRejected := false |}.
Proof.
  induction n as [|n IH]; [by rewrite drop_0, take_0, app_nil_r|].
  rewrite Nat.iter_succ, IH. unfold next.
  cbn [isRejected waiting pending finished].
  destruct (w !! n) as [x|] eqn:Hx.
  - rewrite (drop_S _ _ _ Hx), (take_S_r _ _ _ Hx).
    by rewrite <- (assoc_L (++)).
  - apply lookup_ge_None in Hx.
    by rewrite (drop_ge w n), (drop_ge w (S n)), (take_ge w n),
      (take_ge w (S n)) by lia.
Qed.

Lemma pmap_init_eq {A} concurrency (inputs : list A) :
  pmap_init concurrency inputs
  = {| waiting := drop concurrency inputs;
       pending := take concurrency inputs; finished := [];
       isRejected := false |}.
Proof. unfold pmap_init. by rewrite iter_next. Qed.

(** What the scheduler of [p-map] keeps: never more than [concurrency]
    calls are pending; and while no call has rejected, as many calls are
    pending as the concurrency and the inputs left allow, and no input is
    lost or repeated. *)
Definition pmap_invariant {A} (concurrency : nat) (inputs : list A)
    (st : PMap A) : Prop :=
  length (pending st) <= concurrency
  /\ (isRejected st = false ->
      length (pending st)
      = Nat.min concurrency (length (pending st) + length (waiting st))
      /\ finished st ++ pending st ++ waiting st ≡ₚ inputs).

Lemma pmap_invariant_init {A} concurrency (inputs : list A) :
  pmap_invariant concurrency inputs (pmap_init concurrency inputs).
Proof.
  rewrite pmap_init_eq. unfold pmap_invariant.
  cbn [pending waiting finished isRejected].
  rewrite length_take, length_drop. split; [lia|]. intros _.
  split; [lia|]. by rewrite app_nil_l, take_drop.
Qed.

Lemma pmap_invariant_step {A} concurrency (inputs : list A) st st' :
  pmap_invariant concurrency inputs st -> pmap_step st st' ->
  pmap_invariant concurrency inputs st'.
Proof.
  intros [Hbound Hrun] (k & fulfils & Hstep). unfold pmap_settle in Hstep.
  destruct (pending st !! k) as [x|] eqn:Hx; [|done].
  cbn [mbind option_bind] in Hstep. injection Hstep as <-.
  pose proof (lookup_lt_Some _ _ _ Hx) as Hk.
  assert (Hdel : length (delete k (pending st)) = length (pending st) - 1)
    by (apply length_delete; by eexists).
  destruct fulfils; [|split; [simpl; lia|done]].
  unfold next. cbn [isRejected waiting pending finished].
  destruct (isRejected st) eqn:Hrej; [split; [simpl; lia|done]|].
  destruct (Hrun eq_refl) as [Hfull Hperm].
  pose proof (delete_Permutation _ _ _ Hx) as Hp.
  destruct (waiting st) as [|y w] eqn:Hw.
  - split; [simpl; lia|]. intros _. cbn [pending waiting finished].
    split; [simpl in *; lia|].
    rewrite <- Hperm, <- (assoc_L (++)). apply Permutation_app_head.
    rewrite !app_nil_r. symmetry. exact Hp.
  - split; [simpl; rewrite length_app; simpl in *; lia|]. intros _.
    cbn [pending waiting finished].
    split; [rewrite length_app; simpl in *; lia|].
    rewrite <- Hperm, <- !(assoc_L (++)). apply Permutation_app_head.
    transitivity ((x :: delete k (pending st)) ++ y :: w); [done|].
    apply Permutation_app_tail. symmetry. exact Hp.
Qed.

Lemma pmap_invariant_reachable {A} concurrency (inputs : list A) st :
  pmap_reachable concurrency inputs st ->
  pmap_invariant concurrency inputs st.
Proof.
  unfold pmap_reachable. revert st.
  apply rtc_ind_r; [apply pmap_invariant_init|].
  intros mid st _ Hstep IH. by eapply pmap_invariant_step.
Qed.

(** While no call has rejected and a call is pending, the run can go on:
    [pMap] never stops short of its inputs. *)
Lemma pmap_fulfilled_finished {A} concurrency (inputs : list A) st :
  0 < concurrency ->
  pmap_reachable concurrency inputs st ->
  isRejected st = false -> length (pending st) = 0 ->
  pmap_fulfilled st = true /\ finished st ≡ₚ inputs.
Proof.
  intros Hc Hst Hrej Hp.
  destruct (pmap_invariant_reachable _ _ _ Hst) as [_ Hrun].
  destruct (Hrun Hrej) as [Hfull Hperm].
  assert (Hw : length (waiting st) = 0) by lia.
  unfold pmap_fulfilled. rewrite Hrej.
  rewrite !bool_decide_eq_true_2 by done. split; [done|].
  destruct (pending st); [|done]. destruct (waiting st); [|done].
  by rewrite !app_nil_r in Hperm.
Qed.

Lemma mapper_calls_uploadData jobId type data uploadBatchSize :
  mapper_calls jobId type (chunk data (batch_size uploadBatchSize))
  = uploadData jobId type data uploadBatchSize.
Proof. reflexivity. Qed.

Lemma mapper_calls_Permutation jobId type l1 l2 :
  l1 ≡ₚ l2 -> mapper_calls jobId type l1 ≡ₚ mapper_calls jobId type l2.
Proof. intros H. unfold mapper_calls. by rewrite H. Qed.

Lemma mapper_calls_length jobId type l :
  length (mapper_calls jobId type l) <= length l.
Proof. unfold mapper_calls. rewrite length_fmap. apply length_filter. Qed.

End UploadDataProperties.

(** The [pMap] call of [uploadData] for 1501 items: six batches of 250
    items are handed to the mapper at once, and the seventh batch, of one
    item, waits. *)
Example uploadData_start_1501 :
  Upload.uploadData_start (replicate 1501 JNull) None
  = {| Upload.waiting := [[JNull]];
       Upload.pending := replicate 6 (replicate 250 JNull);
       Upload.finished := [];
       Upload.isRejected := false |}.
Proof. vm_compute. reflexivity. Qed.

(** C5. [uploadData], called without a batch size, cuts the array into the
    consecutive slices of 250 items (the last one may be shorter, none is
    empty); each slice is uploaded by one call of [uploadDataChunk], whose
    [POST] goes to [/persister/synchronization/jobs/<jobId>/entities] with
    the body [{entities: batch}], or to [.../relationships] with the body
    [{relationships: batch}]; in every state of the [pMap] call that runs
    the uploads at most 6 of them are in flight, and while none has
    rejected exactly 6 are as long as 6 batches or more are left, no batch
    is lost or repeated, and [pMap] fulfils only when every batch has been
    uploaded; and [uploadGraphObjectData] uploads nothing for an empty or
    absent array. *)
Theorem uploadData_batches (jobId : string) (type : Upload.UploadType)
    (data : list json) :
  let calls := Upload.uploadData jobId type data None in
  concat (Upload.call_batch <$> calls) = data
  /\ (forall i,
        calls !! i
        = if decide (i * 250 < length data)
          then Some {| Upload.call_jobId := jobId;
                       Upload.call_type := type;
                       Upload.call_batch := take 250 (drop (i * 250) data) |}
          else None)
  /\ (forall c, c ∈ calls ->
        0 < length (Upload.call_batch c) <= 250
        /\ Upload.call_request c
           = match type with
             | Upload.entities =>
                 {| Upload.url := "/persister/synchronization/jobs/" +:+
                                  jobId +:+ "/entities";
                    Upload.body :=
                      JObj [("entities", JArr (Upload.call_batch c) [])] |}
             | Upload.relationships =>
                 {| Upload.url := "/persister/synchronization/jobs/" +:+
                                  jobId +:+ "/relationships";
                    Upload.body :=
                      JObj [("relationships",
                             JArr (Upload.call_batch c) [])] |}
             end
        /\ forall post shrinkFuel,
             exists rest,
               (Upload.uploadDataChunk post shrinkFuel (Upload.call_jobId c)
                  (Upload.call_type c) (JArr (Upload.call_batch c) [])).1
               = Upload.Post (Upload.call_request c) :: rest)
  /\ (forall st,
        Upload.uploadData_reachable data None st ->
        let in_flight := Upload.mapper_calls jobId type (Upload.pending st) in
        length in_flight <= 6
        /\ (Upload.isRejected st = false ->
            length in_flight
            = Nat.min 6 (length (Upload.pending st)
                         + length (Upload.waiting st))
            /\ Upload.mapper_calls jobId type
                 (Upload.finished st ++ Upload.pending st
                  ++ Upload.waiting st) ≡ₚ calls
            /\ (Upload.pmap_fulfilled st = true <->
                length (Upload.pending st) = 0)
            /\ (Upload.pmap_fulfilled st = true ->
                Upload.mapper_calls jobId type (Upload.finished st)
                ≡ₚ calls)))
  /\ Upload.uploadData jobId type [] None = []
  /\ (forall es rs,
        Upload.uploadGraphObjectData jobId
          {| Upload.fg_entities := es; Upload.fg_relationships := rs |} None
        = Upload.uploadData jobId Upload.entities (default [] es) None
          ++ Upload.uploadData jobId Upload.relationships (default [] rs)
               None).
Proof.
  intros calls.
  assert (Hchunks : calls
                    = (fun batch => {| Upload.call_jobId := jobId;
                                       Upload.call_type := type;
                                       Upload.call_batch := batch |})
                        <$> Upload.chunk_slices (length data) 250 data).
  { subst calls. by rewrite uploadData_chunks. }
  split; [|split; [|split; [|split; [|split]]]].
  - rewrite Hchunks, <- list_fmap_compose.
    etrans; [|apply (chunk_slices_concat (length data) 250 data); lia].
    f_equal. exact (list_fmap_id _).
  - intros i. rewrite Hchunks, list_lookup_fmap, chunk_slices_lookup by lia.
    by case_decide.
  - intros c Hc. rewrite Hchunks in Hc.
    apply list_elem_of_fmap in Hc as (b & -> & Hb).
    apply chunk_slices_nonempty in Hb; [|lia].
    split; [simpl; lia|]. split; [by destruct type|].
    intros post shrinkFuel.
    unfold Upload.uploadDataChunk, Upload.maxAttempts.
    cbn [Upload.makeAttempt]. unfold Upload.call_request.
    destruct (post 0 _); [|by eexists].
    destruct (Upload.handleUploadDataChunkError _ _ _ _); [|by eexists..].
    simpl. by eexists.
  - intros st Hst in_flight.
    assert (Hmapped : forall batches,
              Forall (fun b : list json => length b <> 0) batches ->
              length (Upload.mapper_calls jobId type batches)
              = length batches).
    { intros batches Hall. unfold Upload.mapper_calls.
      rewrite length_fmap. f_equal.
      induction Hall as [|b l Hb _ IH]; [done|].
      by rewrite filter_cons_True, IH. }
    pose proof (pmap_invariant_reachable Upload.UPLOAD_CONCURRENCY _ _ Hst)
      as [Hbound Hrun].
    change Upload.UPLOAD_CONCURRENCY with 6 in Hbound, Hrun.
    split.
    { subst in_flight.
      pose proof (mapper_calls_length jobId type (Upload.pending st)). lia. }
    intros Hrej. destruct (Hrun Hrej) as [Hfull Hperm].
    assert (Hall : Forall (fun b : list json => length b <> 0)
                     (Upload.finished st ++ Upload.pending st
                      ++ Upload.waiting st)).
    { rewrite Hperm. apply Forall_forall.
      intros b Hb%chunk_nonempty. lia. }
    apply Forall_app in Hall as [_ Hall].
    apply Forall_app in Hall as [Hpending _].
    split; [subst in_flight; by rewrite (Hmapped _ Hpending)|].
    split; [by apply mapper_calls_Permutation|].
    assert (Hiff : Upload.pmap_fulfilled st = true
                   <-> length (Upload.pending st) = 0).
    { split.
      - unfold Upload.pmap_fulfilled.
        intros [[_ Hp%bool_decide_eq_true]%andb_true_iff _]%andb_true_iff.
        done.
      - intros Hp.
        by apply (pmap_fulfilled_finished 6 _ st ltac:(lia) Hst Hrej). }
    split; [done|]. intros Hp%Hiff.
    apply mapper_calls_Permutation.
    by apply (pmap_fulfilled_finished 6 _ st ltac:(lia) Hst Hrej).
  - reflexivity.
  - intros [[|e es]|] [[|r rs]|]; reflexivity.
Qed.

(** ** Retrying a batch *)

Section RetryProperties.

Import Upload.

Variable post : nat -> Request -> option UploadError.
Variable shrinkFuel : nat.
Variable jobId : string.
Variable type : UploadType.

Lemma posts_logs (log : list LogEntry) (evs : list Event) :
  posts ((Log <$> log) ++ evs) = posts evs.
Proof. unfold posts. induction log; simpl; [done|]. apply IHlog. Qed.

Lemma sleeps_logs (log : list LogEntry) (evs : list Event) :
  sleeps ((Log <$> log) ++ evs) = sleeps evs.
Proof. unfold sleeps. induction log; simpl; [done|]. apply IHlog. Qed.

Lemma posts_logs_nil (log : list LogEntry) : posts (Log <$> log) = [].
Proof. rewrite <- (app_nil_r (Log <$> log)). apply posts_logs. Qed.

Lemma sleeps_logs_nil (log : list LogEntry) : sleeps (Log <$> log) = [].
Proof. rewrite <- (app_nil_r (Log <$> log)). apply sleeps_logs. Qed.

Lemma posts_post r evs : posts (Post r :: evs) = r :: posts evs.
Proof. reflexivity. Qed.

Lemma posts_sleep ms evs : posts (Sleep ms :: evs) = posts evs.
Proof. reflexivity. Qed.

Lemma sleeps_post r evs : sleeps (Post r :: evs) = sleeps evs.
Proof. reflexivity. Qed.

Lemma sleeps_sleep ms evs : sleeps (Sleep ms :: evs) = ms :: sleeps evs.
Proof. reflexivity. Qed.

(** An attempt entered with [remaining] attempts left posts at most
    [remaining] times, and pauses [calculateDelay] of the next attempt
    number before each further attempt. *)
Lemma makeAttempt_bounds remaining num batch :
  let r := makeAttempt post shrinkFuel jobId type remaining num batch in
  length (posts r.1) <= remaining
  /\ sleeps r.1 `prefix_of` (calculateDelay <$> seq (S num) (remaining - 1))
  /\ length (posts r.1) <= S (length (sleeps r.1)).
Proof.
  revert num batch. induction remaining as [|remaining IH]; intros num batch.
  { simpl. split; [lia|]. split; [done|lia]. }
  cbn [makeAttempt].
  destruct (post num _) as [err|];
    [|simpl; split; [lia|split; [apply prefix_nil|lia]]].
  destruct (handleUploadDataChunkError _ _ _ _) as [batch' log|t log|].
  - destruct (Nat.eqb_spec remaining 0) as [->|Hne]; cbn [fst snd].
    + rewrite posts_post, sleeps_post, posts_logs_nil, sleeps_logs_nil.
      simpl. split; [lia|]. split; [done|lia].
    + specialize (IH (S num) batch'). cbv zeta in IH.
      destruct IH as (IH1 & IH2 & IH3).
      rewrite posts_post, sleeps_post, posts_logs, sleeps_logs.
      rewrite posts_sleep, sleeps_sleep.
      simpl length. split; [lia|]. split; [|lia].
      replace (S remaining - 1) with (S (remaining - 1)) by lia.
      cbn [seq fmap list_fmap]. by apply prefix_cons.
  - cbn [fst snd].
    rewrite posts_post, sleeps_post, posts_logs_nil, sleeps_logs_nil.
    simpl. split; [lia|]. split; [apply prefix_nil|lia].
  - simpl. split; [lia|]. split; [apply prefix_nil|lia].
Qed.

End RetryProperties.

(** C6, as the code has it. When a [POST] of [uploadDataChunk] is answered
    with an error that is not a request-too-large error (neither the code
    [RequestEntityTooLargeException] nor the status 413) and whose body
    carries the application error code [JOB_NOT_AWAITING_UPLOADS], no
    further attempt is made and the upload fails with the fatal
    [IntegrationError] of code [INTEGRATION_UPLOAD_AFTER_JOB_ENDED]. An
    error that is neither is followed, while attempts remain, by the pause
    and the next attempt on the same batch. In every case at most 5
    [POST]s are made, and the pauses between them are 200, 210, 221 and
    232 ms, in this order. *)
Theorem uploadDataChunk_job_ended
    (post : nat -> Upload.Request -> option Upload.UploadError)
    (shrinkFuel : nat) (jobId : string) (type : Upload.UploadType)
    (remaining num : nat) (batch : json) (err : Upload.UploadError) :
  post num (Upload.chunk_request jobId type batch) = Some err ->
  Upload.isRequestUploadTooLargeError err = false ->
  Upload.sys_code <$> Upload.getSystemErrorResponseData err
    = Some "JOB_NOT_AWAITING_UPLOADS" ->
  Upload.makeAttempt post shrinkFuel jobId type (S remaining) num batch
  = ([Upload.Post (Upload.chunk_request jobId type batch)],
     Upload.Rejected (Upload.upload_after_job_ended err))
  /\ (forall num' batch' remaining' err',
        post num' (Upload.chunk_request jobId type batch') = Some err' ->
        Upload.isRequestUploadTooLargeError err' = false ->
        Upload.sys_code <$> Upload.getSystemErrorResponseData err'
          <> Some "JOB_NOT_AWAITING_UPLOADS" ->
        let next :=
          Upload.makeAttempt post shrinkFuel jobId type (S remaining')
            (S num') batch' in
        Upload.makeAttempt post shrinkFuel jobId type (S (S remaining')) num'
          batch'
        = (Upload.Post (Upload.chunk_request jobId type batch')
             :: (Upload.Log <$>
                   Upload.warn_log err'
                     {| Upload.attemptNum := num';
                        Upload.attemptsRemaining := S remaining' |})
             ++ Upload.Sleep (Upload.calculateDelay (S num')) :: next.1,
           next.2))
  /\ (forall batch0,
        let r := Upload.uploadDataChunk post shrinkFuel jobId type batch0 in
        length (Upload.posts r.1) <= 5
        /\ Upload.sleeps r.1 `prefix_of` [200; 210; 221; 232]%Z).
Proof.
  intros Hpost Hlarge Hcode. split; [|split].
  - cbn [Upload.makeAttempt]. rewrite Hpost.
    unfold Upload.handleUploadDataChunkError. rewrite Hlarge.
    rewrite bool_decide_eq_true_2 by done. reflexivity.
  - intros num' batch' remaining' err' Hpost' Hlarge' Hcode' next.
    cbn [Upload.makeAttempt]. rewrite Hpost'.
    unfold Upload.handleUploadDataChunkError. rewrite Hlarge'.
    rewrite bool_decide_eq_false_2 by done. reflexivity.
  - intros batch0 r.
    pose proof (makeAttempt_bounds post shrinkFuel jobId type
                  Upload.maxAttempts 0 batch0) as (H1 & H2 & _).
    split; [exact H1|exact H2].
Qed.

Lemma uploadDataChunk_job_ended_witness :
  Upload.makeAttempt (fun _ _ => Some Upload.job_ended) 0 "job"
    Upload.entities 5 0 (JArr [] [])
  = ([Upload.Post (Upload.chunk_request "job" Upload.entities (JArr [] []))],
     Upload.Rejected (Upload.upload_after_job_ended Upload.job_ended)).
Proof.
  apply (uploadDataChunk_job_ended (fun _ _ => Some Upload.job_ended) 0 "job"
           Upload.entities 4 0 (JArr [] []) Upload.job_ended);
    reflexivity.
Defined.

(** C6, refuted as stated: the service answers every [POST] with the status
    413 and a body carrying [JOB_NOT_AWAITING_UPLOADS]; the batch (empty
    here) is within the size limit, so shrinking leaves it as it is. All 5
    attempts are made and the upload fails with the error of the service,
    not with the fatal [IntegrationError]. *)
Lemma uploadDataChunk_job_ended_too_large_retries :
  Upload.sys_code <$>
    Upload.getSystemErrorResponseData Upload.job_ended_too_large
  = Some "JOB_NOT_AWAITING_UPLOADS"
  /\ (Upload.uploadDataChunk (fun _ _ => Some Upload.job_ended_too_large) 0
        "job" Upload.entities (JArr [] [])).2
     = Upload.Rejected (Upload.ThrownUploadError Upload.job_ended_too_large)
  /\ length
       (Upload.posts
          (Upload.uploadDataChunk
             (fun _ _ => Some Upload.job_ended_too_large) 0
             "job" Upload.entities (JArr [] [])).1) = 5.
Proof. repeat split; vm_compute; reflexivity. Qed.

(** ** Raw-data shrinking *)

Section ShrinkProperties.

Import Shrink.

Lemma largest_fold_TypeError (keys : list string)
    (measure : string -> result nat) :
  fold_left (largest_round measure) keys TypeError = TypeError.
Proof. induction keys as [|k keys IH]; simpl; [done|apply IH]. Qed.

Lemma largest_round_Ok (measure : string -> result nat) k0 n0 k :
  largest_round measure (Ok (k0, n0)) k
  = match measure k with
    | Ok m => Ok (if Nat.ltb n0 m then (k, m) else (k0, n0))
    | TypeError => TypeError
    end.
Proof. unfold largest_round. simpl. by destruct (measure k). Qed.

(** The search loop started from the key [k0] with the size [n0]. *)
Lemma largest_fold_spec (keys : list string)
    (measure : string -> result nat) k0 n0 k n :
  fold_left (largest_round measure) keys (Ok (k0, n0)) = Ok (k, n) ->
  (k = k0 /\ n = n0 /\
   forall k', k' ∈ keys -> exists m, measure k' = Ok m /\ m <= n0)
  \/ (n0 < n /\ exists before after,
        keys = before ++ k :: after /\ measure k = Ok n
        /\ (forall k', k' ∈ before -> exists m, measure k' = Ok m /\ m < n)
        /\ (forall k', k' ∈ after -> exists m, measure k' = Ok m /\ m <= n)).
Proof.
  revert k0 n0. induction keys as [|k1 keys IH]; intros k0 n0;
    cbn [fold_left].
  { intros [= -> ->]. left. repeat split. by intros k' ?%elem_of_nil. }
  rewrite largest_round_Ok.
  destruct (measure k1) as [m|] eqn:Hm;
    [|by rewrite largest_fold_TypeError].
  destruct (Nat.ltb_spec n0 m) as [Hlt|Hge]; intros Hfold.
  - apply IH in Hfold
      as [(-> & -> & Hall)|(Hlt' & before & after & -> & Hk & Hb & Ha)].
    + right. split; [done|]. exists [], keys. repeat split; try done.
      by intros k' ?%elem_of_nil.
    + right. split; [lia|]. exists (k1 :: before), after.
      repeat split; try done.
      intros k' [->|Hin]%elem_of_cons;
        [exists m; split; [done|lia]|by apply Hb].
  - apply IH in Hfold
      as [(-> & -> & Hall)|(Hlt' & before & after & -> & Hk & Hb & Ha)].
    + left. repeat split.
      intros k' [->|Hin]%elem_of_cons;
        [exists m; split; [done|lia]|by apply Hall].
    + right. split; [lia|]. exists (k1 :: before), after.
      repeat split; try done.
      intros k' [->|Hin]%elem_of_cons;
        [exists m; split; [done|lia]|by apply Hb].
Qed.

Lemma largest_spec (keys : list string) (measure : string -> result nat)
    k n :
  largest keys measure = Ok (k, n) -> first_largest keys measure k n.
Proof.
  intros [(-> & -> & Hall)|(Hlt & Hex)]%largest_fold_spec.
  - left. repeat split. intros k' (m & Hm & Hle)%Hall.
    by replace m with 0 in Hm by lia.
  - by right.
Qed.

Lemma index_of_key_Some len k i :
  index_of_key len k = Some i -> i < len /\ k = pretty i.
Proof.
  unfold index_of_key. intros [Hin Heq]%find_some.
  apply in_seq in Hin. apply String.eqb_eq in Heq. split; [lia|done].
Qed.

Lemma get_put_eq v k x v' :
  put v k x = Ok v' -> get (Some v') k = Ok (Some x).
Proof.
  destruct v as [[| | | |l o|o]|]; simpl; try done.
  - destruct (index_of_key (length l) k) as [i|] eqn:Hi; intros [= <-]; simpl.
    + rewrite length_insert, Hi. f_equal.
      apply index_of_key_Some in Hi as [Hlt _].
      by apply list_lookup_insert_eq.
    + rewrite Hi. f_equal. apply lookup_set_prop_eq.
  - intros [= <-]. simpl. f_equal. apply lookup_set_prop_eq.
Qed.

Lemma get_put_ne v k x v' k' :
  k' <> k -> put v k x = Ok v' -> get (Some v') k' = get v k'.
Proof.
  intros Hne. destruct v as [[| | | |l o|o]|]; simpl; try done.
  - destruct (index_of_key (length l) k) as [i|] eqn:Hi; intros [= <-]; simpl.
    + rewrite length_insert.
      destruct (index_of_key (length l) k') as [j|] eqn:Hj; [|done].
      f_equal. apply list_lookup_insert_ne.
      apply index_of_key_Some in Hi as [_ ->].
      apply index_of_key_Some in Hj as [_ ->]. congruence.
    + destruct (index_of_key (length l) k') as [j|] eqn:Hj; [done|].
      f_equal. by apply lookup_set_prop_ne.
  - intros [= <-]. simpl. f_equal. by apply lookup_set_prop_ne.
Qed.

(** What can be assigned to can be read. *)
Lemma put_get_defined v k x v' :
  put v k x = Ok v' -> exists old, get v k = Ok old.
Proof.
  destruct v as [[| | | |l o|o]|]; simpl; try done; intros _.
  - destruct (index_of_key (length l) k); by eexists.
  - by eexists.
Qed.

(** The value assigned at the end of a path is read back there ... *)
Lemma get_path_put_path v path x v' :
  put_path v path x = Ok v' -> get_path (Some v') path = Ok (Some x).
Proof.
  revert v v'. induction path as [|k path IH]; intros v v';
    cbn [get_path put_path].
  { by intros [= ->]. }
  unfold mbind, result_bind, rbind.
  destruct (get v k) as [child|] eqn:Hget; [|done].
  destruct (put_path child path x) as [child'|] eqn:Hput; [|done].
  intros Hv'. rewrite (get_put_eq _ _ _ _ Hv'). by eapply IH.
Qed.

(** ... and what is read along a path that parts from it is unchanged. *)
Lemma get_path_put_path_diverge v path x v' q :
  put_path v path x = Ok v' -> diverge q path ->
  get_path (Some v') q = get_path v q.
Proof.
  intros Hput (common & k1 & k2 & q' & path' & -> & -> & Hne).
  revert v v' Hput. induction common as [|c common IH]; intros v v';
    cbn [get_path put_path app]; unfold mbind, result_bind, rbind.
  - destruct (get v k2) as [child|] eqn:Hget; [|done].
    destruct (put_path child path' x) as [child'|]; [|done].
    intros Hv'. by rewrite (get_put_ne _ _ _ _ _ Hne Hv').
  - destruct (get v c) as [child|] eqn:Hget; [|done].
    destruct (put_path child _ x) as [child'|] eqn:Hput; [|done].
    intros Hv'. rewrite (get_put_eq _ _ _ _ Hv'). by eapply IH.
Qed.

(** A round that completes made the selection of the three loops and
    assigned ['TRUNCATED'] at the end of the selected path. *)
Lemma shrinkIteration_Ok data data' size :
  shrinkIteration data = Ok (data', size) ->
  exists kE kR kI,
    selects data kE kR kI size
    /\ put_path (Some data) (selected_path kE kR kI) (JStr "TRUNCATED")
       = Ok data'.
Proof.
  unfold shrinkIteration, mbind, result_bind, rbind, mret, result_ret.
  destruct (largest (forin (Some data)) _) as [[kE nE]|] eqn:HE; [|done].
  cbn [fst snd].
  destruct (get (Some data) kE) as [entity|] eqn:Hentity; [|done].
  destruct (get entity "_rawData") as [rawArr|] eqn:HrawArr; [|done].
  destruct (largest (forin rawArr) _) as [[kR nR]|] eqn:HR; [|done].
  cbn [fst snd].
  destruct (get rawArr kR) as [entry|] eqn:Hentry; [|done].
  destruct (get entry "rawData") as [rawData|] eqn:HrawData; [|done].
  destruct (largest (forin rawData) _) as [[kI nI]|] eqn:HI; [|done].
  cbn [fst snd].
  destruct (put rawData kI _) as [rawData'|] eqn:P1; [|done].
  destruct (put entry "rawData" _) as [entry'|] eqn:P2; [|done].
  destruct (put rawArr kR _) as [rawArr'|] eqn:P3; [|done].
  destruct (put entity "_rawData" _) as [entity'|] eqn:P4; [|done].
  destruct (put (Some data) kE _) as [data''|] eqn:P5; [|done].
  intros [= -> ->]. exists kE, kR, kI. split.
  - exists nE, nR, entity, rawArr, entry, rawData.
    repeat split; try done; by apply largest_spec.
  - unfold selected_path. cbn [put_path].
    unfold mbind, result_bind, rbind.
    destruct (put_get_defined _ _ _ _ P1) as [old Hold].
    by rewrite Hentity, HrawArr, Hentry, HrawData, Hold, P1, P2, P3, P4.
Qed.

Lemma sizeOfTruncated_eq : sizeOfTruncated = 11%Z.
Proof. reflexivity. Qed.

Lemma step_Ok st st' :
  step st = Ok st' ->
  exists size,
    shrinkIteration (data st) = Ok (data st', size)
    /\ totalSize st' = (totalSize st - Z.of_nat size + 11)%Z
    /\ itemsRemoved st' = itemsRemoved st + 1.
Proof.
  unfold step, mbind, result_bind, rbind, mret, result_ret.
  destruct (shrinkIteration (data st)) as [[d n]|]; [|done].
  intros [= <-]. exists n. simpl. by rewrite sizeOfTruncated_eq.
Qed.

Lemma while_loop_done fuel maxSize st :
  (totalSize st <= maxSize)%Z ->
  while_loop fuel maxSize st = Some (Returned st).
Proof.
  intros Hle. destruct fuel; simpl;
    by destruct (Z.ltb_spec maxSize (totalSize st)); [lia|].
Qed.

Lemma while_loop_round fuel maxSize st st' :
  (maxSize < totalSize st)%Z -> step st = Ok st' ->
  while_loop (S fuel) maxSize st = while_loop fuel maxSize st'.
Proof.
  intros Hlt Hstep. simpl.
  destruct (Z.ltb_spec maxSize (totalSize st)); [|lia]. by rewrite Hstep.
Qed.

(** The loop leaves within [totalSize - maxSize] rounds when every round
    reduces the tracked size. *)
Lemma while_loop_terminates (P : state -> Prop) maxSize st :
  P st ->
  (forall s, P s -> (maxSize < totalSize s)%Z ->
     exists s', step s = Ok s' /\ (totalSize s' < totalSize s)%Z /\ P s') ->
  exists fuel final,
    while_loop fuel maxSize st = Some (Returned final)
    /\ (totalSize final <= maxSize)%Z /\ P final
    /\ (Z.of_nat fuel <= Z.max 0 (totalSize st - maxSize))%Z.
Proof.
  intros HP Hround.
  remember (Z.to_nat (totalSize st - maxSize)) as n eqn:Hn.
  revert st HP Hn. induction n as [n IH] using lt_wf_ind. intros st HP Hn.
  destruct (Z.ltb_spec maxSize (totalSize st)) as [Hlt|Hle].
  - destruct (Hround st HP Hlt) as (s' & Hstep & Hless & HP').
    destruct (IH (Z.to_nat (totalSize s' - maxSize)) ltac:(lia) s' HP' eq_refl)
      as (fuel & final & Hloop & Hfinal & HPf & Hfuel).
    exists (S fuel), final. rewrite (while_loop_round _ _ _ _ Hlt Hstep).
    repeat split; try done. lia.
  - exists 0, st. rewrite while_loop_done by done.
    repeat split; try done. lia.
Qed.

End ShrinkProperties.

(** C4, as the code has it. In a round of the loop of [shrinkRawData], run
    while the tracked size exceeds the maximum, the three searches select
    the first entity with the longest serialization, in it the first
    [_rawData] entry with the longest serialization, and in the [rawData]
    of that entry the first field with the largest measure, where a falsy
    value ([null], [false], [0], ['']) measures 0 and any other value the
    length of its serialization (the field [''] when no field measures
    above 0). A round that completes has set that field to ['TRUNCATED'],
    has changed nothing off the selected path, and goes on with the tracked
    size less the measure plus 11, the batch not being serialized again. *)
Theorem shrinkRawData_round (st : Shrink.state) (maxSize : Z) (fuel : nat)
    (data' : json) (size : nat) :
  (maxSize < Shrink.totalSize st)%Z ->
  Shrink.shrinkIteration (Shrink.data st) = Ok (data', size) ->
  exists kE kR kI,
    Shrink.selects (Shrink.data st) kE kR kI size
    /\ get_path (Some data') (Shrink.selected_path kE kR kI)
       = Ok (Some (JStr "TRUNCATED"))
    /\ (forall q, diverge q (Shrink.selected_path kE kR kI) ->
          get_path (Some data') q = get_path (Some (Shrink.data st)) q)
    /\ Shrink.while_loop (S fuel) maxSize st
       = Shrink.while_loop fuel maxSize
           {| Shrink.data := data';
              Shrink.totalSize :=
                Shrink.totalSize st - Z.of_nat size + 11;
              Shrink.itemsRemoved := Shrink.itemsRemoved st + 1 |}.
Proof.
  intros Hlt Hiter.
  destruct (shrinkIteration_Ok _ _ _ Hiter) as (kE & kR & kI & Hsel & Hput).
  exists kE, kR, kI. repeat split.
  - exact Hsel.
  - by eapply get_path_put_path.
  - intros q Hq. by eapply get_path_put_path_diverge.
  - apply while_loop_round; [done|].
    unfold Shrink.step. rewrite Hiter. reflexivity.
Qed.

Lemma shrinkRawData_round_witness :
  exists kE kR kI,
    Shrink.selects (JArr Shrink.payload_batch []) kE kR kI 22
    /\ get_path (Some (JArr Shrink.payload_batch_truncated []))
         (Shrink.selected_path kE kR kI)
       = Ok (Some (JStr "TRUNCATED"))
    /\ (forall q, diverge q (Shrink.selected_path kE kR kI) ->
          get_path (Some (JArr Shrink.payload_batch_truncated [])) q
          = get_path (Some (JArr Shrink.payload_batch [])) q)
    /\ Shrink.while_loop 1 95 (Shrink.initial Shrink.payload_batch)
       = Shrink.while_loop 0 95
           {| Shrink.data := JArr Shrink.payload_batch_truncated [];
              Shrink.totalSize := 106 - Z.of_nat 22 + 11;
              Shrink.itemsRemoved := 0 + 1 |}.
Proof.
  apply (shrinkRawData_round (Shrink.initial Shrink.payload_batch) 95 0
           (JArr Shrink.payload_batch_truncated []) 22);
    vm_compute; reflexivity.
Defined.

(** C4, refuted as stated: the raw data is [{a: null, b: 7}]. The value of
    [a] has the longer serialization (4 characters against 1), yet the
    round truncates [b], measures it as 1 and leaves [a] as it is. *)
Lemma shrinkRawData_skips_falsy_field :
  String.length (stringify JNull) = 4
  /\ String.length (stringify (JNum 7)) = 1
  /\ Shrink.shrinkIteration (JArr Shrink.falsy_batch [])
     = Ok (JArr Shrink.falsy_batch_truncated [], 1)
  /\ get_path (Some (JArr Shrink.falsy_batch_truncated []))
       ["0"; "_rawData"; "0"; "rawData"; "a"]
     = Ok (Some JNull)
  /\ get_path (Some (JArr Shrink.falsy_batch_truncated []))
       ["0"; "_rawData"; "0"; "rawData"; "b"]
     = Ok (Some (JStr "TRUNCATED")).
Proof. repeat split; vm_compute; reflexivity. Qed.

(** C3, as the code has it. A round of the loop of [shrinkRawData] replaces
    the tracked size by the tracked size less the measure of the selected
    field plus 11, so it reduces it exactly when that measure exceeds 11;
    the loop returns as soon as the tracked size is within the maximum;
    and when every round reduces the tracked size, it returns within
    [totalSize - maxSize] rounds. *)
Theorem shrinkRawData_progress (maxSize : Z) (st : Shrink.state)
    (P : Shrink.state -> Prop) :
  P st ->
  (forall s, P s -> (maxSize < Shrink.totalSize s)%Z ->
     exists s', Shrink.step s = Ok s'
                /\ (Shrink.totalSize s' < Shrink.totalSize s)%Z /\ P s') ->
  (exists fuel final,
     Shrink.while_loop fuel maxSize st = Some (Shrink.Returned final)
     /\ (Shrink.totalSize final <= maxSize)%Z /\ P final
     /\ (Z.of_nat fuel <= Z.max 0 (Shrink.totalSize st - maxSize))%Z)
  /\ (forall s s', Shrink.step s = Ok s' ->
        exists size,
          Shrink.shrinkIteration (Shrink.data s) = Ok (Shrink.data s', size)
          /\ Shrink.totalSize s'
             = (Shrink.totalSize s - Z.of_nat size + 11)%Z
          /\ ((Shrink.totalSize s' < Shrink.totalSize s)%Z <-> 11 < size))
  /\ (forall s fuel, (Shrink.totalSize s <= maxSize)%Z ->
        Shrink.while_loop fuel maxSize s = Some (Shrink.Returned s)).
Proof.
  intros HP Hround. split; [|split].
  - by apply while_loop_terminates.
  - intros s s' (size & Hiter & Hsize & _)%step_Ok.
    exists size. repeat split; try done; lia.
  - intros s fuel Hle. by apply while_loop_done.
Qed.

Lemma shrinkRawData_progress_witness :
  exists fuel final,
    Shrink.shrinkRawData fuel Shrink.payload_batch 95
    = Some (Shrink.Returned final)
    /\ (Shrink.totalSize final <= 95)%Z
    /\ (final = Shrink.initial Shrink.payload_batch
        \/ (Shrink.totalSize final <= 95)%Z)
    /\ (Z.of_nat fuel
        <= Z.max 0 (Shrink.totalSize (Shrink.initial Shrink.payload_batch)
                    - 95))%Z.
Proof.
  apply (shrinkRawData_progress 95 (Shrink.initial Shrink.payload_batch)
           (fun s => s = Shrink.initial Shrink.payload_batch
                     \/ (Shrink.totalSize s <= 95)%Z)).
  - left. reflexivity.
  - intros s [->|Hle] Hlt; [|lia].
    exists {| Shrink.data := JArr Shrink.payload_batch_truncated [];
              Shrink.totalSize := 95; Shrink.itemsRemoved := 1 |}.
    split; [vm_compute; reflexivity|].
    split; [vm_compute; reflexivity|]. right. simpl. lia.
Defined.

(** C3, refuted as stated: with a maximum of 94 bytes the first round
    truncates the payload of the sample batch and leaves 95 tracked bytes;
    every later round selects the truncated payload again, measures it as
    11 and leaves the tracked size at 95. The loop never ends, and nothing
    is thrown. *)
Lemma shrinkRawData_never_returns :
  ~ Shrink.terminates Shrink.payload_batch 94.
Proof.
  assert (Hstuck : forall fuel k,
            Shrink.while_loop fuel 94
              {| Shrink.data := JArr Shrink.payload_batch_truncated [];
                 Shrink.totalSize := 95; Shrink.itemsRemoved := k |} = None).
  { induction fuel as [|fuel IH]; intros k; [reflexivity|].
    rewrite (while_loop_round fuel 94 _
               {| Shrink.data := JArr Shrink.payload_batch_truncated [];
                  Shrink.totalSize := 95; Shrink.itemsRemoved := k + 1 |});
      [apply IH|simpl; lia|].
    unfold Shrink.step. cbn [Shrink.data].
    replace (Shrink.shrinkIteration (JArr Shrink.payload_batch_truncated []))
      with (Ok (JArr Shrink.payload_batch_truncated [], 11))
      by (vm_compute; reflexivity).
    reflexivity. }
  intros (fuel & e & Hrun). unfold Shrink.shrinkRawData in Hrun.
  destruct fuel as [|fuel]; [discriminate Hrun|].
  rewrite (while_loop_round fuel 94 _
             {| Shrink.data := JArr Shrink.payload_batch_truncated [];
                Shrink.totalSize := 95; Shrink.itemsRemoved := 1 |}) in Hrun;
    [|vm_compute; reflexivity|vm_compute; reflexivity].
  by rewrite Hstuck in Hrun.
Qed.

(** ** Synchronization *)

Section SyncProperties.

Import Sync.

Context {LoggerEvent : Type} (emits : Action -> list LoggerEvent).

Lemma handed_snoc att l a :
  handed emits att (l ++ [a])
  = handed emits att l
    ++ (if (att || bool_decide (AttachQueue ∈ l))
           && negb (bool_decide (a = OnIdle))
        then emits a else []).
Proof.
  revert att. induction l as [|b l IH]; intros att; simpl.
  { rewrite orb_false_r. by rewrite !app_nil_r. }
  rewrite IH, <- (assoc_L (++)). do 3 f_equal.
  destruct att; simpl; [done|].
  destruct (decide (b = AttachQueue)) as [->|Hb].
  - rewrite (bool_decide_eq_true_2 (AttachQueue = AttachQueue)) by done.
    rewrite (bool_decide_eq_true_2 (AttachQueue ∈ AttachQueue :: l));
      [done|]. apply elem_of_cons. by left.
  - rewrite (bool_decide_eq_false_2 (b = AttachQueue)) by done. simpl.
    rewrite (bool_decide_ext (AttachQueue ∈ b :: l) (AttachQueue ∈ l));
      [done|]. rewrite elem_of_cons.
    split; [intros [?|?]; [congruence|done]|by right].
Qed.

(** The queue is attached only in programs that end by awaiting
    [onIdle]. *)
Lemma synchronizeCollectedData_ends_onIdle o :
  AttachQueue ∈ (synchronizeCollectedData o).1 ->
  exists pre, (synchronizeCollectedData o).1 = pre ++ [OnIdle].
Proof.
  unfold synchronizeCollectedData, try_block, catch_block.
  destruct o as [i u s f a]; destruct i, u, s, f, a; simpl; intros Hin;
    try (by eexists [_; _; _]); try (by eexists [_; _; _; _]);
    try (by eexists [_; _; _; _; _]); try (by eexists [_; _; _; _; _; _]);
    try (by eexists [_; _; _; _; _; _; _]);
    try (by eexists [_; _; _; _; _; _; _; _]).
  all: by repeat (apply elem_of_cons in Hin as [?|Hin]; [done|]);
    apply elem_of_nil in Hin.
Qed.

Lemma sync_invariant_reachable o s :
  sys_reachable emits o s -> sync_invariant emits o s.
Proof.
  unfold sys_reachable. revert s. apply rtc_ind_r.
  { repeat split; try done. }
  intros s s' _ Hstep (Hprog & Hatt & Hpub & Hq).
  inversion Hstep as [a rest ? Htodo Ha|rest ? Htodo Hempty|e q ? Hqueue];
    subst; unfold sync_invariant; simpl.
  - rewrite Htodo in Hprog. repeat split.
    + by rewrite <- (assoc_L (++)).
    + rewrite Hatt. destruct (decide (a = AttachQueue)) as [->|Hne].
      * rewrite orb_true_r. symmetry. apply bool_decide_eq_true_2.
        apply elem_of_app. right. by apply list_elem_of_singleton.
      * rewrite (bool_decide_eq_false_2 (a = AttachQueue)) by done.
        rewrite orb_false_r. apply bool_decide_ext.
        rewrite elem_of_app, list_elem_of_singleton.
        split; [by left|intros [?|?]; [done|congruence]].
    + rewrite handed_snoc, <- Hpub. unfold enqueue. rewrite Hatt. simpl.
      rewrite (bool_decide_eq_false_2 (a = OnIdle)) by done.
      rewrite andb_true_r.
      destruct (bool_decide (AttachQueue ∈ performed s)); simpl.
      * by rewrite (assoc_L (++)).
      * by rewrite app_nil_r.
    + intros Hne.
      assert (Hlast : OnIdle ∈ a :: rest).
      { destruct (decide (queue s = [])) as [Hnil|Hnonnil].
        - unfold enqueue in Hne. rewrite Hnil in Hne.
          destruct (attached s) eqn:Hattached; [|done].
          symmetry in Hatt. apply bool_decide_eq_true_1 in Hatt.
          destruct (synchronizeCollectedData_ends_onIdle o) as [pre Hpre].
          { rewrite Hprog. apply elem_of_app. by left. }
          rewrite Hprog in Hpre.
          assert (Hl : last (performed s ++ a :: rest) = Some OnIdle).
          { rewrite Hpre. apply last_snoc. }
          rewrite last_app_cons in Hl. by apply last_Some_elem_of in Hl.
        - rewrite <- Htodo. by apply Hq. }
      apply elem_of_cons in Hlast as [?|?]; [congruence|done].
  - rewrite Htodo in Hprog. repeat split.
    + by rewrite <- (assoc_L (++)).
    + rewrite Hatt. apply bool_decide_ext.
      rewrite elem_of_app, list_elem_of_singleton.
      split; [by left|intros [?|?]; [done|congruence]].
    + rewrite handed_snoc, <- Hpub, Hempty. simpl.
      rewrite andb_false_r. by rewrite !app_nil_r.
    + done.
  - repeat split; try done.
    + rewrite <- Hpub, Hqueue. by rewrite <- (assoc_L (++)).
    + intros _. apply Hq. by rewrite Hqueue.
Qed.

End SyncProperties.

(** C7, as the code has it. The event publishing queue is drained before
    [synchronizeCollectedData] settles: whatever calls fail, once the
    function has nothing left to await the queue is empty and every event
    the logger emitted since the queue was attached has been published, in
    order. (The [onIdle] of the queue is awaited in the [finally] block,
    after [finalizeSynchronization] has returned.) *)
Theorem synchronizeCollectedData_drains_queue {LoggerEvent : Type}
    (emits : Sync.Action -> list LoggerEvent) (o : Sync.Outcomes)
    (s : Sync.System LoggerEvent) :
  Sync.sys_reachable emits o s ->
  Sync.todo s = [] ->
  Sync.queue s = []
  /\ Sync.performed s = (Sync.synchronizeCollectedData o).1
  /\ Sync.published s
     = Sync.handed emits false (Sync.synchronizeCollectedData o).1.
Proof.
  intros (Hprog & _ & Hpub & Hq)%sync_invariant_reachable Htodo.
  rewrite Htodo, app_nil_r in Hprog.
  assert (Hempty : Sync.queue s = []).
  { destruct (Sync.queue s) as [|e q] eqn:Hqueue; [done|].
    rewrite Htodo in Hq. assert (Hin : Sync.OnIdle ∈ @nil Sync.Action)
      by (by apply Hq). by apply elem_of_nil in Hin. }
  repeat split; [done|done|].
  by rewrite Hprog, <- Hpub, Hempty, app_nil_r.
Qed.

Section SyncSampleRun.

Import Sync.

Local Ltac call :=
  eapply rtc_l; [eapply step_call; [reflexivity|discriminate]|]; simpl.
Local Ltac publish :=
  eapply rtc_l; [eapply step_publish; reflexivity|]; simpl.

Lemma finalized_undrained_reachable :
  sys_reachable upload_events all_ok finalized_undrained.
Proof.
  unfold sys_reachable, sys_init. simpl.
  call. call. call. call. call. apply rtc_refl.
Qed.

Lemma settled_drained_reachable :
  sys_reachable upload_events all_ok settled_drained.
Proof.
  unfold sys_reachable.
  transitivity finalized_undrained; [apply finalized_undrained_reachable|].
  unfold finalized_undrained. publish. publish.
  eapply rtc_l; [eapply step_onIdle; reflexivity|]. apply rtc_refl.
Qed.

End SyncSampleRun.

Lemma synchronizeCollectedData_drains_queue_witness :
  Sync.queue Sync.settled_drained = []
  /\ Sync.performed Sync.settled_drained
     = (Sync.synchronizeCollectedData Sync.all_ok).1
  /\ Sync.published Sync.settled_drained
     = Sync.handed Sync.upload_events false
         (Sync.synchronizeCollectedData Sync.all_ok).1.
Proof.
  apply (synchronizeCollectedData_drains_queue Sync.upload_events
           Sync.all_ok Sync.settled_drained);
    [apply settled_drained_reachable|reflexivity].
Defined.

(** C7, refuted as stated: in a run where every call succeeds and the
    logger publishes the start and the end of the upload, the call of
    [finalizeSynchronization] can have returned while both events are
    still waiting in the queue, none of them published. *)
Lemma finalize_returns_before_queue_drained :
  exists s,
    Sync.sys_reachable Sync.upload_events Sync.all_ok s
    /\ last (Sync.performed s) = Some Sync.Finalize
    /\ Sync.queue s = ["sync_upload_start"; "sync_upload_end"]
    /\ Sync.published s = [].
Proof.
  exists Sync.finalized_undrained.
  split; [apply finalized_undrained_reachable|]. repeat split.
Qed.

(** ** Step execution *)

(** The model yields the results the tests of [executeIntegrationInstance]
    expect. *)
Section ExecutionTests.

Import Execution.

Example test_single_success_result :
  outcome (executeIntegrationInstance test_single_success)
  = inr {| integrationStepResults :=
             [expected "my-step" ["test"] [] [] None SUCCESS];
           partialDatasets_types := [] |}.
Proof. vm_compute. reflexivity. Qed.

Example test_single_failure_result :
  outcome (executeIntegrationInstance test_single_failure)
  = inr {| integrationStepResults :=
             [expected "my-step" ["test"] [] [] None FAILURE];
           partialDatasets_types := ["test"] |}.
Proof. vm_compute. reflexivity. Qed.

Example test_dependency_failure_result :
  outcome (executeIntegrationInstance test_dependency_failure)
  = inr {| integrationStepResults :=
             [expected "my-step-a" ["test_a"] [] [] None FAILURE;
              expected "my-step-b" ["test_b"] [] [] (Some ["my-step-a"])
                PARTIAL_SUCCESS_DUE_TO_DEPENDENCY_FAILURE];
           partialDatasets_types := ["test_a"; "test_b"] |}.
Proof. vm_compute. reflexivity. Qed.

Example test_dependency_failure_partial_result :
  outcome (executeIntegrationInstance test_dependency_failure_partial)
  = inr {| integrationStepResults :=
             [expected "my-step-a" ["test_a"] [] [] None FAILURE;
              expected "my-step-b" ["test_b"; "test_b2"] ["test_b2"] []
                (Some ["my-step-a"])
                PARTIAL_SUCCESS_DUE_TO_DEPENDENCY_FAILURE];
           partialDatasets_types := ["test_a"; "test_b2"; "test_b"] |}.
Proof. vm_compute. reflexivity. Qed.

Example test_failure_partial_result :
  outcome (executeIntegrationInstance test_failure_partial)
  = inr {| integrationStepResults :=
             [expected "my-step-a" ["test_a"; "test_a2"] ["test_a2"] []
                None FAILURE;
              expected "my-step-b" ["test_b"] [] [] (Some ["my-step-a"])
                PARTIAL_SUCCESS_DUE_TO_DEPENDENCY_FAILURE];
           partialDatasets_types := ["test_a2"; "test_a"; "test_b"] |}.
Proof. vm_compute. reflexivity. Qed.

Example test_disabled_partial_result :
  outcome (executeIntegrationInstance test_disabled_partial)
  = inr test_disabled_partial_expected.
Proof. vm_compute. reflexivity. Qed.

Example test_all_success_partial_result :
  outcome (executeIntegrationInstance test_all_success_partial)
  = inr {| integrationStepResults :=
             [expected "my-step" ["test_1"; "test_1b"] ["test_1b"] [] None
                SUCCESS;
              {| result_id := "my-step-2";
                 result_name := "My awesome second step";
                 declaredTypes := ["test_2"; "test_2b"; "test_3"];
                 partialTypes := ["test_2b"; "test_3"];
                 encounteredTypes := []; result_dependsOn := None;
                 status := SUCCESS |}];
           partialDatasets_types := ["test_1b"; "test_2b"; "test_3"] |}.
Proof. vm_compute. reflexivity. Qed.

Example test_duplicate_same_step_result :
  outcome (executeIntegrationInstance test_duplicate_same_step)
  = inr {| integrationStepResults :=
             [{| result_id := "a"; result_name := "a";
                 declaredTypes := ["duplicate_entity"]; partialTypes := [];
                 encounteredTypes := ["duplicate_entity"];
                 result_dependsOn := None; status := FAILURE |}];
           partialDatasets_types := ["duplicate_entity"] |}.
Proof. vm_compute. reflexivity. Qed.

Example test_duplicate_across_steps_result :
  outcome (executeIntegrationInstance test_duplicate_across_steps)
  = inr test_duplicate_across_steps_expected.
Proof. vm_compute. reflexivity. Qed.

Example test_missing_start_states_result :
  executeIntegrationInstance test_missing_start_states
  = rejected (START_STATES_MISSING ["my-step"]).
Proof. vm_compute. reflexivity. Qed.

End ExecutionTests.

Section ExecutionProperties.

Import Execution.

(** *** The execution summary *)

Lemma elem_of_uniq_fold (l acc : list string) x :
  x ∈ fold_left (fun (acc : list string) x =>
                   if decide (x ∈ acc) then acc else acc ++ [x]) l acc
  <-> x ∈ acc \/ x ∈ l.
Proof.
  revert acc. induction l as [|y l IH]; intros acc; simpl.
  { rewrite elem_of_nil. tauto. }
  rewrite IH, elem_of_cons. destruct (decide (y ∈ acc)) as [Hy|Hy].
  - split; [tauto|]. intros [?|[->|?]]; tauto.
  - rewrite elem_of_app, list_elem_of_singleton. tauto.
Qed.

Lemma NoDup_uniq_fold (l acc : list string) :
  NoDup acc ->
  NoDup (fold_left (fun (acc : list string) x =>
                      if decide (x ∈ acc) then acc else acc ++ [x]) l acc).
Proof.
  revert acc. induction l as [|y l IH]; intros acc Hacc; simpl; [done|].
  apply IH. destruct (decide (y ∈ acc)) as [Hy|Hy]; [done|].
  apply NoDup_app. split; [done|]. split; [|apply NoDup_singleton].
  intros x Hx ->%list_elem_of_singleton. done.
Qed.

Lemma elem_of_uniq l x : x ∈ uniq l <-> x ∈ l.
Proof. unfold uniq. rewrite elem_of_uniq_fold, elem_of_nil. tauto. Qed.

Lemma NoDup_uniq l : NoDup (uniq l).
Proof. apply NoDup_uniq_fold, NoDup_nil_2. Qed.

Lemma elem_of_stepPartialDatasets r t :
  t ∈ stepPartialDatasets r
  <-> (status r <> DISABLED /\ t ∈ partialTypes r)
      \/ (is_partial_status (status r) = true /\ t ∈ declaredTypes r).
Proof.
  unfold stepPartialDatasets. rewrite elem_of_app.
  destruct (decide (status r = DISABLED)) as [Hd|Hd].
  - rewrite bool_decide_eq_true_2 by done. rewrite elem_of_nil.
    destruct (is_partial_status (status r)); [|rewrite elem_of_nil];
      intuition congruence.
  - rewrite bool_decide_eq_false_2 by done.
    destruct (is_partial_status (status r)); [|rewrite elem_of_nil];
      intuition congruence.
Qed.

Lemma elem_of_partialDatasets_fold results (acc : list string) t :
  t ∈ fold_left (fun (types : list string) r =>
                   uniq (types ++ stepPartialDatasets r)) results acc
  <-> t ∈ acc \/ exists r, r ∈ results /\ t ∈ stepPartialDatasets r.
Proof.
  revert acc. induction results as [|r results IH]; intros acc; simpl.
  { split; [by left|]. intros [?|(r & Hr%elem_of_nil & _)]; done. }
  rewrite IH, elem_of_uniq, elem_of_app. split.
  - intros [[?|?]|(r' & Hr' & Ht)]; [by left|right..].
    + exists r. split; [apply elem_of_cons; by left|done].
    + exists r'. split; [apply elem_of_cons; by right|done].
  - intros [?|(r' & [->|Hr']%elem_of_cons & Ht)]; [tauto|tauto|].
    right. by exists r'.
Qed.

Lemma elem_of_determinePartialDatasets results t :
  t ∈ determinePartialDatasetsFromStepExecutionResults results
  <-> exists r, r ∈ results /\
        ((status r <> DISABLED /\ t ∈ partialTypes r)
         \/ (is_partial_status (status r) = true /\ t ∈ declaredTypes r)).
Proof.
  unfold determinePartialDatasetsFromStepExecutionResults.
  rewrite elem_of_partialDatasets_fold, elem_of_nil.
  setoid_rewrite elem_of_stepPartialDatasets. tauto.
Qed.

Lemma NoDup_determinePartialDatasets results :
  NoDup (determinePartialDatasetsFromStepExecutionResults results).
Proof.
  unfold determinePartialDatasetsFromStepExecutionResults.
  induction results as [|r results IH] using rev_ind; [apply NoDup_nil_2|].
  rewrite fold_left_app. simpl. apply NoDup_uniq.
Qed.

(** The summary of a run that resolves is computed from its step
    results. *)
Lemma run_summary config res :
  outcome (executeIntegrationInstance config) = inr res ->
  partialDatasets_types res
  = determinePartialDatasetsFromStepExecutionResults
      (integrationStepResults res).
Proof.
  unfold executeIntegrationInstance.
  destruct (validateInvocation config); [done|].
  destruct (start_states_missing _ _); [|done].
  destruct (execution_order _ _ _); [|done].
  simpl. by intros [= <-].
Qed.

End ExecutionProperties.

(** C1, as the code has it. For every run that resolves, the types of the
    partial-dataset metadata are, without repetition, the declared types of
    the steps that ended in [FAILURE] or in
    [PARTIAL_SUCCESS_DUE_TO_DEPENDENCY_FAILURE] and the partial types of
    the steps that did not end as [DISABLED]. *)
Theorem partialDatasets_types_spec
    (config : Execution.IntegrationInvocationConfig)
    (res : Execution.ExecuteIntegrationResult) :
  Execution.outcome (Execution.executeIntegrationInstance config) = inr res ->
  NoDup (Execution.partialDatasets_types res)
  /\ forall t,
       t ∈ Execution.partialDatasets_types res
       <-> exists r,
             r ∈ Execution.integrationStepResults res
             /\ ((Execution.status r <> Execution.DISABLED
                  /\ t ∈ Execution.partialTypes r)
                 \/ (Execution.is_partial_status (Execution.status r) = true
                     /\ t ∈ Execution.declaredTypes r)).
Proof.
  intros Hrun. rewrite (run_summary _ _ Hrun). split.
  - apply NoDup_determinePartialDatasets.
  - intros t. apply elem_of_determinePartialDatasets.
Qed.

Lemma partialDatasets_types_spec_witness :
  NoDup ["test_a"]
  /\ forall t,
       t ∈ ["test_a"]
       <-> exists r,
             r ∈ Execution.integrationStepResults
                   Execution.test_disabled_partial_expected
             /\ ((Execution.status r <> Execution.DISABLED
                  /\ t ∈ Execution.partialTypes r)
                 \/ (Execution.is_partial_status (Execution.status r) = true
                     /\ t ∈ Execution.declaredTypes r)).
Proof.
  apply (partialDatasets_types_spec Execution.test_disabled_partial
           Execution.test_disabled_partial_expected).
  vm_compute. reflexivity.
Defined.

(** C1, refuted as stated, on the configuration of the test "does not
    include partialTypes for disabled steps": the step [my-step-b] is
    disabled through [getStepStartStates] and declares [test_b] with
    [partial: true]. The union the claim describes contains [test_b]; the
    partial datasets of the run, [test_a] alone as the test expects, do
    not. *)
Lemma disabled_step_partial_types_excluded :
  Execution.outcome
    (Execution.executeIntegrationInstance Execution.test_disabled_partial)
  = inr Execution.test_disabled_partial_expected
  /\ Execution.spec_partial_types
       (Execution.integrationStepResults
          Execution.test_disabled_partial_expected) "test_b"
  /\ "test_b" ∉ Execution.partialDatasets_types
                  Execution.test_disabled_partial_expected.
Proof.
  split; [vm_compute; reflexivity|]. split.
  - exists (Execution.expected "my-step-b" ["test_b"] ["test_b"] [] None
              Execution.DISABLED).
    split; [apply elem_of_cons; right; apply elem_of_cons; by left|].
    right. apply elem_of_cons. by left.
  - simpl. apply not_elem_of_cons. split; [discriminate|apply not_elem_of_nil].
Qed.

(** C8. When [getStepStartStates] is provided and its result has no entry
    for one of the declared steps, [executeIntegrationInstance] rejects
    before any step runs: no handler is invoked, nothing is stored and
    there are no step results. The error is the one about the missing
    start states, which lists that step, unless [validateInvocation]
    rejected first. *)
Theorem missing_start_state_rejects
    (config : Execution.IntegrationInvocationConfig)
    (m : gmap string Execution.StepStartState) (s : Execution.Step) :
  Execution.getStepStartStates config = Some m ->
  s ∈ Execution.integrationSteps config ->
  m !! Execution.id s = None ->
  let missing :=
    Execution.missing_start_states m (Execution.integrationSteps config) in
  Execution.id s ∈ missing
  /\ Execution.executeIntegrationInstance config
     = Execution.rejected
         (match Execution.validateInvocation config with
          | Some message => Execution.VALIDATION_ERROR message
          | None => Execution.START_STATES_MISSING missing
          end)
  /\ Execution.invoked (Execution.executeIntegrationInstance config) = []
  /\ Execution.graph_files (Execution.executeIntegrationInstance config) = []
  /\ forall res,
       Execution.outcome (Execution.executeIntegrationInstance config)
       <> inr res.
Proof.
  intros Hstarts Hs Hm missing.
  assert (Hin : Execution.id s ∈ missing).
  { unfold missing, Execution.missing_start_states.
    apply list_elem_of_fmap. exists s. split; [done|].
    by apply list_elem_of_filter. }
  assert (Hrun : Execution.executeIntegrationInstance config
     = Execution.rejected
         (match Execution.validateInvocation config with
          | Some message => Execution.VALIDATION_ERROR message
          | None => Execution.START_STATES_MISSING missing
          end)).
  { unfold Execution.executeIntegrationInstance.
    destruct (Execution.validateInvocation config); [done|].
    rewrite Hstarts. unfold Execution.start_states_missing. fold missing.
    destruct missing; [by apply elem_of_nil in Hin|done]. }
  split; [done|]. split; [done|]. rewrite Hrun. by repeat split.
Qed.

Lemma missing_start_state_rejects_witness :
  "my-step" ∈ ["my-step"]
  /\ Execution.executeIntegrationInstance Execution.test_missing_start_states
     = Execution.rejected (Execution.START_STATES_MISSING ["my-step"]).
Proof.
  pose proof (missing_start_state_rejects Execution.test_missing_start_states
                ∅ (Execution.test_step "my-step" [Execution.declared "test"]
                     [] None [])
                eq_refl ltac:(apply elem_of_cons; by left) eq_refl)
    as (H1 & H2 & _).
  split; [exact H1|exact H2].
Defined.

(** *** The object store *)

Section StoreProperties.

Import Execution.

Lemma accepted_of_app c (l1 l2 : list (Collection * obj)) :
  accepted_of c (l1 ++ l2) = accepted_of c l1 ++ accepted_of c l2.
Proof. unfold accepted_of. by rewrite filter_app, fmap_app. Qed.

Lemma file_objects_app c (l1 l2 : list (Path * list obj)) :
  file_objects c (l1 ++ l2) = file_objects c l1 ++ file_objects c l2.
Proof. unfold file_objects. by rewrite filter_app, fmap_app, concat_app. Qed.

Lemma buffer_objects_add t o buffer :
  buffer_objects (buffer_add t o buffer) ≡ₚ buffer_objects buffer ++ [o].
Proof.
  unfold buffer_objects. induction buffer as [|[t' os] buffer IH]; simpl.
  { done. }
  destruct (String.eqb t t'); simpl.
  - rewrite <- !(assoc_L (++)). apply Permutation_app_head.
    apply Permutation_app_comm.
  - rewrite IH. by rewrite (assoc_L (++)).
Qed.

Lemma store_inv_empty : store_inv empty_store.
Proof.
  intros c. repeat split.
  - destruct c; simpl; by intros ?%elem_of_empty.
  - intros (o & Ho%elem_of_nil & _). done.
  - apply NoDup_nil_2.
  - by destruct c.
Qed.

(** A flush moves objects and changes nothing else. *)
Lemma flush_keys stepId c st c' :
  keys_of c' (flush stepId c st) = keys_of c' st.
Proof.
  unfold flush. destruct (buffer_objects _); [done|]. by destruct c, c'.
Qed.

Lemma flush_accepted stepId c st :
  accepted (flush stepId c st) = accepted st.
Proof. unfold flush. destruct (buffer_objects _); [done|]. by destruct c. Qed.

Lemma flush_stored stepId c st c' :
  stored c' (flush stepId c st) = stored c' st.
Proof.
  unfold flush, stored.
  destruct (buffer_objects (buffer_of c st)) as [|o os] eqn:Hbuf; [done|].
  destruct c, c'; simpl in *; rewrite file_objects_app; unfold file_objects;
    simpl; rewrite ?app_nil_r, ?Hbuf; done.
Qed.

Lemma flush_inv stepId c st : store_inv st -> store_inv (flush stepId c st).
Proof.
  intros Hinv c'. rewrite flush_accepted, flush_stored.
  destruct (Hinv c') as (Hk & Hn & Hs). repeat split; try done.
  - rewrite flush_keys. apply Hk.
  - rewrite flush_keys. apply Hk.
Qed.

(** After the flush of a kind nothing of that kind is left in memory, and
    the other buffer is as it was. *)
Lemma flush_buffer stepId c st :
  buffer_objects (buffer_of c (flush stepId c st)) = [].
Proof.
  unfold flush. destruct (buffer_objects (buffer_of c st)) eqn:Hbuf; [done|].
  by destruct c.
Qed.

Lemma flush_buffer_other stepId c st c' :
  c' <> c -> buffer_of c' (flush stepId c st) = buffer_of c' st.
Proof.
  intros Hne. unfold flush. destruct (buffer_objects _); [done|].
  by destruct c, c'.
Qed.

Lemma accepted_of_singleton c c' o :
  accepted_of c [(c', o)] = if decide (c' = c) then [o] else [].
Proof.
  unfold accepted_of. rewrite filter_cons. simpl.
  by destruct (decide (c' = c)).
Qed.

(** The store once an object is taken, before any flush. *)
Lemma taken_inv c o st :
  store_inv st -> _key o ∉ keys_of c st ->
  store_inv
    (record_accepted c o
       (set_collection c ({[ _key o ]} ∪ keys_of c st)
          (buffer_add (_type o) o (buffer_of c st)) st)).
Proof.
  intros Hinv Hfresh c'. destruct (Hinv c') as (Hk & Hn & Hs).
  destruct (decide (c' = c)) as [->|Hne].
  - assert (Hacc : accepted_of c (accepted st ++ [(c, o)])
                   = accepted_of c (accepted st) ++ [o]).
    { rewrite accepted_of_app, accepted_of_singleton.
      by rewrite decide_True. }
    assert (Hkeys : forall k,
              k ∈ {[ _key o ]} ∪ keys_of c st
              <-> exists o', o' ∈ accepted_of c (accepted st) ++ [o]
                             /\ _key o' = k).
    { intros k. rewrite elem_of_union, elem_of_singleton, Hk. split.
      - intros [->|(o' & Ho' & <-)].
        + exists o. split; [|done]. apply elem_of_app. right.
          by apply list_elem_of_singleton.
        + exists o'. split; [|done]. apply elem_of_app. by left.
      - intros (o' & [Ho'|Ho']%elem_of_app & <-).
        + right. by exists o'.
        + apply list_elem_of_singleton in Ho' as ->. by left. }
    assert (Hnodup : NoDup (_key <$> accepted_of c (accepted st) ++ [o])).
    { rewrite fmap_app. apply NoDup_app. split; [done|].
      split; [|apply NoDup_singleton].
      intros k Hin Hk'. apply list_elem_of_singleton in Hk' as ->.
      apply Hfresh, Hk.
      apply list_elem_of_fmap in Hin as (o' & -> & Ho'). by exists o'. }
    assert (Hstored : forall files,
              file_objects c files
                ++ buffer_objects (buffer_add (_type o) o (buffer_of c st))
              ≡ₚ (file_objects c files ++ buffer_objects (buffer_of c st))
                 ++ [o]).
    { intros files. rewrite buffer_objects_add. by rewrite (assoc_L (++)). }
    destruct c; simpl; rewrite Hacc; repeat split; try done;
      try apply Hkeys; unfold stored; simpl; rewrite Hstored;
      by apply Permutation_app_tail.
  - assert (Hacc : accepted_of c' (accepted st ++ [(c, o)])
                   = accepted_of c' (accepted st)).
    { rewrite accepted_of_app, accepted_of_singleton.
      rewrite decide_False by done. by rewrite app_nil_r. }
    destruct c, c'; try done; simpl; rewrite Hacc; repeat split; try done;
      apply Hk.
Qed.

Lemma add_object_Ok stepId c o js js' :
  store_inv (store js) ->
  add_object stepId c o js = inr js' ->
  store_inv (store js')
  /\ accepted (store js') = accepted (store js) ++ [(c, o)]
  /\ (forall t, t ∈ encountered js' <-> t ∈ encountered js \/ t = _type o).
Proof.
  intros Hinv. unfold add_object.
  destruct (decide (_key o ∈ keys_of c (store js))) as [|Hfresh]; [done|].
  intros [= <-]. cbn [store encountered].
  pose proof (taken_inv c o _ Hinv Hfresh) as Htaken.
  split; [|split].
  - destruct (Nat.ltb _ _); [by apply flush_inv|done].
  - destruct (Nat.ltb _ _); [rewrite flush_accepted|]; by destruct c.
  - intros t. destruct (decide (_type o ∈ encountered js)) as [Hin|Hin].
    + split; [by left|]. intros [?|Heq]; [done|by rewrite Heq].
    + rewrite elem_of_app, list_elem_of_singleton. done.
Qed.

(** An object whose key an accepted object of its kind has is refused. *)
Lemma add_object_duplicate stepId c o js :
  store_inv (store js) ->
  (exists o', o' ∈ accepted_of c (accepted (store js)) /\ _key o' = _key o) ->
  add_object stepId c o js = inl (DUPLICATE_KEY (_key o)).
Proof.
  intros Hinv Hex. unfold add_object.
  destruct (Hinv c) as (Hk & _). apply Hk in Hex.
  by rewrite decide_True.
Qed.

Lemma add_object_error stepId c o js e :
  store_inv (store js) ->
  add_object stepId c o js = inl e ->
  e = DUPLICATE_KEY (_key o)
  /\ exists o', o' ∈ accepted_of c (accepted (store js)) /\ _key o' = _key o.
Proof.
  intros Hinv. unfold add_object.
  destruct (decide (_key o ∈ keys_of c (store js))) as [Hin|]; [|done].
  intros [= <-]. split; [done|]. destruct (Hinv c) as (Hk & _). by apply Hk.
Qed.

Lemma job_inv_start st0 :
  store_inv st0 -> job_inv st0 {| store := st0; encountered := [] |}.
Proof.
  intros Hinv. split; [done|]. exists []. split; [by rewrite app_nil_r|].
  intros t. split; [by intros ?%elem_of_nil|].
  by intros (x & ?%elem_of_nil & _).
Qed.

Lemma add_object_job_inv st0 stepId c o js js' :
  job_inv st0 js -> add_object stepId c o js = inr js' -> job_inv st0 js'.
Proof.
  intros (Hinv & new & Hacc & Henc) Hadd.
  destruct (add_object_Ok _ _ _ _ _ Hinv Hadd) as (Hinv' & Hacc' & Henc').
  split; [done|]. exists (new ++ [(c, o)]). split.
  - by rewrite Hacc', Hacc, (assoc_L (++)).
  - intros t. rewrite Henc', Henc. split.
    + intros [(x & Hx & <-)| ->].
      * exists x. split; [apply elem_of_app; by left|done].
      * exists (c, o). split; [|done]. apply elem_of_app. right.
        by apply list_elem_of_singleton.
    + intros (x & [Hx|Hx]%elem_of_app & <-).
      * left. by exists x.
      * apply list_elem_of_singleton in Hx as ->. by right.
Qed.

Lemma add_objects_job_inv st0 stepId c os js js' err :
  job_inv st0 js -> add_objects stepId c os js = (js', err) ->
  job_inv st0 js'.
Proof.
  revert js. induction os as [|o os IH]; intros js Hjs; simpl.
  { by intros [= <- _]. }
  destruct (add_object stepId c o js) as [e|js1] eqn:Hadd.
  - by intros [= <- _].
  - apply IH. by eapply add_object_job_inv.
Qed.

Lemma add_objects_app stepId c os1 os2 js js1 :
  add_objects stepId c os1 js = (js1, None) ->
  add_objects stepId c (os1 ++ os2) js = add_objects stepId c os2 js1.
Proof.
  revert js. induction os1 as [|o os1 IH]; intros js; simpl.
  { by intros [= <-]. }
  destruct (add_object stepId c o js) as [e|js']; [done|]. apply IH.
Qed.

Lemma job_state_call_job_inv st0 stepId call js js' err :
  job_inv st0 js -> job_state_call stepId call js = (js', err) ->
  job_inv st0 js'.
Proof.
  intros Hjs. destruct call; cbn [job_state_call];
    try (by apply add_objects_job_inv). intros Heq. by simplify_eq.
Qed.

Lemma run_handler_job_inv st0 stepId calls js js' err :
  job_inv st0 js -> run_handler stepId calls js = (js', err) ->
  job_inv st0 js'.
Proof.
  revert js. induction calls as [|call calls IH]; intros js Hjs; simpl.
  { by intros [= <- _]. }
  destruct (job_state_call stepId call js) as [js1 [e|]] eqn:Hcall.
  - intros [= <- _]. by eapply job_state_call_job_inv.
  - apply IH. by eapply job_state_call_job_inv.
Qed.

Lemma run_handler_app stepId calls1 calls2 js js1 :
  run_handler stepId calls1 js = (js1, None) ->
  run_handler stepId (calls1 ++ calls2) js = run_handler stepId calls2 js1.
Proof.
  revert js. induction calls1 as [|call calls1 IH]; intros js; simpl.
  { by intros [= <-]. }
  destruct (job_state_call stepId call js) as [js' [e|]]; [done|]. apply IH.
Qed.

(** A step leaves the store in order, with nothing in memory. *)
Lemma executeStep_inv starts results st s :
  store_inv st -> flushed st ->
  store_inv (executeStep starts results st s).1
  /\ flushed (executeStep starts results st s).1.
Proof.
  intros Hinv Hflushed. unfold executeStep.
  destruct (is_disabled starts s); [done|]. cbn [fst].
  destruct (run_handler _ _ _) as [js err] eqn:Hrun. cbn [fst snd].
  apply run_handler_job_inv with (st0 := st) in Hrun as [Hjs _];
    [|by apply job_inv_start].
  split; [by do 2 apply flush_inv|].
  intros []; [|apply flush_buffer].
  rewrite flush_buffer_other by done. apply flush_buffer.
Qed.

Lemma run_steps_app starts order1 order2 init :
  run_steps starts (order1 ++ order2) init
  = run_steps starts order2 (run_steps starts order1 init).
Proof. unfold run_steps. by rewrite fold_left_app. Qed.

Lemma run_steps_inv starts order init :
  store_inv init.1 -> flushed init.1 ->
  store_inv (run_steps starts order init).1
  /\ flushed (run_steps starts order init).1.
Proof.
  revert init. induction order as [|s order IH]; intros init Hinv Hfl;
    [done|].
  change (s :: order) with ([s] ++ order). rewrite run_steps_app.
  apply IH; simpl; by apply executeStep_inv.
Qed.

Lemma run_steps_indices starts order init :
  (run_steps starts order init).2.*1 = init.2.*1 ++ order.*1.
Proof.
  revert init. induction order as [|s order IH]; intros init.
  { simpl. by rewrite app_nil_r. }
  change (s :: order) with ([s] ++ order). rewrite run_steps_app, IH.
  simpl. rewrite fmap_app. simpl. by rewrite <- (assoc_L (++)).
Qed.

(** The results so far are kept by the steps that follow. *)
Lemma run_steps_results starts order init x :
  x ∈ init.2 -> x ∈ (run_steps starts order init).2.
Proof.
  revert init. induction order as [|s order IH]; intros init Hx; [done|].
  change (s :: order) with ([s] ++ order). rewrite run_steps_app.
  apply IH. simpl. apply elem_of_app. by left.
Qed.

(** *** The order of execution *)

Lemma next_runnable_perm ended remaining s rest :
  next_runnable ended remaining = Some (s, rest) -> remaining ≡ₚ s :: rest.
Proof.
  revert s rest. induction remaining as [|x remaining IH]; intros s rest;
    simpl; [done|].
  destruct (forallb _ _).
  - by intros [= <- <-].
  - destruct (next_runnable ended remaining) as [[s' rest']|]; [|done].
    intros [= <- <-]. rewrite (IH _ _ eq_refl). apply Permutation_swap.
Qed.

Lemma execution_order_perm fuel ended remaining order :
  execution_order fuel ended remaining = Some order -> order ≡ₚ remaining.
Proof.
  revert ended remaining order.
  induction fuel as [|fuel IH]; intros ended remaining order.
  { destruct remaining; simpl; [by intros [= <-]|done]. }
  destruct remaining as [|x remaining]; [by intros [= <-]|].
  cbn [execution_order].
  destruct (next_runnable ended (x :: remaining)) as [[s rest]|] eqn:Hnext;
    [|done].
  destruct (execution_order fuel _ rest) as [order'|] eqn:Horder; [|done].
  simpl. intros [= <-]. rewrite (IH _ _ _ Horder).
  symmetry. by apply next_runnable_perm in Hnext.
Qed.

Lemma imap_pair_indices {A} (l : list A) k :
  (imap (fun i x => (k + i, x)) l).*1 = seq k (length l).
Proof.
  revert k. induction l as [|x l IH]; intros k; simpl; [done|].
  rewrite Nat.add_0_r. f_equal. rewrite <- IH. f_equal.
  apply imap_ext. intros i y _. simpl. f_equal. lia.
Qed.

Lemma find_by_index {A} (l : list (nat * A)) i r :
  NoDup l.*1 -> (i, r) ∈ l ->
  List.find (fun x => Nat.eqb x.1 i) l = Some (i, r).
Proof.
  induction l as [|[j y] l IH]; simpl; [by intros _ ?%elem_of_nil|].
  intros [Hj Hl]%NoDup_cons [Heq|Hin]%elem_of_cons.
  - injection Heq as <- <-. by rewrite Nat.eqb_refl.
  - destruct (Nat.eqb_spec j i) as [->|_]; [|by apply IH].
    destruct Hj. apply list_elem_of_fmap. by exists (i, r).
Qed.

Lemma in_declaration_order_elem n (results : list (nat * StepResult)) i r :
  NoDup results.*1 -> (i, r) ∈ results -> i < n ->
  r ∈ in_declaration_order n results.
Proof.
  intros Hnodup Hin Hlt. unfold in_declaration_order.
  apply list_elem_of_omap. exists i. split.
  - apply elem_of_seq. lia.
  - by rewrite (find_by_index _ _ _ Hnodup Hin).
Qed.

(** *** Duplicate keys *)

(** A step whose handler hands over an entity with the key of an accepted
    entity ends in [FAILURE] with the types encountered up to there. *)
Lemma executeStep_duplicate starts results st s calls call calls' os e os'
    js0 js :
  store_inv st ->
  is_disabled starts s = false ->
  executionHandler s = calls ++ call :: calls' ->
  entity_call call = Some (os ++ e :: os') ->
  run_handler (id s) calls {| store := st; encountered := [] |}
  = (js0, None) ->
  add_objects (id s) Entities os js0 = (js, None) ->
  (exists o, o ∈ accepted_of Entities (accepted (store js))
             /\ _key o = _key e) ->
  job_inv st js
  /\ add_object (id s) Entities e js = inl (DUPLICATE_KEY (_key e))
  /\ (executeStep starts results st s).2
     = step_result s (encountered js) FAILURE.
Proof.
  intros Hinv Hen Hhandler Hcall Hbefore Hos Hdup.
  assert (Hjs0 : job_inv st js0).
  { eapply run_handler_job_inv; [|exact Hbefore]. by apply job_inv_start. }
  assert (Hjs : job_inv st js) by (by eapply add_objects_job_inv).
  assert (Hadd : add_object (id s) Entities e js
                 = inl (DUPLICATE_KEY (_key e))).
  { apply add_object_duplicate; [apply Hjs|done]. }
  split; [done|]. split; [done|].
  unfold executeStep. rewrite Hen, Hhandler.
  rewrite (run_handler_app _ _ _ _ _ Hbefore). cbn [run_handler].
  assert (Hjob : job_state_call (id s) call js0
                 = (js, Some (DUPLICATE_KEY (_key e)))).
  { assert (Hobjs : add_objects (id s) Entities (os ++ e :: os') js0
                    = (js, Some (DUPLICATE_KEY (_key e)))).
    { rewrite (add_objects_app _ _ _ _ _ _ Hos). simpl. by rewrite Hadd. }
    destruct call; simpl in Hcall; try done; injection Hcall as Hcall;
      cbn [job_state_call]; by rewrite Hcall. }
  by rewrite Hjob.
Qed.

End StoreProperties.

(** C2, as the code has it. In a run that resolves, no two entities the
    store accepted share a [_key], and the entities in the files are the
    accepted ones. When the handler of a step hands over an entity whose
    [_key] an accepted entity has, whether that one was accepted in the
    same step or in a step that ran before, the entity is refused with a
    duplicate-key error and the step ends in [FAILURE]; its encountered
    types are the types of what it had written up to there, and its
    declared types are among the types of the partial datasets. *)
Theorem duplicate_key_fails_step
    (config : Execution.IntegrationInvocationConfig)
    (res : Execution.ExecuteIntegrationResult)
    (pre post : list (nat * Execution.Step)) (i : nat) (s : Execution.Step)
    (st : Execution.Store) (results : list (nat * Execution.StepResult))
    (calls calls' : list Execution.JobStateCall)
    (call : Execution.JobStateCall) (os os' : list Entity) (e : Entity)
    (js0 js : Execution.JobState) :
  Execution.outcome (Execution.executeIntegrationInstance config) = inr res ->
  Execution.execution_order (length (Execution.integrationSteps config)) []
    (imap pair (Execution.integrationSteps config))
  = Some (pre ++ (i, s) :: post) ->
  Execution.run_steps (Execution.getStepStartStates config) pre
    (Execution.empty_store, []) = (st, results) ->
  Execution.is_disabled (Execution.getStepStartStates config) s = false ->
  Execution.executionHandler s = calls ++ call :: calls' ->
  Execution.entity_call call = Some (os ++ e :: os') ->
  Execution.run_handler (Execution.id s) calls
    {| Execution.store := st; Execution.encountered := [] |} = (js0, None) ->
  Execution.add_objects (Execution.id s) Execution.Entities os js0
  = (js, None) ->
  (exists o,
     o ∈ Execution.accepted_of Execution.Entities
           (Execution.accepted (Execution.store js))
     /\ _key o = _key e) ->
  let run := Execution.executeIntegrationInstance config in
  Execution.add_object (Execution.id s) Execution.Entities e js
  = inl (Execution.DUPLICATE_KEY (_key e))
  /\ Execution.step_result s (Execution.encountered js) Execution.FAILURE
     ∈ Execution.integrationStepResults res
  /\ (forall c o,
        o ∈ Execution.accepted_of c (Execution.accepted (Execution.store js))
        -> o ∈ Execution.accepted_of c (Execution.accepted st)
           \/ _type o ∈ Execution.encountered js)
  /\ (forall t, t ∈ Execution.step_declaredTypes s ->
                t ∈ Execution.partialDatasets_types res)
  /\ NoDup (_key <$> Execution.accepted_of Execution.Entities
                       (Execution.accepted_objects run))
  /\ Execution.file_objects Execution.Entities (Execution.graph_files run)
     ≡ₚ Execution.accepted_of Execution.Entities
          (Execution.accepted_objects run).
Proof.
  intros Hrun Horder Hpre Hen Hhandler Hcall Hbefore Hos Hdup run.
  pose proof (run_summary _ _ Hrun) as Hsummary.
  set (starts := Execution.getStepStartStates config) in *.
  set (steps := Execution.integrationSteps config) in *.
  (* the store and the results when the step starts *)
  pose proof (run_steps_inv starts pre (Execution.empty_store, [])
                store_inv_empty ltac:(by intros []))
    as [Hinv Hflushed].
  rewrite Hpre in Hinv, Hflushed. cbn [fst] in Hinv, Hflushed.
  destruct (executeStep_duplicate starts (results.*2) st s calls call calls'
              os e os' js0 js Hinv Hen Hhandler Hcall Hbefore Hos Hdup)
    as (Hjs & Hadd & Hresult).
  (* the run *)
  assert (Hfinal :
    run = {| Execution.outcome :=
               inr {| Execution.integrationStepResults :=
                        Execution.in_declaration_order (length steps)
                          (Execution.run_steps starts (pre ++ (i, s) :: post)
                             (Execution.empty_store, [])).2;
                      Execution.partialDatasets_types :=
                        Execution.determinePartialDatasetsFromStepExecutionResults
                          (Execution.in_declaration_order (length steps)
                             (Execution.run_steps starts
                                (pre ++ (i, s) :: post)
                                (Execution.empty_store, [])).2) |};
             Execution.graph_files :=
               Execution.files
                 (Execution.run_steps starts (pre ++ (i, s) :: post)
                    (Execution.empty_store, [])).1;
             Execution.accepted_objects :=
               Execution.accepted
                 (Execution.run_steps starts (pre ++ (i, s) :: post)
                    (Execution.empty_store, [])).1;
             Execution.invoked :=
               (fun s => Execution.id s.2)
               <$> filter (fun s => Execution.is_disabled starts s.2 = false)
                     (pre ++ (i, s) :: post) |}).
  { subst run. unfold Execution.executeIntegrationInstance in *.
    fold starts steps in Hrun |- *.
    destruct (Execution.validateInvocation config); [done|].
    destruct (Execution.start_states_missing starts steps); [|done].
    by rewrite Horder. }
  assert (Hres : Execution.integrationStepResults res
                 = Execution.in_declaration_order (length steps)
                     (Execution.run_steps starts (pre ++ (i, s) :: post)
                        (Execution.empty_store, [])).2).
  { fold run in Hrun. rewrite Hfinal in Hrun. simpl in Hrun.
    by injection Hrun as <-. }
  (* the result of the step is among the results of the run *)
  assert (Hmember :
    Execution.step_result s (Execution.encountered js) Execution.FAILURE
    ∈ Execution.integrationStepResults res).
  { rewrite Hres.
    pose proof (execution_order_perm _ _ _ _ Horder) as Hperm.
    pose proof (imap_pair_indices steps 0) as Hidx. simpl in Hidx.
    assert (Hindices :
      (Execution.run_steps starts (pre ++ (i, s) :: post)
         (Execution.empty_store, [])).2.*1 ≡ₚ seq 0 (length steps)).
    { rewrite run_steps_indices. simpl. rewrite Hperm. by rewrite <- Hidx. }
    apply in_declaration_order_elem with (i := i).
    - rewrite Hindices. apply NoDup_seq.
    - rewrite run_steps_app, Hpre.
      change ((i, s) :: post) with ([(i, s)] ++ post).
      rewrite run_steps_app. apply run_steps_results. simpl.
      apply elem_of_app. right. apply list_elem_of_singleton.
      by rewrite Hresult.
    - assert (Hi : i ∈ seq 0 (length steps)).
      { rewrite <- Hidx, <- Hperm, fmap_app. apply elem_of_app. right.
        simpl. apply elem_of_cons. by left. }
      apply elem_of_seq in Hi. lia. }
  split; [done|]. split; [done|]. split; [|split; [|split]].
  - intros c o Ho. destruct Hjs as (_ & new & Hacc & Henc).
    rewrite Hacc, accepted_of_app in Ho.
    apply elem_of_app in Ho as [Ho|Ho]; [by left|right].
    apply Henc. unfold Execution.accepted_of in Ho.
    apply list_elem_of_fmap in Ho as (x & -> & Hx%list_elem_of_filter).
    exists x. by destruct Hx.
  - intros t Ht. rewrite Hsummary.
    apply elem_of_determinePartialDatasets.
    eexists. split; [exact Hmember|]. right. done.
  - rewrite Hfinal. cbn [Execution.accepted_objects].
    pose proof (run_steps_inv starts (pre ++ (i, s) :: post)
                  (Execution.empty_store, []) store_inv_empty
                  ltac:(by intros [])) as [Hinv' _].
    apply (Hinv' Execution.Entities).
  - rewrite Hfinal. cbn [Execution.accepted_objects Execution.graph_files].
    pose proof (run_steps_inv starts (pre ++ (i, s) :: post)
                  (Execution.empty_store, []) store_inv_empty
                  ltac:(by intros [])) as [Hinv' Hfl'].
    destruct (Hinv' Execution.Entities) as (_ & _ & Hstored).
    unfold Execution.stored in Hstored.
    by rewrite (Hfl' Execution.Entities), app_nil_r in Hstored.
Qed.

Lemma duplicate_key_fails_step_witness :
  Execution.add_object "b" Execution.Entities Execution.duplicate_entity
    {| Execution.store := Execution.after_step_a.1;
       Execution.encountered := [] |}
  = inl (Execution.DUPLICATE_KEY (_key Execution.duplicate_entity))
  /\ Execution.step_result (Execution.test_duplicate_step "b") []
       Execution.FAILURE
     ∈ Execution.integrationStepResults
         Execution.test_duplicate_across_steps_expected.
Proof.
  pose proof (duplicate_key_fails_step
                Execution.test_duplicate_across_steps
                Execution.test_duplicate_across_steps_expected
                [(0, Execution.test_duplicate_step "a")] [] 1
                (Execution.test_duplicate_step "b")
                Execution.after_step_a.1 Execution.after_step_a.2
                [] [] (Execution.addEntity Execution.duplicate_entity)
                [] [] Execution.duplicate_entity
                {| Execution.store := Execution.after_step_a.1;
                   Execution.encountered := [] |}
                {| Execution.store := Execution.after_step_a.1;
                   Execution.encountered := [] |}) as H.
  destruct H as (H1 & H2 & _);
    [vm_compute; reflexivity|vm_compute; reflexivity|vm_compute; reflexivity
    |reflexivity|reflexivity|reflexivity|reflexivity|reflexivity| |].
  - exists Execution.duplicate_entity. split; [|reflexivity].
    vm_compute. apply elem_of_cons. by left.
  - split; [exact H1|exact H2].
Defined.

(** C2, refuted as stated: the step declares the type [declared_entity],
    writes an entity of the type [undeclared_entity] and then an entity
    with the same key. It ends in [FAILURE] with [undeclared_entity] among
    its encountered types, but the partial datasets hold the declared type
    only. *)
Lemma undeclared_type_not_in_partial_datasets :
  Execution.outcome
    (Execution.executeIntegrationInstance Execution.undeclared_then_duplicate)
  = inr Execution.undeclared_then_duplicate_result
  /\ (exists r,
        r ∈ Execution.integrationStepResults
              Execution.undeclared_then_duplicate_result
        /\ Execution.status r = Execution.FAILURE
        /\ "undeclared_entity" ∈ Execution.encounteredTypes r)
  /\ "undeclared_entity"
     ∉ Execution.partialDatasets_types
         Execution.undeclared_then_duplicate_result.
Proof.
  split; [vm_compute; reflexivity|]. split.
  - eexists. split; [apply elem_of_cons; left; reflexivity|].
    split; [reflexivity|]. apply elem_of_cons. by left.
  - simpl. apply not_elem_of_cons. split; [discriminate|apply not_elem_of_nil].
Qed.

(** ** Flushed files *)

(** *** Strings *)

Lemma append_cons c s t : String c s +:+ t = String c (s +:+ t).
Proof. reflexivity. Qed.

Lemma append_nil_l t : "" +:+ t = t.
Proof. reflexivity. Qed.

Lemma append_assoc s t u : (s +:+ t) +:+ u = s +:+ (t +:+ u).
Proof. induction s as [|c s IH]; [done|]. rewrite !append_cons. by f_equal. Qed.

Lemma length_append s t : String.length (s +:+ t) = String.length s + String.length t.
Proof. induction s as [|c s IH]; [done|]. rewrite append_cons. simpl. by f_equal. Qed.

Lemma parse_string_body_char c t fuel :
  parse_string_body (S fuel) (quote_char c +:+ t)
  = match parse_string_body fuel t with
    | Some (body, rest) => Some (String c body, rest)
    | None => None
    end.
Proof.
  destruct c as [[] [] [] [] [] [] [] []]; reflexivity.
Qed.

Lemma length_quote_char c : 1 <= String.length (quote_char c).
Proof. destruct c as [[] [] [] [] [] [] [] []]; simpl; lia. Qed.

Lemma parse_string_body_quote s rest fuel :
  String.length (quote_body s +:+ dquote +:+ rest) <= fuel ->
  parse_string_body fuel (quote_body s +:+ dquote +:+ rest) = Some (s, rest).
Proof.
  revert fuel. induction s as [|c s IH]; intros fuel Hfuel.
  - destruct fuel as [|fuel]; [simpl in Hfuel; lia|]. reflexivity.
  - cbn [quote_body] in *. rewrite append_assoc in *.
    rewrite length_append in Hfuel.
    pose proof (length_quote_char c).
    destruct fuel as [|fuel]; [lia|].
    rewrite parse_string_body_char, IH; [done|lia].
Qed.

(** *** Number literals *)

Lemma pretty_N_char_digit x :
  (x < 10)%N ->
  is_digit (pretty_N_char x) = true
  /\ N.of_nat (nat_of_ascii (pretty_N_char x) - 48) = x.
Proof.
  intros Hx.
  assert (x = 0 \/ x = 1 \/ x = 2 \/ x = 3 \/ x = 4 \/ x = 5 \/ x = 6
          \/ x = 7 \/ x = 8 \/ x = 9)%N as Hcases by lia.
  repeat (destruct Hcases as [->|Hcases]; [by split|]). by subst.
Qed.

Lemma parse_digits_pretty_N_go x s :
  exists k, forall acc,
    parse_digits acc (pretty_N_go x s) = parse_digits (acc * 10 ^ k + x) s.
Proof.
  revert s. induction (N.lt_wf_0 x) as [x _ IH]; intros s.
  destruct (decide (x = 0%N)) as [->|Hx].
  { exists 0%N. intros acc. rewrite pretty_N_go_0. f_equal. lia. }
  rewrite pretty_N_go_step by lia.
  destruct (IH (x `div` 10)%N ltac:(apply N.div_lt; lia)
              (String (pretty_N_char (x `mod` 10)) s)) as [k Hk].
  exists (k + 1)%N. intros acc. rewrite Hk. cbn [parse_digits].
  destruct (pretty_N_char_digit (x `mod` 10)%N ltac:(apply N.mod_lt; lia))
    as [-> ->].
  f_equal. rewrite N.pow_add_r, N.pow_1_r.
  pose proof (N.div_mod x 10 ltac:(lia)). lia.
Qed.

Lemma pretty_N_go_append x s t :
  pretty_N_go x s +:+ t = pretty_N_go x (s +:+ t).
Proof.
  revert s. induction (N.lt_wf_0 x) as [x _ IH]; intros s.
  destruct (decide (x = 0%N)) as [->|Hx]; [by rewrite !pretty_N_go_0|].
  rewrite (pretty_N_go_step x s), (pretty_N_go_step x (s +:+ t)) by lia.
  rewrite IH by (apply N.div_lt; lia). reflexivity.
Qed.

Lemma pretty_N_go_head x s :
  (0 < x)%N ->
  exists c t, pretty_N_go x s = String c t
              /\ is_digit c = true /\ Ascii.eqb c "0" = false.
Proof.
  revert s. induction (N.lt_wf_0 x) as [x _ IH]; intros s Hx.
  rewrite pretty_N_go_step by lia.
  destruct (decide (x `div` 10 = 0)%N) as [Hdiv|Hdiv].
  - rewrite Hdiv, pretty_N_go_0.
    assert (x < 10)%N.
    { pose proof (N.div_mod x 10 ltac:(lia)) as Hdm.
      pose proof (N.mod_lt x 10 ltac:(lia)) as Hlt. rewrite Hdiv in Hdm.
      rewrite N.mul_0_r, N.add_0_l in Hdm. rewrite Hdm. exact Hlt. }
    rewrite N.mod_small by done.
    exists (pretty_N_char x), s. split; [done|].
    assert (x = 1 \/ x = 2 \/ x = 3 \/ x = 4 \/ x = 5 \/ x = 6
            \/ x = 7 \/ x = 8 \/ x = 9)%N as Hcases by lia.
    repeat (destruct Hcases as [->|Hcases]; [by split|]). by subst.
  - apply IH; [apply N.div_lt; lia|by apply N.neq_0_lt_0].
Qed.

Lemma parse_digits_stop acc s :
  no_digit_start s = true -> parse_digits acc s = (acc, s).
Proof.
  destruct s as [|c s]; [done|]. simpl. intros Hc%negb_true_iff.
  by rewrite Hc.
Qed.

Lemma parse_nat_pretty (x : N) rest :
  no_digit_start rest = true ->
  parse_nat (pretty x +:+ rest) = Some (x, rest).
Proof.
  intros Hrest. unfold pretty, pretty_N.
  destruct (decide (x = 0%N)) as [->|Hx].
  - rewrite append_cons, append_nil_l. simpl.
    destruct rest as [|d rest]; [done|]. simpl in Hrest.
    apply negb_true_iff in Hrest. by rewrite Hrest.
  - rewrite pretty_N_go_append, append_nil_l.
    destruct (pretty_N_go_head x rest ltac:(lia)) as (c & t & Heq & Hd & H0).
    destruct (parse_digits_pretty_N_go x rest) as [k Hk].
    unfold parse_nat. rewrite Heq, H0, Hd, <- Heq, Hk.
    rewrite parse_digits_stop by done. by rewrite N.mul_0_l, N.add_0_l.
Qed.

Lemma is_digit_range c :
  is_digit c = true -> 48 <= nat_of_ascii c <= 57.
Proof.
  unfold is_digit. intros [H1 H2]%andb_true_iff.
  apply Nat.leb_le in H1. apply Nat.leb_le in H2. lia.
Qed.

Lemma pretty_N_head (x : N) :
  exists c t, pretty x = String c t /\ is_digit c = true.
Proof.
  unfold pretty, pretty_N. destruct (decide (x = 0%N)) as [->|Hx].
  - by exists "0"%char, "".
  - destruct (pretty_N_go_head x "" ltac:(lia)) as (c & t & Heq & Hd & _).
    by exists c, t.
Qed.

Lemma parse_number_pretty (n : Z) rest :
  no_digit_start rest = true ->
  parse_number (pretty n +:+ rest) = Some (JNum n, rest).
Proof.
  intros Hrest. destruct n as [|p|p].
  - change (pretty 0%Z) with (pretty 0%N).
    destruct (pretty_N_head 0) as (c & t & Heq & Hd).
    unfold parse_number. rewrite Heq, append_cons.
    assert (Ascii.eqb c "-" = false) as ->.
    { apply Ascii.eqb_neq. intros ->. done. }
    rewrite <- append_cons, <- Heq, parse_nat_pretty by done. done.
  - change (pretty (Z.pos p)) with (pretty (N.pos p)).
    destruct (pretty_N_head (N.pos p)) as (c & t & Heq & Hd).
    unfold parse_number. rewrite Heq, append_cons.
    assert (Ascii.eqb c "-" = false) as ->.
    { apply Ascii.eqb_neq. intros ->. done. }
    rewrite <- append_cons, <- Heq, parse_nat_pretty by done. done.
  - change (pretty (Z.neg p)) with ("-" +:+ pretty (N.pos p)).
    rewrite append_assoc, append_cons, append_nil_l.
    unfold parse_number. rewrite Ascii.eqb_refl.
    rewrite parse_nat_pretty by done. done.
Qed.

Lemma pretty_Z_head (n : Z) :
  exists c t, pretty n = String c t
              /\ (c = "-"%char \/ is_digit c = true).
Proof.
  destruct n as [|p|p].
  - exists "0"%char, "". by split; [|right].
  - destruct (pretty_N_head (N.pos p)) as (c & t & Heq & Hd).
    exists c, t. split; [done|by right].
  - exists "-"%char, (pretty (N.pos p)). split; [done|by left].
Qed.

Lemma parse_value_number fuel c t :
  c = "-"%char \/ is_digit c = true ->
  parse_value (S fuel) (String c t) = parse_number (String c t).
Proof.
  intros Hc. cbn [parse_value].
  assert (Hn : nat_of_ascii c = 45 \/ 48 <= nat_of_ascii c <= 57).
  { destruct Hc as [->|Hd]; [by left|right; by apply is_digit_range]. }
  rewrite (proj2 (Nat.eqb_neq (nat_of_ascii c) 110)) by lia.
  rewrite (proj2 (Nat.eqb_neq (nat_of_ascii c) 116)) by lia.
  rewrite (proj2 (Nat.eqb_neq (nat_of_ascii c) 102)) by lia.
  rewrite (proj2 (Nat.eqb_neq (nat_of_ascii c) 34)) by lia.
  rewrite (proj2 (Nat.eqb_neq (nat_of_ascii c) 91)) by lia.
  rewrite (proj2 (Nat.eqb_neq (nat_of_ascii c) 123)) by lia.
  reflexivity.
Qed.


(** *** Values *)

Lemma append_nil_r s : s +:+ "" = s.
Proof. induction s as [|c s IH]; [done|]. rewrite append_cons. by f_equal. Qed.

Lemma join_cons sep x xs :
  join sep (x :: xs)
  = x +:+ match xs with [] => "" | _ :: _ => sep +:+ join sep xs end.
Proof. destruct xs; [by rewrite append_nil_r|done]. Qed.

Lemma get_0_append s t c :
  String.get 0 s = Some c -> String.get 0 (s +:+ t) = Some c.
Proof. by destruct s. Qed.

Lemma stringify_head v :
  exists c, String.get 0 (stringify v) = Some c
            /\ nat_of_ascii c <> 93 /\ nat_of_ascii c <> 125.
Proof.
  destruct v as [|[]|n|s|l o|o]; try (eexists; split; [reflexivity|done]).
  destruct (pretty_Z_head n) as (c & t & Heq & Hc).
  exists c. simpl. rewrite Heq. split; [done|].
  destruct Hc as [->|Hd%is_digit_range]; [done|lia].
Qed.

Lemma length_stringify_pos v : 1 <= String.length (stringify v).
Proof.
  destruct (stringify_head v) as (c & Hc & _).
  destruct (stringify v); [done|simpl; lia].
Qed.

Lemma parse_value_string fuel t :
  parse_value (S fuel) (dquote +:+ t)
  = match parse_string_body (String.length t) t with
    | Some (str, rest) => Some (JStr str, rest)
    | None => None
    end.
Proof. reflexivity. Qed.

Lemma parse_value_array fuel t c :
  String.get 0 t = Some c -> nat_of_ascii c <> 93 ->
  parse_value (S fuel) ("[" +:+ t)
  = match parse_elements fuel t with
    | Some (l, rest) => Some (JArr l [], rest)
    | None => None
    end.
Proof.
  destruct t as [|d t]; [done|]. intros [= ->] Hc.
  rewrite append_cons, append_nil_l. cbn [parse_value].
  change (nat_of_ascii "[" =? 110)%nat with false.
  by rewrite (proj2 (Nat.eqb_neq (nat_of_ascii c) 93)) by done.
Qed.

Lemma parse_value_object fuel t c :
  String.get 0 t = Some c -> nat_of_ascii c <> 125 ->
  parse_value (S fuel) ("{" +:+ t)
  = match parse_members fuel t with
    | Some (o, rest) => Some (JObj o, rest)
    | None => None
    end.
Proof.
  destruct t as [|d t]; [done|]. intros [= ->] Hc.
  rewrite append_cons, append_nil_l. cbn [parse_value].
  change (nat_of_ascii "{" =? 110)%nat with false.
  by rewrite (proj2 (Nat.eqb_neq (nat_of_ascii c) 125)) by done.
Qed.

Lemma parse_elements_step fuel s :
  parse_elements (S fuel) s
  = match parse_value fuel s with
    | Some (v, String c rest) =>
        if Nat.eqb (nat_of_ascii c) 44 then
          match parse_elements fuel rest with
          | Some (l, rest') => Some (v :: l, rest')
          | None => None
          end
        else if Nat.eqb (nat_of_ascii c) 93 then Some ([v], rest)
        else None
    | _ => None
    end.
Proof. reflexivity. Qed.

Lemma parse_members_step fuel k t :
  parse_members (S fuel) (quote k +:+ ":" +:+ t)
  = match parse_value fuel t with
    | Some (v, String c rest) =>
        if Nat.eqb (nat_of_ascii c) 44 then
          match parse_members fuel rest with
          | Some (o, rest') => Some ((k, v) :: o, rest')
          | None => None
          end
        else if Nat.eqb (nat_of_ascii c) 125 then Some ([(k, v)], rest)
        else None
    | _ => None
    end.
Proof.
  unfold quote. rewrite !append_assoc.
  change (dquote +:+ ?x) with (String (ascii_of_nat 34) x).
  cbn [parse_members].
  change (nat_of_ascii (ascii_of_nat 34) =? 34)%nat with true. cbv iota.
  rewrite parse_string_body_quote by done.
  reflexivity.
Qed.

(** The elements of an array and the members of an object are read back,
    given that values are read back with less fuel. *)
Section RoundTrip.

Variable n : nat.
Hypothesis IH : forall m, m < n -> forall v rest,
  plain v = true -> no_digit_start rest = true ->
  String.length (stringify v) <= m ->
  parse_value m (stringify v +:+ rest) = Some (v, rest).

Lemma parse_elements_join l : forall fuel rest,
  l <> [] -> forallb plain l = true -> fuel <= n ->
  String.length (join "," (map stringify l) +:+ "]") <= fuel ->
  parse_elements fuel (join "," (map stringify l) +:+ "]" +:+ rest)
  = Some (l, rest).
Proof.
  induction l as [|v l IHl]; [done|].
  intros fuel rest _ Hplain Hn Hlen.
  cbn [forallb] in Hplain. apply andb_true_iff in Hplain as [Hv Hl].
  pose proof (length_stringify_pos v).
  destruct l as [|w l].
  - change (join "," (map stringify [v])) with (stringify v) in *.
    rewrite length_append in Hlen. cbn [String.length] in Hlen.
    destruct fuel as [|fuel]; [lia|].
    rewrite parse_elements_step, (IH fuel); [done|lia|done|done|lia].
  - change (join "," (map stringify (v :: w :: l)))
      with (stringify v +:+ "," +:+ join "," (map stringify (w :: l))) in *.
    rewrite !append_assoc in *. rewrite length_append in Hlen.
    rewrite append_cons, append_nil_l in *. cbn [String.length] in Hlen.
    destruct fuel as [|fuel]; [lia|].
    rewrite parse_elements_step, (IH fuel); [|lia|done|done|lia].
    change (nat_of_ascii "," =? 44)%nat with true. cbv iota.
    rewrite IHl; [done|done|done|lia|lia].
Qed.

Lemma parse_members_join o : forall fuel rest,
  o <> [] -> forallb (fun kv => plain (snd kv)) o = true -> fuel <= n ->
  String.length (join "," (map member_text o) +:+ "}") <= fuel ->
  parse_members fuel (join "," (map member_text o) +:+ "}" +:+ rest)
  = Some (o, rest).
Proof.
  induction o as [|[k v] o IHo]; [done|].
  intros fuel rest _ Hplain Hn Hlen.
  cbn [forallb snd] in Hplain. apply andb_true_iff in Hplain as [Hv Ho].
  pose proof (length_stringify_pos v).
  destruct o as [|w o].
  - change (join "," (map member_text [(k, v)]))
      with (quote k +:+ ":" +:+ stringify v) in *.
    rewrite !append_assoc in *. rewrite !length_append in Hlen.
    cbn [String.length] in Hlen.
    destruct fuel as [|fuel]; [lia|].
    rewrite parse_members_step, (IH fuel); [done|lia|done|done|lia].
  - change (join "," (map member_text ((k, v) :: w :: o)))
      with ((quote k +:+ ":" +:+ stringify v) +:+ ","
            +:+ join "," (map member_text (w :: o))) in *.
    rewrite !append_assoc in *. rewrite !length_append in Hlen.
    cbn [String.length] in Hlen.
    destruct fuel as [|fuel]; [lia|].
    rewrite parse_members_step, (IH fuel); [|lia|done|done|lia].
    rewrite append_cons, append_nil_l.
    change (nat_of_ascii "," =? 44)%nat with true. cbv iota.
    rewrite IHo; [done|done|done|lia|].
    rewrite length_append. cbn [String.length]. lia.
Qed.
End RoundTrip.

Lemma stringify_object o :
  stringify (JObj o) = "{" +:+ join "," (map member_text o) +:+ "}".
Proof. reflexivity. Qed.

(** The parser reads back what [stringify] writes, whatever follows that
    is not a digit, with fuel for the length of the text. *)
Lemma parse_value_stringify fuel : forall v rest,
  plain v = true -> no_digit_start rest = true ->
  String.length (stringify v) <= fuel ->
  parse_value fuel (stringify v +:+ rest) = Some (v, rest).
Proof.
  induction (lt_wf fuel) as [fuel _ IH]. intros v rest Hplain Hrest Hfuel.
  pose proof (length_stringify_pos v).
  destruct fuel as [|fuel]; [lia|].
  destruct v as [|[]|z|s|l o|o]; try reflexivity.
  - destruct (pretty_Z_head z) as (c & t & Heq & Hc).
    cbn [stringify]. rewrite Heq, append_cons, parse_value_number by done.
    rewrite <- append_cons, <- Heq. by apply parse_number_pretty.
  - cbn [stringify]. unfold quote. rewrite !append_assoc.
    rewrite parse_value_string, parse_string_body_quote by done. done.
  - cbn [plain] in Hplain.
    apply andb_true_iff in Hplain as [Hl ->%bool_decide_eq_true].
    cbn [stringify] in *. rewrite !append_assoc.
    destruct l as [|v l]; [reflexivity|].
    destruct (stringify_head v) as (c & Hc & Hc1 & _).
    rewrite (parse_value_array _ _ c); [| |done].
    + rewrite (parse_elements_join (S fuel)); [done| |done|done|lia|].
      * intros m Hm. apply IH. lia.
      * rewrite append_cons, append_nil_l in Hfuel.
        cbn [String.length] in Hfuel. lia.
    + destruct l; cbn [map join]; rewrite ?append_assoc;
        by apply get_0_append.
  - cbn [plain] in Hplain. rewrite stringify_object in *.
    rewrite !append_assoc.
    destruct o as [|[k v] o]; [reflexivity|].
    rewrite (parse_value_object _ _ (ascii_of_nat 34)); [| |done].
    + rewrite (parse_members_join (S fuel)); [done| |done|done|lia|].
      * intros m Hm. apply IH. lia.
      * rewrite append_cons, append_nil_l in Hfuel.
        cbn [String.length] in Hfuel. lia.
    + by destruct o.
Qed.

(** [JSON.parse(JSON.stringify(v))] is [v] for plain data. *)
Lemma parse_stringify v : plain v = true -> parse (stringify v) = Some v.
Proof.
  intros Hplain. unfold parse.
  rewrite <- (append_nil_r (stringify v)) at 2.
  rewrite parse_value_stringify by (done || lia). done.
Qed.

(** *** What the files hold *)

Section FlushedFiles.

Import Execution.

Variable P : obj -> Prop.






End FlushedFiles.

Section CompressedFiles.

Import Execution.


Lemma plain_flushed_data c objects :
  Forall (fun o => plain (JObj o) = true) objects ->
  plain (flushed_data c objects) = true.
Proof.
  intros Hobjects. unfold flushed_data. cbn [plain forallb snd].
  rewrite andb_true_r, bool_decide_true, andb_true_r by done.
  induction Hobjects as [|o objects Ho _ IH]; [done|].
  rewrite fmap_cons. cbn [forallb]. by rewrite IH, andb_true_r.
Qed.

Variable brotliCompress brotliDecompress : string -> string.
Hypothesis brotli_round_trip :
  forall text, brotliDecompress (brotliCompress text) = text.

(** A file written compressed reads back as the data flushed into it. *)
Lemma read_flushed_file env c objects :
  compression_enabled env = true ->
  Forall (fun o => plain (JObj o) = true) objects ->
  read_graph_file brotliDecompress
    (file_content brotliCompress env (flushed_data c objects))
  = Some (flushed_data c objects).
Proof.
  intros Henabled Hobjects. unfold read_graph_file, file_content.
  rewrite Henabled, brotli_round_trip.
  by apply parse_stringify, plain_flushed_data.
Qed.

(** "compresses files when INTEGRATION_FILE_COMPRESSION_ENABLED is set",
    whatever the coder, as long as the decoder undoes it. *)
Example test_compression_result :
  read_graph_files brotliDecompress
    (storage brotliCompress test_compression_env
       (graph_files (executeIntegrationInstance test_compression)))
  = Some <$> test_compression_expected.
Proof.
  assert (Hfiles : graph_files (executeIntegrationInstance test_compression)
                   = [(GraphFile "my-step" Entities 0,
                       [test_from_entity; test_to_entity]);
                      (GraphFile "my-step" Relationships 1,
                       [test_relationship])])
    by (vm_compute; reflexivity).
  rewrite Hfiles. unfold read_graph_files, storage.
  rewrite !fmap_cons, !fmap_nil. cbn [fst snd path_collection].
  rewrite !read_flushed_file; try done.
  - repeat constructor.
  - repeat constructor.
Qed.

End CompressedFiles.



(** * Further properties *)

(** ** Generated relationship types *)

Section RelationshipTypeProperties.

Import Relationships.

Lemma common_prefix_drop fs ts i :
  i < length ts ->
  common_prefix (drop i fs) (drop i ts)
  = if decide (ts !! i = fs !! i)
    then S (common_prefix (drop (S i) fs) (drop (S i) ts)) else 0.
Proof.
  revert fs ts. induction i as [|i IH]; intros fs ts Hi.
  - destruct ts as [|t ts]; [simpl in Hi; lia|].
    destruct fs as [|f fs]; cbn [drop common_prefix lookup list_lookup].
    + by destruct (decide (Some t = None)).
    + destruct (decide (Some t = Some f)) as [Heq|Heq].
      * injection Heq as ->. by rewrite decide_True.
      * rewrite decide_False; [done|]. by intros ->.
  - destruct ts as [|t ts]; [simpl in Hi; lia|].
    destruct fs as [|f fs]; cbn [drop lookup list_lookup].
    + destruct (decide (ts !! i = None)) as [Hl|Hl]; [|by destruct (drop i ts)].
      apply lookup_ge_None in Hl. simpl in Hi. lia.
    + apply IH. simpl in Hi. lia.
Qed.

(** The loop of [generateRelationshipType] entered at [i]: it passes the
    parts the two types share, but stops at the last part of
    [toValueParts] and passes one part at least when the first parts are
    equal. *)
Lemma skip_common_spec fuel fs ts i :
  i < length ts -> length ts - i <= fuel ->
  skip_common fuel fs ts i
  = i + Nat.min (common_prefix (drop i fs) (drop i ts))
                (Nat.max 1 (length ts - 1 - i)).
Proof.
  revert i. induction fuel as [|fuel IH]; intros i Hi Hfuel; [lia|].
  cbn [skip_common]. rewrite (common_prefix_drop fs ts i Hi).
  destruct (decide (ts !! i = fs !! i)); [|lia].
  destruct (Nat.ltb_spec (S i) (length ts - 1)) as [Hlt|Hge].
  - rewrite IH by lia. lia.
  - lia.
Qed.

Lemma split_nonempty sep s : split sep s <> [].
Proof.
  destruct s as [|c s]; simpl; [done|].
  destruct (Ascii.eqb c sep); [done|]. by destruct (split sep s).
Qed.

(** [s.split(sep).join(sep)] is [s]. *)
Lemma join_split sep s : join (String sep "") (split sep s) = s.
Proof.
  induction s as [|c s IH]; [done|]. simpl.
  destruct (Ascii.eqb_spec c sep) as [->|Hne].
  - pose proof (split_nonempty sep s).
    destruct (split sep s) as [|p ps] eqn:Hs; [done|].
    change (join (String sep "") ("" :: p :: ps))
      with (String sep (join (String sep "") (p :: ps))).
    by rewrite IH.
  - pose proof (split_nonempty sep s).
    destruct (split sep s) as [|p ps] eqn:Hs; [done|].
    destruct ps as [|q ps]; simpl in *; by rewrite <- IH.
Qed.

Lemma common_prefix_app ps xs ys :
  common_prefix (ps ++ xs) (ps ++ ys) = length ps + common_prefix xs ys.
Proof.
  induction ps as [|p ps IH]; [done|]. simpl.
  by rewrite decide_True, IH.
Qed.

Lemma common_prefix_head xs ys :
  head xs <> head ys -> common_prefix xs ys = 0.
Proof.
  destruct xs as [|x xs], ys as [|y ys]; simpl; try done.
  intros Hne. rewrite decide_False; [done|]. by intros ->.
Qed.

Lemma generateRelationshipType_parts _class from to shared fromRest toRest :
  falsy_arg from = false -> falsy_arg to = false ->
  split underscore (type_value from) = shared ++ fromRest ->
  split underscore (type_value to) = shared ++ toRest ->
  toRest <> [] ->
  head fromRest <> head toRest ->
  generateRelationshipType _class from to
  = Return (type_value from +:+ "_" +:+ toLowerCase _class +:+ "_" +:+
            join "_" toRest).
Proof.
  intros Hfrom Hto Hf Ht Hrest Hhead.
  unfold generateRelationshipType. rewrite Hfrom, Hto. cbn [orb].
  rewrite Hf, Ht.
  rewrite skip_common_spec;
    [|rewrite length_app; destruct toRest; [done|simpl; lia]|lia].
  rewrite !drop_0, Nat.sub_0_r, common_prefix_app.
  rewrite (common_prefix_head _ _ Hhead), Nat.add_0_r.
  rewrite length_app.
  assert (Hmin : Nat.min (length shared)
                   (Nat.max 1 (length shared + length toRest - 1))
                 = length shared).
  { destruct toRest; [done|]. simpl. lia. }
  rewrite Hmin. cbn [Nat.add]. by rewrite drop_app_length.
Qed.

(** X1. [generateRelationshipType], given a [from] and a [to] that are not
    the empty string (an object argument carries a string [_type]),
    returns [fromType_class_] followed by the parts of the [to] type from
    the index [i] on, joined by underscores, where [i] is the number of
    leading parts the two types share, but at most the number of parts of
    [to] less one, and at least 1 when the first parts are equal. *)
Theorem generateRelationshipType_common_prefix (_class : string)
    (from to : TypeArg) :
  falsy_arg from = false -> falsy_arg to = false ->
  let fromParts := split underscore (type_value from) in
  let toParts := split underscore (type_value to) in
  let i := Nat.min (common_prefix fromParts toParts)
                   (Nat.max 1 (length toParts - 1)) in
  generateRelationshipType _class from to
  = Return (type_value from +:+ "_" +:+ toLowerCase _class +:+ "_" +:+
            join "_" (drop i toParts)).
Proof.
  intros Hfrom Hto fromParts toParts i.
  unfold generateRelationshipType. rewrite Hfrom, Hto. cbn [orb].
  fold fromParts toParts.
  pose proof (split_nonempty underscore (type_value to)) as Hne.
  fold toParts in Hne.
  rewrite skip_common_spec; [|destruct toParts; [done|simpl; lia]|lia].
  rewrite !drop_0, Nat.sub_0_r. reflexivity.
Qed.

Lemma generateRelationshipType_common_prefix_witness :
  generateRelationshipType "USES" (ByString "aws_ec2_instance")
    (ByString "aws_ec2_instance")
  = Return "aws_ec2_instance_uses_instance".
Proof.
  apply (generateRelationshipType_common_prefix "USES"
           (ByString "aws_ec2_instance") (ByString "aws_ec2_instance"));
    reflexivity.
Defined.

(** X2. When the [from] and the [to] type start with the same parts
    [shared] and go on differently, [to] with one part more at least, the
    generated type is the [from] type, the class in lower case and the
    rest of the [to] type; with no shared part that rest is the whole [to]
    type, so the result is [fromType_class_toType]. *)
Theorem generateRelationshipType_shared_segments (_class : string)
    (from to : TypeArg) (shared fromRest toRest : list string) :
  falsy_arg from = false -> falsy_arg to = false ->
  split underscore (type_value from) = shared ++ fromRest ->
  split underscore (type_value to) = shared ++ toRest ->
  toRest <> [] ->
  head fromRest <> head toRest ->
  generateRelationshipType _class from to
  = Return (type_value from +:+ "_" +:+ toLowerCase _class +:+ "_" +:+
            join "_" toRest)
  /\ (shared = [] -> join "_" toRest = type_value to).
Proof.
  intros Hfrom Hto Hf Ht Hrest Hhead. split.
  - by eapply generateRelationshipType_parts.
  - intros ->. simpl in Ht. rewrite <- Ht. apply join_split.
Qed.

Lemma generateRelationshipType_shared_segments_witness :
  generateRelationshipType "USES" (ByString "aws_instance")
    (ByString "aws_ebs_volume")
  = Return "aws_instance_uses_ebs_volume".
Proof.
  refine (proj1 (generateRelationshipType_shared_segments "USES"
                   (ByString "aws_instance") (ByString "aws_ebs_volume")
                   ["aws"] ["instance"] ["ebs"; "volume"] _ _ _ _ _ _));
    [reflexivity|reflexivity|reflexivity|reflexivity|discriminate
    |discriminate].
Defined.

End RelationshipTypeProperties.

(** ** Generated relationship keys *)

Section RelationshipKeyProperties.

Import Relationships.

(** A text is cut at its first separator in one way only. *)
Lemma append_separator_inj sep s1 s2 r1 r2 :
  occurs sep s1 = false -> occurs sep s2 = false ->
  s1 +:+ String sep r1 = s2 +:+ String sep r2 ->
  s1 = s2 /\ r1 = r2.
Proof.
  revert s2. induction s1 as [|c s1 IH]; intros s2 H1 H2 Heq.
  - destruct s2 as [|d s2]; [by injection Heq as ->|].
    rewrite append_nil_l, append_cons in Heq. injection Heq as <- _.
    simpl in H2. by rewrite Ascii.eqb_refl in H2.
  - destruct s2 as [|d s2].
    + rewrite append_nil_l, append_cons in Heq. injection Heq as -> _.
      simpl in H1. by rewrite Ascii.eqb_refl in H1.
    + rewrite !append_cons in Heq. injection Heq as -> Heq.
      simpl in H1, H2. apply orb_false_iff in H1 as [_ H1].
      apply orb_false_iff in H2 as [_ H2].
      destruct (IH s2 H1 H2 Heq) as [-> ->]. done.
Qed.

Lemma lower_char_not_bar c :
  Ascii.eqb c "|" = false -> Ascii.eqb (lower_char c) "|" = false.
Proof. destruct c as [[] [] [] [] [] [] [] []]; vm_compute; done. Qed.

Lemma occurs_toLowerCase s :
  occurs "|" s = false -> occurs "|" (toLowerCase s) = false.
Proof.
  induction s as [|c s IH]; [done|]. cbn [occurs].
  intros [Hc Hs]%orb_false_iff.
  change (toLowerCase (String c s))
    with (String (lower_char c) (toLowerCase s)).
  cbn [occurs]. by rewrite lower_char_not_bar, IH.
Qed.

(** X3. Generated relationship keys tell relationships apart: when neither
    [from] key nor the classes contain a vertical bar, two calls of
    [generateRelationshipKey] that return the same key were given the same
    [from] key, the same [to] key and classes that agree up to case. *)
Theorem generateRelationshipKey_injective (class1 class2 : string)
    (from1 to1 from2 to2 : TypeArg) (key : string) :
  occurs "|" (key_value from1) = false ->
  occurs "|" (key_value from2) = false ->
  occurs "|" class1 = false ->
  occurs "|" class2 = false ->
  generateRelationshipKey class1 from1 to1 = Return key ->
  generateRelationshipKey class2 from2 to2 = Return key ->
  key_value from1 = key_value from2
  /\ toLowerCase class1 = toLowerCase class2
  /\ key_value to1 = key_value to2.
Proof.
  intros Hf1 Hf2 Hc1 Hc2. unfold generateRelationshipKey.
  destruct (falsy_arg from1 || falsy_arg to1); [done|].
  destruct (falsy_arg from2 || falsy_arg to2); [done|].
  intros [= <-] [= Heq].
  change ("|" +:+ ?x) with (String "|" x) in Heq.
  apply append_separator_inj in Heq as [Hfrom Heq]; [|done..].
  apply append_separator_inj in Heq as [Hclass Hto];
    [|by apply occurs_toLowerCase..].
  done.
Qed.

Lemma generateRelationshipKey_injective_witness :
  key_value (ByString "a") = key_value (ByObject [("_key", JStr "a")])
  /\ toLowerCase "HAS" = toLowerCase "has"
  /\ key_value (ByString "b|c") = key_value (ByString "b|c").
Proof.
  apply (generateRelationshipKey_injective "HAS" "has"
           (ByString "a") (ByString "b|c")
           (ByObject [("_key", JStr "a")]) (ByString "b|c") "a|has|b|c");
    reflexivity.
Defined.

End RelationshipKeyProperties.

(** ** Direct relationships *)

Section DirectRelationshipProperties.

Import Relationships.

(** [{...o, ...extra}]: the properties of [extra] win. *)
Lemma lookup_spread k o extra :
  NoDup extra.*1 ->
  lookup_prop k (spread o extra)
  = match lookup_prop k extra with
    | Some v => Some v
    | None => lookup_prop k o
    end.
Proof.
  unfold spread. revert o.
  induction extra as [|[k' v'] extra IH]; intros o Hnd; [done|].
  apply NoDup_cons in Hnd as [Hk' Hnd]. cbn [fold_left lookup_prop fst snd].
  destruct (String.eqb_spec k k') as [->|Hne].
  - assert (Habsent : lookup_prop k' extra = None).
    { clear -Hk'. induction extra as [|[k0 v0] extra IH]; [done|].
      simpl in *. apply not_elem_of_cons in Hk' as [Hne Hk'].
      destruct (String.eqb_spec k' k0); [done|by apply IH]. }
    fold (spread (set_prop k' v' o) extra).
    rewrite lookup_spread_absent by done. apply lookup_set_prop_eq.
  - rewrite IH by done. destruct (lookup_prop k extra); [done|].
    by apply lookup_set_prop_ne.
Qed.

(** X4. In the relationship [createRelationship] returns, every property
    the additional [properties] define has the value given there,
    [_key], [_type] and [_class] included; every other property has the
    generated value. (The names of [properties] differ, as in any
    object.) *)
Theorem createRelationship_properties_override
    (options : DirectRelationshipLiteralOptions) (r : Relationship)
    (k : string) :
  NoDup (default [] (lit_properties options)).*1 ->
  createRelationship options = Return r ->
  exists type,
    generateRelationshipType (lit_class options)
      (ByString (fromType options)) (ByString (toType options)) = Return type
    /\ lookup_prop k r
       = match lookup_prop k (default [] (lit_properties options)) with
         | Some v => Some v
         | None => lookup_prop k (generated_fields options type)
         end.
Proof.
  intros Hnd. unfold createRelationship.
  destruct (generateRelationshipType _ _ _) as [type|code]; [|done].
  cbn [obind]. intros [= <-]. exists type. split; [done|].
  destruct (lit_properties options) as [p|]; cbn [spread_opt default] in *.
  - by rewrite lookup_spread.
  - done.
Qed.

Lemma createRelationship_properties_override_witness :
  exists type,
    generateRelationshipType "HAS" (ByString "a_user") (ByString "a_group")
    = Return type
    /\ lookup_prop "_key"
         [("_key", JStr "custom"); ("_type", JStr "a_user_has_group");
          ("_class", JStr "HAS"); ("_fromEntityKey", JStr "u");
          ("_toEntityKey", JStr "g"); ("displayName", JStr "HAS");
          ("since", JNum 2020)]
       = match lookup_prop "_key"
                 [("_key", JStr "custom"); ("since", JNum 2020)] with
         | Some v => Some v
         | None =>
             lookup_prop "_key"
               (generated_fields
                  {| lit_class := "HAS"; fromType := "a_user";
                     fromKey := "u"; toType := "a_group"; toKey := "g";
                     lit_properties :=
                       Some [("_key", JStr "custom"); ("since", JNum 2020)] |}
                  type)
         end.
Proof.
  apply (createRelationship_properties_override
           {| lit_class := "HAS"; fromType := "a_user"; fromKey := "u";
              toType := "a_group"; toKey := "g";
              lit_properties :=
                Some [("_key", JStr "custom"); ("since", JNum 2020)] |}
           [("_key", JStr "custom"); ("_type", JStr "a_user_has_group");
            ("_class", JStr "HAS"); ("_fromEntityKey", JStr "u");
            ("_toEntityKey", JStr "g"); ("displayName", JStr "HAS");
            ("since", JNum 2020)]
           "_key").
  - simpl. apply NoDup_cons. split; [|apply NoDup_singleton].
    apply not_elem_of_cons. split; [discriminate|apply not_elem_of_nil].
  - reflexivity.
Defined.

(** X5. [createDirectRelationship] throws [INVALID_RELATIONSHIP_CLASS]
    whenever the class in upper case is not a key of [RelationshipClass],
    whatever the entities; with a valid class it throws
    [GENERATE_RELATIONSHIP_TYPE_MISSING_RELATIONSIHP_FROM_OR_TO] when the
    [_type] of [from] or of [to] is empty, and returns a relationship
    otherwise. *)
Theorem createDirectRelationship_outcome (RelationshipClass : string -> bool)
    (options : DirectRelationshipOptions) :
  let result := createDirectRelationship RelationshipClass options in
  (RelationshipClass (toUpperCase (opt_class options)) = false ->
     result = ThrowIntegrationError "INVALID_RELATIONSHIP_CLASS")
  /\ (RelationshipClass (toUpperCase (opt_class options)) = true ->
      _type (from options) = "" \/ _type (to options) = "" ->
      result = ThrowIntegrationError
                 "GENERATE_RELATIONSHIP_TYPE_MISSING_RELATIONSIHP_FROM_OR_TO")
  /\ (RelationshipClass (toUpperCase (opt_class options)) = true ->
      _type (from options) <> "" -> _type (to options) <> "" ->
      exists r, result = Return r).
Proof.
  intros result. subst result.
  unfold createDirectRelationship, isValidDataModelClass, createRelationship,
    generateRelationshipType. cbn [lit_class fromType toType falsy_arg].
  repeat split.
  - intros ->. done.
  - intros -> [Hf|Ht]; cbn [negb].
    + rewrite Hf. done.
    + rewrite Ht. by rewrite orb_true_r.
  - intros -> Hf Ht. cbn [negb].
    destruct (String.eqb_spec (_type (from options)) ""); [done|].
    destruct (String.eqb_spec (_type (to options)) ""); [done|].
    cbn [orb obind]. by eexists.
Qed.

Lemma toLowerCase_append s t :
  toLowerCase (s +:+ t) = toLowerCase s +:+ toLowerCase t.
Proof.
  induction s as [|c s IH]; [done|].
  change (toLowerCase (String c s +:+ t))
    with (String (lower_char c) (toLowerCase (s +:+ t))).
  by rewrite IH.
Qed.

Lemma lower_upper_char c :
  Nat.ltb (nat_of_ascii c) 128 = true ->
  toLowerCase (upper_char c) = String (lower_char c) "".
Proof.
  destruct c as [[] [] [] [] [] [] [] []]; intros H;
    first [reflexivity | discriminate H].
Qed.

(** On a string of code units below U+0080, lower case is the same before
    and after [toUpperCase]. *)
Lemma toLowerCase_toUpperCase s :
  is_ascii s = true -> toLowerCase (toUpperCase s) = toLowerCase s.
Proof.
  induction s as [|c s IH]; [done|]. cbn [is_ascii].
  intros [Hc Hs]%andb_true_iff.
  change (toUpperCase (String c s)) with (upper_char c +:+ toUpperCase s).
  rewrite toLowerCase_append, (lower_upper_char c Hc), (IH Hs).
  reflexivity.
Qed.

(** X6. For class names of code units below U+0080 (the names of the data
    model are such words), [createDirectRelationship] does not depend on
    the case of the class: two classes that agree in upper case give the
    same outcome for the same entities and properties. *)
Theorem createDirectRelationship_class_case
    (RelationshipClass : string -> bool) (class1 class2 : string)
    (from to : Entity) (properties : option obj) :
  is_ascii class1 = true ->
  is_ascii class2 = true ->
  toUpperCase class1 = toUpperCase class2 ->
  createDirectRelationship RelationshipClass
    {| opt_class := class1; from := from; to := to;
       opt_properties := properties |}
  = createDirectRelationship RelationshipClass
      {| opt_class := class2; from := from; to := to;
         opt_properties := properties |}.
Proof.
  intros Hascii1 Hascii2 Hupper.
  assert (Hlower : toLowerCase class1 = toLowerCase class2).
  { by rewrite <- (toLowerCase_toUpperCase class1), Hupper,
      toLowerCase_toUpperCase. }
  unfold createDirectRelationship, createRelationship,
    generateRelationshipType.
  cbn [opt_class Relationships.from Relationships.to opt_properties lit_class
       fromType toType fromKey toKey lit_properties].
  by rewrite Hupper, Hlower.
Qed.

Lemma createDirectRelationship_class_case_witness :
  createDirectRelationship (fun c => String.eqb c "HAS")
    {| opt_class := "Has"; from := sample_user; to := sample_group;
       opt_properties := None |}
  = createDirectRelationship (fun c => String.eqb c "HAS")
      {| opt_class := "HAS"; from := sample_user; to := sample_group;
         opt_properties := None |}.
Proof.
  apply (createDirectRelationship_class_case (fun c => String.eqb c "HAS")
           "Has" "HAS" sample_user sample_group None);
    reflexivity.
Defined.

End DirectRelationshipProperties.

(** ** Mapped relationships *)

Section MappedRelationshipProperties.

Import Relationships.

Lemma join_colon (f : string -> string) ks :
  ks <> [] ->
  ":" +:+ join ":" (map f ks) = foldr (fun k acc => ":" +:+ f k +:+ acc) "" ks.
Proof.
  induction ks as [|k ks IH]; [done|]. intros _.
  destruct ks as [|k' ks].
  - simpl. by rewrite append_nil_r.
  - transitivity (":" +:+ f k +:+ (":" +:+ join ":" (map f (k' :: ks))));
      [reflexivity|]. by rewrite IH.
Qed.

Lemma foldr_text_app (f : string -> string) xs ys :
  foldr (fun k acc => ":" +:+ f k +:+ acc) "" (xs ++ ys)
  = foldr (fun k acc => ":" +:+ f k +:+ acc) "" xs
    +:+ foldr (fun k acc => ":" +:+ f k +:+ acc) "" ys.
Proof.
  induction xs as [|x xs IH]; [done|]. cbn [app foldr].
  rewrite IH. by rewrite !append_assoc.
Qed.

Lemma targetEntityKey_fold target keys start :
  forallb nonempty_group keys = true ->
  fold_left
    (fun key filterKey =>
       match filterKey with
       | FilterKeys ks => key +:+ ":" +:+ join ":" (map (filter_text target) ks)
       | FilterKey k => key +:+ ":" +:+ filter_text target k
       end) keys start
  = start +:+ foldr (fun k acc => ":" +:+ filter_text target k +:+ acc) ""
                (concat (filter_key_names <$> keys)).
Proof.
  revert start. induction keys as [|k keys IH]; intros start Hne.
  - simpl. by rewrite append_nil_r.
  - cbn [forallb] in Hne. apply andb_true_iff in Hne as [Hk Hne].
    cbn [fold_left fmap list_fmap concat]. rewrite IH by done.
    rewrite foldr_text_app. destruct k as [k|ks]; cbn [filter_key_names].
    + cbn [foldr]. rewrite append_nil_r, !append_assoc. reflexivity.
    + rewrite <- (join_colon (filter_text target) ks)
        by (intros ->; discriminate Hk).
      rewrite !append_assoc. reflexivity.
Qed.

(** X7. The key [targetEntityKey] builds does not depend on how the filter
    keys are grouped: when no group is empty, it is the relationship
    direction followed, for each name the filter keys stand for in order,
    by [:name=value], the value being the property of the target entity
    as a template literal writes it ([undefined] when the target has no
    such property). *)
Theorem targetEntityKey_flat (mapping : RelationshipMapping) :
  forallb nonempty_group (targetFilterKeys mapping) = true ->
  targetEntityKey mapping
  = relationshipDirection mapping +:+
    foldr (fun k acc => ":" +:+ k +:+ "=" +:+
                        template (lookup_prop k (targetEntity mapping)) +:+ acc)
      "" (concat (filter_key_names <$> targetFilterKeys mapping)).
Proof.
  intros Hne. unfold targetEntityKey. rewrite targetEntityKey_fold by done.
  f_equal. induction (concat _) as [|k ks IH]; [done|].
  cbn [foldr]. unfold filter_text at 1. by rewrite IH, !append_assoc.
Qed.

Lemma targetEntityKey_flat_witness :
  targetEntityKey sample_mapping
  = "FORWARD:_type=acme_mailbox:email=u1@acme.test".
Proof.
  rewrite (targetEntityKey_flat sample_mapping); reflexivity.
Defined.

Lemma targetEntityKey_prefix mapping :
  exists suffix,
    targetEntityKey mapping = relationshipDirection mapping +:+ suffix.
Proof.
  unfold targetEntityKey.
  generalize (relationshipDirection mapping) as start.
  induction (targetFilterKeys mapping) as [|k keys IH]; intros start.
  - exists "". by rewrite append_nil_r.
  - cbn [fold_left]. destruct k as [k|ks].
    + destruct (IH (start +:+ ":" +:+ filter_text (targetEntity mapping) k))
        as [suffix ->].
      eexists. by rewrite !append_assoc.
    + destruct (IH (start +:+ ":" +:+
                    join ":" (map (filter_text (targetEntity mapping)) ks)))
        as [suffix ->].
      eexists. by rewrite !append_assoc.
Qed.

Lemma target_key_nonempty mapping :
  relationshipDirection mapping <> "" -> target_key mapping <> "".
Proof.
  intros Hdir. unfold target_key.
  destruct (String.eqb_spec (_key (targetEntity mapping)) ""); [|done].
  destruct (targetEntityKey_prefix mapping) as [suffix ->].
  by destruct (relationshipDirection mapping).
Qed.

Lemma createMappedRelationshipLiteral_to_key options :
  relationshipDirection (_mapping options) <> "" ->
  createMappedRelationshipLiteral options
  <> ThrowIntegrationError "MISSING_RELATIONSHIP_TO_KEY".
Proof.
  intros Hdir%target_key_nonempty. unfold createMappedRelationshipLiteral.
  assert (Hkey : forall code,
    or_else (mlit_key options)
      (key (mlit_properties options) (mlit_class options)
         (sourceEntityKey (_mapping options)) (target_key (_mapping options)))
    = ThrowIntegrationError code ->
    code = "GENERATE_RELATIONSHIP_KEY_MISSING_RELATIONSHIP_FROM_OR_TO").
  { intros code. unfold or_else, key, generateRelationshipKey.
    destruct (String.eqb_spec (target_key (_mapping options)) ""); [done|].
    repeat (case_match; try done); by intros [= <-]. }
  destruct (or_else (mlit_key options) _) as [k|code] eqn:Hk.
  - cbn [obind]. unfold or_else, type, generateRelationshipType.
    repeat (case_match; try done).
  - cbn [obind]. rewrite (Hkey code eq_refl). done.
Qed.

(** X8. [createMappedRelationship] never throws
    [MISSING_RELATIONSHIP_TO_KEY]: the key of the target is its [_key] or,
    failing that, the text [targetEntityKey] builds, which starts with the
    relationship direction and so is not empty. (The direction is a value
    of [RelationshipDirection], none of which is the empty string.) *)
Theorem createMappedRelationship_to_key (RelationshipClass : string -> bool)
    (FORWARD : string) (options : MappedOptions) :
  FORWARD <> "" ->
  (forall o, options = WithMapping o ->
             relationshipDirection (_mapping o) <> "") ->
  createMappedRelationship RelationshipClass FORWARD options
  <> ThrowIntegrationError "MISSING_RELATIONSHIP_TO_KEY".
Proof.
  intros Hforward Hmapping. unfold createMappedRelationship.
  destruct (negb _); [done|]. destruct options as [o|o].
  - apply createMappedRelationshipLiteral_to_key. by apply Hmapping.
  - apply createMappedRelationshipLiteral_to_key. cbn.
    destruct (mopt_relationshipDirection o) as [d|]; [|done].
    by destruct (String.eqb_spec d "").
Qed.

Lemma createMappedRelationship_to_key_witness :
  createMappedRelationship (fun c => String.eqb c "HAS") "FORWARD"
    (WithSourceTarget sample_mapped_options)
  <> ThrowIntegrationError "MISSING_RELATIONSHIP_TO_KEY".
Proof.
  apply (createMappedRelationship_to_key (fun c => String.eqb c "HAS")
           "FORWARD" (WithSourceTarget sample_mapped_options)).
  - discriminate.
  - intros o Ho. discriminate Ho.
Defined.

Lemma key_nonempty properties _class fromKey toKey k :
  key properties _class fromKey toKey = Return k -> k <> "".
Proof.
  unfold key, generateRelationshipKey.
  destruct (String.eqb_spec (property_string "_key" properties) "").
  - cbn [negb]. destruct (String.eqb toKey ""); [done|].
    cbn [falsy_arg key_value].
    destruct (String.eqb_spec fromKey ""); [done|].
    destruct (String.eqb toKey ""); [done|]. cbn [orb].
    intros [= <-]. by destruct fromKey.
  - cbn [negb]. by intros [= <-].
Qed.

Lemma type_nonempty properties _class fromType toType t :
  fromType <> "" ->
  type properties _class fromType toType = Return t -> t <> "".
Proof.
  intros Hfrom. unfold type, generateRelationshipType.
  destruct (String.eqb_spec (property_string "_type" properties) "").
  - cbn [negb]. destruct (String.eqb toType ""); [done|].
    cbn [falsy_arg type_value].
    destruct (String.eqb_spec fromType ""); [done|].
    destruct (String.eqb toType ""); [done|]. cbn [orb].
    intros [= <-]. by destruct fromType.
  - cbn [negb]. by intros [= <-].
Qed.

Lemma or_else_nonempty s f v :
  (forall v', f = Return v' -> v' <> "") ->
  or_else s f = Return v -> v <> "".
Proof.
  intros Hf. unfold or_else. destruct s as [s'|]; [|apply Hf].
  destruct (String.eqb_spec s' ""); [apply Hf|]. by intros [= <-].
Qed.

Lemma or_else_given s f : given s = true -> or_else s f = Return (default "" s).
Proof.
  destruct s as [s'|]; [|done]. simpl.
  by destruct (String.eqb s' "").
Qed.

Lemma or_else_not_given s f : given s = false -> or_else s f = f.
Proof.
  destruct s as [s'|]; [|done]. simpl.
  by destruct (String.eqb s' "").
Qed.

(** The [_key] and the [_type] of the relationship returned are the ones
    computed: the additional properties are spread before them. *)
Lemma createMappedRelationshipLiteral_key_type
    (options : MappedRelationshipLiteralOptions) (r : obj) :
  createMappedRelationshipLiteral options = Return r ->
  or_else (mlit_key options)
    (key (mlit_properties options) (mlit_class options)
       (sourceEntityKey (_mapping options)) (target_key (_mapping options)))
  = Return (_key r)
  /\ or_else (mlit_type options)
       (type (mlit_properties options) (mlit_class options) "mapping_source"
          (_type (targetEntity (_mapping options))))
     = Return (_type r)
  /\ _key r <> "" /\ _type r <> "".
Proof.
  unfold createMappedRelationshipLiteral.
  destruct (or_else (mlit_key options) _) as [k|] eqn:Hk; [|done].
  cbn [obind].
  destruct (or_else (mlit_type options) _) as [t|] eqn:Ht; [|done].
  cbn [obind]. intros [= <-].
  assert (Hkey : forall o, _key (set_prop "_type" (JStr t)
                                   (set_prop "_key" (JStr k) o)) = k).
  { intros o. unfold _key, string_field.
    by rewrite lookup_set_prop_ne, lookup_set_prop_eq. }
  assert (Htype : forall o, _type (set_prop "_type" (JStr t) o) = t).
  { intros o. unfold _type, string_field. by rewrite lookup_set_prop_eq. }
  rewrite Hkey, Htype. repeat split; try done.
  - eapply or_else_nonempty; [|exact Hk]. intros v'. apply key_nonempty.
  - eapply or_else_nonempty; [|exact Ht]. intros v'. by apply type_nonempty.
Qed.

(** X9. The [_key] of a mapped relationship is never empty. It is the
    [_key] of the options when that is given and not empty; else the
    [_key] of the additional properties when that is not empty; else
    [sourceEntityKey|class|targetKey], with the class in lower case and a
    source key that is not empty. The additional properties do not
    override it. *)
Theorem createMappedRelationshipLiteral_key
    (options : MappedRelationshipLiteralOptions) (r : obj) :
  createMappedRelationshipLiteral options = Return r ->
  let mapping := _mapping options in
  let properties := mlit_properties options in
  _key r <> ""
  /\ (given (mlit_key options) = true ->
      _key r = default "" (mlit_key options))
  /\ (given (mlit_key options) = false ->
      property_string "_key" properties <> "" ->
      _key r = property_string "_key" properties)
  /\ (given (mlit_key options) = false ->
      property_string "_key" properties = "" ->
      sourceEntityKey mapping <> ""
      /\ _key r = sourceEntityKey mapping +:+ "|" +:+
                  toLowerCase (mlit_class options) +:+ "|" +:+
                  target_key mapping).
Proof.
  intros Hr mapping properties.
  destruct (createMappedRelationshipLiteral_key_type options r Hr)
    as (Hk & _ & Hne & _).
  fold mapping properties in Hk.
  split; [done|]. split; [|split].
  - intros Hgiven. rewrite or_else_given in Hk by done. by injection Hk.
  - intros Hgiven Hprop. rewrite or_else_not_given in Hk by done.
    unfold key in Hk.
    destruct (String.eqb_spec (property_string "_key" properties) "");
      [done|]. by injection Hk.
  - intros Hgiven Hprop. rewrite or_else_not_given in Hk by done.
    unfold key in Hk. rewrite Hprop in Hk. cbn [String.eqb negb] in Hk.
    unfold generateRelationshipKey in Hk. cbn [falsy_arg key_value] in Hk.
    destruct (String.eqb (target_key mapping) ""); [done|].
    destruct (String.eqb_spec (sourceEntityKey mapping) ""); [done|].
    cbn [orb] in Hk. split; [done|]. by injection Hk.
Qed.

Lemma createMappedRelationshipLiteral_key_witness :
  _key sample_mapped_literal_result <> ""
  /\ _key sample_mapped_literal_result
     = "u1" +:+ "|" +:+ toLowerCase "HAS" +:+ "|" +:+
       target_key sample_mapping.
Proof.
  destruct (createMappedRelationshipLiteral_key sample_mapped_literal
              sample_mapped_literal_result eq_refl)
    as (Hne & _ & _ & Hgenerated).
  split; [exact Hne|].
  destruct (Hgenerated eq_refl eq_refl) as [_ Hkey]. exact Hkey.
Defined.

(** X10. The [_type] of a mapped relationship is never empty. It is the
    [_type] of the options when that is given and not empty; else the
    [_type] of the additional properties when that is not empty; else it
    is generated from the source type [mapping_source] and the [_type] of
    the target entity, which is then not empty:
    [mapping_source_class_targetType] when the target type does not start
    with the part [mapping]. *)
Theorem createMappedRelationshipLiteral_type
    (options : MappedRelationshipLiteralOptions) (r : obj) :
  createMappedRelationshipLiteral options = Return r ->
  let toType := _type (targetEntity (_mapping options)) in
  let properties := mlit_properties options in
  _type r <> ""
  /\ (given (mlit_type options) = true ->
      _type r = default "" (mlit_type options))
  /\ (given (mlit_type options) = false ->
      property_string "_type" properties <> "" ->
      _type r = property_string "_type" properties)
  /\ (given (mlit_type options) = false ->
      property_string "_type" properties = "" ->
      toType <> ""
      /\ (head (split underscore toType) <> Some "mapping" ->
          _type r = "mapping_source_" +:+ toLowerCase (mlit_class options)
                    +:+ "_" +:+ toType)).
Proof.
  intros Hr toType properties.
  destruct (createMappedRelationshipLiteral_key_type options r Hr)
    as (_ & Ht & _ & Hne).
  fold toType properties in Ht.
  split; [done|]. split; [|split].
  - intros Hgiven. rewrite or_else_given in Ht by done. by injection Ht.
  - intros Hgiven Hprop. rewrite or_else_not_given in Ht by done.
    unfold type in Ht.
    destruct (String.eqb_spec (property_string "_type" properties) "");
      [done|]. by injection Ht.
  - intros Hgiven Hprop. rewrite or_else_not_given in Ht by done.
    unfold type in Ht. rewrite Hprop in Ht. cbn [String.eqb negb] in Ht.
    destruct (String.eqb_spec toType "") as [|HtoType]; [done|].
    split; [done|]. intros Hhead.
    rewrite (generateRelationshipType_parts (mlit_class options)
               (ByString "mapping_source") (ByString toType)
               [] ["mapping"; "source"] (split underscore toType)) in Ht;
      try done.
    + injection Ht as <-.
      assert (Hjoin : join "_" (split underscore toType) = toType)
        by apply join_split.
      rewrite Hjoin. reflexivity.
    + cbn [falsy_arg]. by destruct (String.eqb_spec toType "").
    + apply split_nonempty.
Qed.

Lemma createMappedRelationshipLiteral_type_witness :
  _type sample_mapped_literal_result <> ""
  /\ _type sample_mapped_literal_result = "mapping_source_has_acme_mailbox".
Proof.
  destruct (createMappedRelationshipLiteral_type sample_mapped_literal
              sample_mapped_literal_result eq_refl)
    as (Hne & _ & _ & Hgenerated).
  split; [exact Hne|].
  destruct (Hgenerated eq_refl eq_refl) as [_ Htype].
  apply Htype. vm_compute. discriminate.
Defined.

(** X11. With the defaults of [createMappedRelationship] (the direction
    [FORWARD] and the filter keys [_type] and [_key]) and a target entity
    without [_key], the [_key] generated for the relationship is
    [sourceKey|class|FORWARD:_type=T:_key=undefined], where [T] is the
    [_type] of the target as a template literal writes it. *)
Theorem createMappedRelationship_default_key
    (RelationshipClass : string -> bool) (FORWARD : string)
    (options : MappedRelationshipOptions) (r : obj) :
  given (mopt_key options) = false ->
  property_string "_key" (mopt_properties options) = "" ->
  mopt_relationshipDirection options = None ->
  mopt_targetFilterKeys options = None ->
  lookup_prop "_key" (target options) = None ->
  createMappedRelationship RelationshipClass FORWARD
    (WithSourceTarget options) = Return r ->
  _key r
  = _key (source options) +:+ "|" +:+ toLowerCase (mopt_class options) +:+
    "|" +:+ FORWARD +:+ ":_type=" +:+
    template (lookup_prop "_type" (target options)) +:+ ":_key=undefined".
Proof.
  intros Hkey Hprop Hdir Hfilter Htarget. unfold createMappedRelationship.
  cbn [mapped_class]. destruct (negb _); [done|].
  rewrite Hdir, Hfilter. cbn [default]. intros Hr.
  destruct (createMappedRelationshipLiteral_key_type _ _ Hr) as (Hk & _).
  cbn [mlit_key mlit_properties mlit_class _mapping sourceEntityKey] in Hk.
  rewrite or_else_not_given in Hk by done. unfold key in Hk.
  rewrite Hprop in Hk. cbn [String.eqb negb] in Hk.
  assert (Htk : target_key
                  {| relationshipDirection := FORWARD;
                     sourceEntityKey := _key (source options);
                     targetEntity := target options;
                     targetFilterKeys := [FilterKeys ["_type"; "_key"]];
                     skipTargetCreation := mopt_skipTargetCreation options |}
                = FORWARD +:+ ":_type=" +:+
                  template (lookup_prop "_type" (target options)) +:+
                  ":_key=undefined").
  { unfold target_key. cbn [targetEntity]. unfold _key at 1, string_field.
    rewrite Htarget. cbn [String.eqb].
    unfold targetEntityKey. cbn [targetFilterKeys relationshipDirection
      targetEntity fold_left map join]. unfold filter_text.
    rewrite Htarget. cbn [template]. rewrite !append_assoc. reflexivity. }
  rewrite Htk in Hk. unfold generateRelationshipKey in Hk.
  cbn [falsy_arg key_value] in Hk.
  repeat (case_match; try done). by injection Hk as <-.
Qed.

Lemma createMappedRelationship_default_key_witness :
  _key sample_mapped_options_result
  = "u1|has|FORWARD:_type=acme_mailbox:_key=undefined".
Proof.
  apply (createMappedRelationship_default_key (fun c => String.eqb c "HAS")
           "FORWARD" sample_mapped_options sample_mapped_options_result);
    reflexivity.
Defined.

End MappedRelationshipProperties.

(** ** Batches of any size *)

Section BatchSizeProperties.

Import Upload.

(** X12. [uploadData] with a batch size of 1 or more uploads the
    consecutive slices of that many items: the call number [i] carries
    the items from [i * size] on, [size] of them at most, and the batches
    put one after the other are the array. *)
Theorem uploadData_explicit_batch_size (jobId : string) (type : UploadType)
    (data : list json) (uploadBatchSize : Z) :
  (1 <= uploadBatchSize)%Z ->
  let size := Z.to_nat uploadBatchSize in
  let calls := uploadData jobId type data (Some uploadBatchSize) in
  concat (call_batch <$> calls) = data
  /\ forall i,
       calls !! i
       = if decide (i * size < length data)
         then Some {| call_jobId := jobId; call_type := type;
                      call_batch := take size (drop (i * size) data) |}
         else None.
Proof.
  intros Hsize size calls. subst calls. rewrite uploadData_chunks.
  unfold batch_size, chunk.
  destruct (Z.eqb_spec uploadBatchSize 0) as [|_]; [lia|].
  destruct (Z.ltb_spec uploadBatchSize 1) as [|_]; [lia|].
  fold size. split.
  - rewrite <- list_fmap_compose.
    etrans; [|apply (chunk_slices_concat (length data) size data); lia].
    f_equal. exact (list_fmap_id _).
  - intros i. rewrite list_lookup_fmap, chunk_slices_lookup by lia.
    by case_decide.
Qed.

Lemma uploadData_explicit_batch_size_witness :
  call_batch <$> uploadData "job" entities [JNum 1; JNum 2; JNum 3] (Some 2%Z)
  = [[JNum 1; JNum 2]; [JNum 3]].
Proof.
  destruct (uploadData_explicit_batch_size "job" entities
              [JNum 1; JNum 2; JNum 3] 2 ltac:(lia)) as [_ Hcalls].
  apply list_eq. intros i. rewrite list_lookup_fmap, Hcalls.
  destruct i as [|[|i]]; [reflexivity|reflexivity|].
  rewrite decide_False by (simpl; lia). reflexivity.
Defined.

(** X13. A batch size of 0 stands for the default of 250; with a negative
    batch size [uploadData] uploads nothing, whatever the array holds. *)
Theorem uploadData_degenerate_batch_size (jobId : string) (type : UploadType)
    (data : list json) :
  uploadData jobId type data (Some 0%Z) = uploadData jobId type data None
  /\ forall uploadBatchSize,
       (uploadBatchSize < 0)%Z ->
       uploadData jobId type data (Some uploadBatchSize) = [].
Proof.
  split; [reflexivity|]. intros n Hn. rewrite uploadData_chunks.
  unfold batch_size, chunk.
  destruct (Z.eqb_spec n 0) as [|_]; [lia|].
  by destruct (Z.ltb_spec n 1) as [_|]; [|lia].
Qed.

Lemma uploadData_conservation jobId type data size :
  (1 <= batch_size size)%Z ->
  concat (call_batch <$> uploadData jobId type data size) = data
  /\ Forall (fun c => call_jobId c = jobId /\ call_type c = type
                      /\ call_batch c <> [])
       (uploadData jobId type data size).
Proof.
  intros Hsize. rewrite uploadData_chunks. unfold chunk.
  destruct (Z.ltb_spec (batch_size size) 1) as [|_]; [lia|]. split.
  - rewrite <- list_fmap_compose.
    etrans; [|apply (chunk_slices_concat (length data)
                       (Z.to_nat (batch_size size)) data); lia].
    f_equal. exact (list_fmap_id _).
  - apply Forall_fmap, Forall_forall. intros b Hb. simpl.
    apply chunk_slices_nonempty in Hb; [|lia].
    repeat split. destruct b; [simpl in Hb; lia|done].
Qed.

(** X14. With a batch size that is absent, 0 or positive,
    [uploadGraphObjectData] first uploads the entities and then the
    relationships of the flushed data, each object once and in order, in
    batches that are not empty; an array that is absent or empty gives no
    call. *)
Theorem uploadGraphObjectData_conservation (jobId : string)
    (graphObjectData : FlushedGraphObjectData) (uploadBatchSize : option Z) :
  (1 <= batch_size uploadBatchSize)%Z ->
  exists entityCalls relationshipCalls,
    uploadGraphObjectData jobId graphObjectData uploadBatchSize
    = entityCalls ++ relationshipCalls
    /\ Forall (fun c => call_jobId c = jobId /\ call_type c = entities
                        /\ call_batch c <> []) entityCalls
    /\ Forall (fun c => call_jobId c = jobId /\ call_type c = relationships
                        /\ call_batch c <> []) relationshipCalls
    /\ concat (call_batch <$> entityCalls)
       = default [] (fg_entities graphObjectData)
    /\ concat (call_batch <$> relationshipCalls)
       = default [] (fg_relationships graphObjectData).
Proof.
  intros Hsize. unfold uploadGraphObjectData.
  exists (uploadData jobId entities (default [] (fg_entities graphObjectData))
            uploadBatchSize),
         (uploadData jobId relationships
            (default [] (fg_relationships graphObjectData)) uploadBatchSize).
  destruct (uploadData_conservation jobId entities
              (default [] (fg_entities graphObjectData)) uploadBatchSize Hsize)
    as [He1 He2].
  destruct (uploadData_conservation jobId relationships
              (default [] (fg_relationships graphObjectData))
              uploadBatchSize Hsize) as [Hr1 Hr2].
  split; [|done].
  assert (Hempty : forall t, uploadData jobId t [] uploadBatchSize = []).
  { intros t. rewrite uploadData_chunks. unfold chunk.
    by destruct (Z.ltb _ 1). }
  destruct (fg_entities graphObjectData) as [[|e es]|],
    (fg_relationships graphObjectData) as [[|r rs]|];
    cbn [default]; by rewrite ?Hempty.
Qed.

Lemma uploadGraphObjectData_conservation_witness :
  exists entityCalls relationshipCalls,
    uploadGraphObjectData "job"
      {| fg_entities := Some [JNum 1; JNum 2; JNum 3];
         fg_relationships := None |} (Some 2%Z)
    = entityCalls ++ relationshipCalls
    /\ Forall (fun c => call_jobId c = "job" /\ call_type c = entities
                        /\ call_batch c <> []) entityCalls
    /\ Forall (fun c => call_jobId c = "job" /\ call_type c = relationships
                        /\ call_batch c <> []) relationshipCalls
    /\ concat (call_batch <$> entityCalls) = [JNum 1; JNum 2; JNum 3]
    /\ concat (call_batch <$> relationshipCalls) = [].
Proof.
  apply (uploadGraphObjectData_conservation "job"
           {| fg_entities := Some [JNum 1; JNum 2; JNum 3];
              fg_relationships := None |} (Some 2%Z)).
  simpl. lia.
Defined.

End BatchSizeProperties.

(** ** Attempts *)

Section AttemptProperties.

Import Upload.

Lemma handleUploadDataChunkError_as_is shrinkFuel err context batch :
  retried_as_is batch err ->
  exists log,
    handleUploadDataChunkError shrinkFuel err context batch
    = HandledOk batch log.
Proof.
  unfold handleUploadDataChunkError.
  intros [[Hlarge Hcode]|(Hlarge & l & -> & Hsize)]; rewrite Hlarge.
  - rewrite bool_decide_eq_false_2 by done. by eexists.
  - cbn [batch_elems]. unfold Shrink.shrinkRawData.
    rewrite while_loop_done by done. by eexists.
Qed.

(** After [k] failed attempts that leave the batch as it is, the attempts
    go on as if started there, the request having been posted [k] times
    with the pauses of these attempts in between. *)
Lemma makeAttempt_failures post shrinkFuel jobId type batch k :
  forall remaining num,
  (forall n, num <= n < num + k ->
     exists err, post n (chunk_request jobId type batch) = Some err
                 /\ retried_as_is batch err) ->
  k < remaining ->
  let r := makeAttempt post shrinkFuel jobId type remaining num batch in
  let rest :=
    makeAttempt post shrinkFuel jobId type (remaining - k) (num + k) batch in
  posts r.1 = replicate k (chunk_request jobId type batch) ++ posts rest.1
  /\ sleeps r.1 = (calculateDelay <$> seq (S num) k) ++ sleeps rest.1
  /\ r.2 = rest.2.
Proof.
  induction k as [|k IH]; intros remaining num Hfail Hk r rest.
  { subst r rest. by rewrite Nat.sub_0_r, Nat.add_0_r. }
  destruct remaining as [|remaining]; [lia|].
  destruct (Hfail num ltac:(lia)) as (err & Hpost & Hretried).
  subst r rest. cbn [makeAttempt]. rewrite Hpost.
  destruct (handleUploadDataChunkError_as_is shrinkFuel err
              {| attemptNum := num; attemptsRemaining := remaining |}
              batch Hretried) as [log ->].
  destruct (Nat.eqb_spec remaining 0) as [|_]; [lia|].
  cbn [fst snd].
  rewrite posts_post, sleeps_post, posts_logs, sleeps_logs.
  rewrite posts_sleep, sleeps_sleep.
  destruct (IH remaining (S num)) as (Hp & Hs & Hr).
  { intros n Hn. apply Hfail. lia. }
  { lia. }
  replace (S remaining - S k) with (remaining - k) by lia.
  replace (num + S k) with (S num + k) by lia.
  rewrite Hp, Hs, Hr. done.
Qed.

(** X15. When the first [k] [POST]s of [uploadDataChunk], fewer than 5,
    fail with errors after which the batch is posted again as it is
    (errors that are neither too-large errors nor
    [JOB_NOT_AWAITING_UPLOADS], or too-large errors for a batch within
    [UPLOAD_SIZE_MAX]) and the next one succeeds, the upload resolves
    after [k + 1] [POST]s of the same request, with the first [k] of the
    pauses 200, 210, 221 and 232 ms between them. *)
Theorem uploadDataChunk_succeeds_after_retries
    (post : nat -> Request -> option UploadError) (shrinkFuel : nat)
    (jobId : string) (type : UploadType) (batch : json) (k : nat) :
  k < 5 ->
  (forall n, n < k ->
     exists err, post n (chunk_request jobId type batch) = Some err
                 /\ retried_as_is batch err) ->
  post k (chunk_request jobId type batch) = None ->
  let r := uploadDataChunk post shrinkFuel jobId type batch in
  r.2 = Resolved
  /\ posts r.1 = replicate (S k) (chunk_request jobId type batch)
  /\ sleeps r.1 = take k [200; 210; 221; 232]%Z.
Proof.
  intros Hk Hfail Hok r. subst r. unfold uploadDataChunk, maxAttempts.
  destruct (makeAttempt_failures post shrinkFuel jobId type batch k 5 0)
    as (Hp & Hs & Hr); [intros n Hn; apply Hfail; lia|lia|].
  rewrite Hp, Hs, Hr. cbn [Nat.add].
  destruct (5 - k) as [|remaining] eqn:Hrem; [lia|].
  cbn [makeAttempt]. rewrite Hok. cbn [fst snd posts sleeps omap].
  split; [done|]. split.
  - change (S k) with (1 + k). rewrite Nat.add_comm.
    by rewrite replicate_add.
  - rewrite app_nil_r.
    do 5 (destruct k as [|k]; [reflexivity|]). lia.
Qed.

Lemma uploadDataChunk_succeeds_after_retries_witness :
  (uploadDataChunk fails_twice 0 "job" entities (JArr [] [])).2 = Resolved
  /\ posts (uploadDataChunk fails_twice 0 "job" entities (JArr [] [])).1
     = replicate 3 (chunk_request "job" entities (JArr [] []))
  /\ sleeps (uploadDataChunk fails_twice 0 "job" entities (JArr [] [])).1
     = [200; 210]%Z.
Proof.
  apply (uploadDataChunk_succeeds_after_retries fails_twice 0 "job" entities
           (JArr [] []) 2); [lia| |reflexivity].
  intros n Hn. exists connection_reset. split.
  - destruct n as [|[|n]]; [reflexivity|reflexivity|lia].
  - left. split; [reflexivity|discriminate].
Defined.

(** X16. When all 5 [POST]s of [uploadDataChunk] fail with errors after
    which the batch is posted again as it is, the same request has been
    posted 5 times with pauses of 200, 210, 221 and 232 ms, and the upload
    rejects with the error of the last [POST] itself, not with an
    [IntegrationError]. In particular a too-large answer for a batch
    within [UPLOAD_SIZE_MAX] is answered by the same request again. *)
Theorem uploadDataChunk_gives_up
    (post : nat -> Request -> option UploadError) (shrinkFuel : nat)
    (jobId : string) (type : UploadType) (batch : json)
    (last : UploadError) :
  (forall n, n < 5 ->
     exists err, post n (chunk_request jobId type batch) = Some err
                 /\ retried_as_is batch err) ->
  post 4 (chunk_request jobId type batch) = Some last ->
  let r := uploadDataChunk post shrinkFuel jobId type batch in
  r.2 = Rejected (ThrownUploadError last)
  /\ posts r.1 = replicate 5 (chunk_request jobId type batch)
  /\ sleeps r.1 = [200; 210; 221; 232]%Z.
Proof.
  intros Hfail Hlast r. subst r. unfold uploadDataChunk, maxAttempts.
  destruct (makeAttempt_failures post shrinkFuel jobId type batch 4 5 0)
    as (Hp & Hs & Hr); [intros n Hn; apply Hfail; lia|lia|].
  rewrite Hp, Hs, Hr. cbn [Nat.add Nat.sub makeAttempt]. rewrite Hlast.
  destruct (Hfail 4 ltac:(lia)) as (err & Herr & Hretried).
  rewrite Hlast in Herr. injection Herr as <-.
  destruct (handleUploadDataChunkError_as_is shrinkFuel last
              {| attemptNum := 4; attemptsRemaining := 0 |}
              batch Hretried) as [log ->].
  cbn [Nat.eqb fst snd].
  rewrite posts_post, sleeps_post, posts_logs_nil, sleeps_logs_nil.
  done.
Qed.

Lemma uploadDataChunk_gives_up_witness :
  (uploadDataChunk always_too_large 0 "job" entities (JArr [] [])).2
  = Rejected (ThrownUploadError job_ended_too_large)
  /\ posts (uploadDataChunk always_too_large 0 "job" entities (JArr [] [])).1
     = replicate 5 (chunk_request "job" entities (JArr [] []))
  /\ sleeps (uploadDataChunk always_too_large 0 "job" entities (JArr [] [])).1
     = [200; 210; 221; 232]%Z.
Proof.
  apply (uploadDataChunk_gives_up always_too_large 0 "job" entities
           (JArr [] []) job_ended_too_large); [|reflexivity].
  intros n Hn. exists job_ended_too_large. split; [reflexivity|].
  right. split; [reflexivity|]. exists []. split; [reflexivity|].
  vm_compute. discriminate.
Defined.

(** X17. [handleUploadDataChunkError] logs the warning that the upload
    will be retried exactly when it returns, attempts remain and the code
    of the error is not [CredentialsError]; when it throws, no such
    warning has been logged. *)
Theorem handleUploadDataChunkError_warning (shrinkFuel : nat)
    (err : UploadError) (context : AttemptContext) (batch : json) :
  match handleUploadDataChunkError shrinkFuel err context batch with
  | HandledOk _ log =>
      WarnWillRetry err (attemptNum context) ∈ log
      <-> attemptsRemaining context <> 0
          /\ code err <> Some "CredentialsError"
  | HandledThrow _ log =>
      forall e n, WarnWillRetry e n ∉ log
  | HandledLooping => True
  end.
Proof.
  assert (Hwarn : WarnWillRetry err (attemptNum context)
                    ∈ warn_log err context
                  <-> attemptsRemaining context <> 0
                      /\ code err <> Some "CredentialsError").
  { unfold warn_log.
    destruct (Nat.eqb_spec (attemptsRemaining context) 0) as [Hz|Hz];
      cbn [negb andb].
    - split; [by intros ?%elem_of_nil|]. by intros [? _].
    - destruct (decide (code err = Some "CredentialsError")) as [Hc|Hc].
      + rewrite bool_decide_eq_true_2 by done. cbn [negb].
        split; [by intros ?%elem_of_nil|]. by intros [_ ?].
      + rewrite bool_decide_eq_false_2 by done. cbn [negb].
        split; [done|]. intros _. apply elem_of_cons. by left. }
  unfold handleUploadDataChunkError.
  destruct (isRequestUploadTooLargeError err).
  - destruct (Shrink.shrinkRawData _ _ _) as [[st|]|]; [| |done].
    + rewrite <- Hwarn. rewrite elem_of_app. split; [|by right].
      intros [Hin|Hin]; [|done].
      apply elem_of_cons in Hin as [Hin|Hin]; [done|].
      apply elem_of_cons in Hin as [Hin|Hin]; [done|].
      by apply elem_of_nil in Hin.
    + intros e n Hin. apply elem_of_cons in Hin as [Hin|Hin]; [done|].
      by apply elem_of_nil in Hin.
  - destruct (bool_decide _); [|done].
    intros e n Hin. by apply elem_of_nil in Hin.
Qed.

End AttemptProperties.

(** ** Shrinking what has no raw data *)

Section ShrinkErrorProperties.

Import Shrink.

Lemma pretty_nat_nonempty (i : nat) : pretty i <> "".
Proof.
  pose proof (pretty_N_head (N.of_nat i)) as (c & t & Hc & _).
  unfold pretty, pretty_nat. by rewrite Hc.
Qed.

(** The key [''] is not an index, and the key of an index below the
    length is. *)
Lemma index_of_key_empty len : index_of_key len "" = None.
Proof.
  destruct (index_of_key len "") as [i|] eqn:Hi; [|done].
  apply index_of_key_Some in Hi as [_ Hi].
  by destruct (pretty_nat_nonempty i).
Qed.

Lemma index_of_key_pretty len i :
  i < len -> index_of_key len (pretty i) = Some i.
Proof.
  intros Hi. unfold index_of_key.
  destruct (List.find _ _) as [j|] eqn:Hfind.
  - apply find_some in Hfind as [_ Heq]. apply String.eqb_eq in Heq.
    by apply (inj pretty) in Heq as ->.
  - eapply find_none with (x := i) in Hfind; [|apply in_seq; lia].
    by rewrite String.eqb_refl in Hfind.
Qed.

(** The key a search loop ends with is [''] or one of the keys. *)
Lemma largest_key keys measure k n :
  largest keys measure = Ok (k, n) -> k = "" \/ k ∈ keys.
Proof.
  intros [(-> & _)|(_ & before & after & -> & _)]%largest_spec; [by left|].
  right. apply elem_of_app. right. apply elem_of_cons. by left.
Qed.

Lemma shrinkIteration_no_rawData (batch : list json) :
  Forall (fun e => exists o, e = JObj o /\ lookup_prop "_rawData" o = None)
         batch ->
  shrinkIteration (JArr batch []) = TypeError.
Proof.
  intros Hbatch.
  unfold shrinkIteration, mbind, result_bind, rbind.
  destruct (largest (forin (Some (JArr batch []))) _) as [[kE nE]|] eqn:HE;
    [|done].
  cbn [fst snd].
  assert (Hentity : get (Some (JArr batch [])) kE = Ok None
                    \/ exists o, get (Some (JArr batch [])) kE
                                 = Ok (Some (JObj o))
                                 /\ lookup_prop "_rawData" o = None).
  { apply largest_key in HE as [->|Hin].
    - left. cbn [get]. by rewrite index_of_key_empty.
    - cbn [forin] in Hin. rewrite app_nil_r in Hin.
      apply list_elem_of_fmap in Hin as (i & -> & Hi%elem_of_seq).
      cbn [get]. rewrite index_of_key_pretty by lia.
      destruct (batch !! i) as [e|] eqn:He; [|by left]. right.
      apply list_elem_of_lookup_2 in He.
      apply (proj1 (Forall_forall _ _) Hbatch) in He as (o & -> & Ho).
      by exists o. }
  destruct Hentity as [->|(o & -> & Ho)]; [done|].
  cbn [get]. rewrite Ho. reflexivity.
Qed.

(** X18. On a batch that exceeds the maximum and whose objects have no
    [_rawData] property (relationships, or the empty batch when the
    maximum is below 2), [shrinkRawData] ends in the first round with a
    [TypeError]: nothing is truncated and the loop does not go on. *)
Theorem shrinkRawData_without_rawData (batch : list json) (maxSize : Z)
    (fuel : nat) :
  Forall (fun e => exists o, e = JObj o /\ lookup_prop "_rawData" o = None)
         batch ->
  (maxSize < Z.of_nat (byteLength (stringify (JArr batch []))))%Z ->
  shrinkRawData (S fuel) batch maxSize = Some ThrewTypeError.
Proof.
  intros Hbatch Hsize. unfold shrinkRawData. cbn [while_loop].
  cbn [initial totalSize].
  destruct (Z.ltb_spec maxSize
              (Z.of_nat (byteLength (stringify (JArr batch []))))); [|lia].
  unfold step. cbn [data initial].
  by rewrite shrinkIteration_no_rawData.
Qed.

Lemma shrinkRawData_without_rawData_witness :
  shrinkRawData 1 relationship_batch 30 = Some ThrewTypeError.
Proof.
  apply (shrinkRawData_without_rawData relationship_batch 30 0).
  - repeat constructor; eexists; (split; [reflexivity|reflexivity]).
  - vm_compute. reflexivity.
Defined.

End ShrinkErrorProperties.

(** ** The size of a shrunk batch *)

Section ShrinkSizeProperties.

Import Shrink.

Lemma byteLength_append s t :
  byteLength (s +:+ t) = byteLength s + byteLength t.
Proof.
  induction s as [|c s IH]; [done|]. rewrite append_cons.
  cbn [byteLength]. rewrite IH. lia.
Qed.

Lemma length_le_byteLength s : String.length s <= byteLength s.
Proof.
  induction s as [|c s IH]; [done|]. cbn [String.length byteLength].
  destruct (Nat.ltb _ 128); lia.
Qed.

Lemma joined_bytes_cons sep x xs :
  xs <> [] ->
  joined_bytes sep (x :: xs)
  = byteLength x + byteLength sep + joined_bytes sep xs.
Proof.
  destruct xs as [|y xs]; [done|]. intros _. unfold joined_bytes.
  change (join sep (x :: y :: xs)) with (x +:+ sep +:+ join sep (y :: xs)).
  rewrite !byteLength_append. lia.
Qed.

(** Replacing an element of an array, or the value of a property of an
    object, changes the bytes of the joined texts by the difference of the
    two values. *)
Lemma joined_bytes_insert sep (f : json -> string) l i c c' :
  l !! i = Some c ->
  joined_bytes sep (map f (<[i := c']> l)) + byteLength (f c)
  = joined_bytes sep (map f l) + byteLength (f c').
Proof.
  revert i. induction l as [|x l IH]; intros i Hi; [done|].
  destruct i as [|i].
  - injection Hi as ->. cbn [insert list_insert map].
    destruct l as [|y l].
    + unfold joined_bytes. cbn [join map]. lia.
    + rewrite !joined_bytes_cons by done. lia.
  - cbn [lookup list_lookup] in Hi.
    change (<[S i := c']> (x :: l)) with (x :: <[i := c']> l).
    cbn [map].
    assert (l <> []) by (by destruct l).
    assert (map f l <> []) by (by destruct l).
    assert (map f (<[i := c']> l) <> []) by (by destruct l, i).
    rewrite !joined_bytes_cons by done.
    specialize (IH i Hi). lia.
Qed.

Lemma joined_bytes_set_prop (o : obj) k c c' :
  lookup_prop k o = Some c ->
  joined_bytes "," (map member_text (set_prop k c' o))
    + byteLength (stringify c)
  = joined_bytes "," (map member_text o) + byteLength (stringify c').
Proof.
  induction o as [|[k0 v0] o IH]; [done|]. cbn [lookup_prop set_prop].
  destruct (String.eqb_spec k k0) as [->|Hne].
  - intros [= ->]. cbn [map]. destruct o as [|y o].
    + unfold joined_bytes, member_text. cbn [join map fst snd].
      rewrite !byteLength_append. lia.
    + rewrite !joined_bytes_cons by done. unfold member_text. cbn [fst snd].
      rewrite !byteLength_append. lia.
  - intros Hk. cbn [map].
    assert (map member_text o <> []) by (by destruct o).
    assert (map member_text (set_prop k c' o) <> []).
    { destruct o as [|[k1 v1] o']; [done|]. simpl.
      by destruct (String.eqb k k1). }
    rewrite !joined_bytes_cons by done.
    specialize (IH Hk). lia.
Qed.

Lemma bytes_array l named :
  bytes (JArr l named) = 2 + joined_bytes "," (map stringify l).
Proof.
  unfold bytes, joined_bytes. cbn [stringify].
  rewrite !byteLength_append. simpl. lia.
Qed.

Lemma bytes_object o :
  bytes (JObj o) = 2 + joined_bytes "," (map member_text o).
Proof.
  unfold bytes, joined_bytes. rewrite stringify_object.
  rewrite !byteLength_append. simpl. lia.
Qed.

Lemma forallb_insert {A} (f : A -> bool) l i x :
  forallb f l = true -> f x = true -> forallb f (<[i := x]> l) = true.
Proof.
  revert i. induction l as [|y l IH]; intros i; [done|].
  cbn [forallb]. intros [Hy Hl]%andb_true_iff Hx. destruct i as [|i].
  - cbn. by rewrite Hx.
  - change (<[S i := x]> (y :: l)) with (y :: <[i := x]> l).
    cbn [forallb]. by rewrite Hy, IH.
Qed.

Lemma forallb_lookup {A} (f : A -> bool) l i x :
  forallb f l = true -> l !! i = Some x -> f x = true.
Proof.
  intros Hall Hi. rewrite forallb_forall in Hall.
  apply Hall, list_elem_of_In. by eapply list_elem_of_lookup_2.
Qed.

Lemma plain_lookup_prop k o c :
  forallb (fun kv => plain (snd kv)) o = true ->
  lookup_prop k o = Some c -> plain c = true.
Proof.
  induction o as [|[k0 v0] o IH]; [done|]. cbn [forallb lookup_prop snd].
  intros [Hv Ho]%andb_true_iff. destruct (String.eqb k k0).
  - by intros [= <-].
  - by apply IH.
Qed.

Lemma plain_set_prop k o c :
  forallb (fun kv => plain (snd kv)) o = true -> plain c = true ->
  forallb (fun kv => plain (snd kv)) (set_prop k c o) = true.
Proof.
  intros Ho Hc. induction o as [|[k0 v0] o IH]; cbn [set_prop forallb snd].
  - by rewrite Hc.
  - cbn [forallb snd] in Ho. apply andb_true_iff in Ho as [Hv Ho].
    destruct (String.eqb k k0); cbn [forallb snd].
    + by rewrite Hc, Ho.
    + by rewrite Hv, IH.
Qed.

(** Assigning to a property that holds a value changes the size of plain
    data by the difference of the two values. *)
Lemma put_bytes v k c c' v' :
  plain v = true -> plain c' = true ->
  get (Some v) k = Ok (Some c) -> put (Some v) k c' = Ok v' ->
  bytes v' + bytes c = bytes v + bytes c'
  /\ plain v' = true /\ plain c = true.
Proof.
  intros Hplain Hc'. destruct v as [| | |s|l named|o]; try done.
  - cbn [plain] in Hplain.
    apply andb_true_iff in Hplain as [Hl ->%bool_decide_eq_true].
    cbn [get put]. destruct (index_of_key (length l) k) as [i|]; [|done].
    intros [= Hi] [= <-]. rewrite !bytes_array. split; [|split].
    + pose proof (joined_bytes_insert "," stringify l i c c' Hi).
      unfold bytes. lia.
    + cbn [plain]. rewrite forallb_insert by done. done.
    + by eapply forallb_lookup.
  - cbn [plain] in Hplain. cbn [get put].
    intros [= Hk] [= <-]. rewrite !bytes_object. split; [|split].
    + pose proof (joined_bytes_set_prop o k c c' Hk). unfold bytes. lia.
    + cbn [plain]. by apply plain_set_prop.
    + by eapply plain_lookup_prop.
Qed.

Lemma get_path_undefined path v :
  get_path None path = Ok (Some v) -> False.
Proof. by destruct path. Qed.

Lemma put_path_bytes path : forall v old x v',
  plain v = true -> plain x = true ->
  get_path (Some v) path = Ok (Some old) ->
  put_path (Some v) path x = Ok v' ->
  bytes v' + bytes old = bytes v + bytes x /\ plain v' = true.
Proof.
  induction path as [|k path IH]; intros v old x v' Hv Hx.
  { cbn [get_path put_path]. intros [= <-] [= <-]. split; [lia|done]. }
  cbn [get_path put_path]. unfold mbind, result_bind, rbind.
  destruct (get (Some v) k) as [[c|]|] eqn:Hget; [| |done].
  2:{ by intros ?%get_path_undefined. }
  intros Hold. destruct (put_path (Some c) path x) as [c'|] eqn:Hput; [|done].
  intros Hv'.
  assert (Hc : plain c = true).
  { destruct v as [| | |s|l named|o]; try done.
    - cbn [plain] in Hv.
      apply andb_true_iff in Hv as [Hl ->%bool_decide_eq_true].
      cbn [get] in Hget. destruct (index_of_key _ _) as [i|]; [|done].
      injection Hget as Hi. by eapply forallb_lookup.
    - cbn [get plain] in *. injection Hget as Hk.
      by eapply plain_lookup_prop. }
  destruct (IH c old x c' Hc Hx Hold Hput) as [Hbytes Hc'].
  destruct (put_bytes v k c c' v' Hv Hc' Hget Hv') as (Hb & Hplain & _).
  split; [lia|done].
Qed.

Lemma item_length_positive rawData k size :
  item_length rawData k = Ok size -> 0 < size ->
  exists old, get rawData k = Ok (Some old)
              /\ size = String.length (stringify old).
Proof.
  unfold item_length, mbind, result_bind, rbind.
  destruct (get rawData k) as [[old|]|]; [| |done].
  - destruct (truthy (Some old)); [|intros [= <-]; lia].
    cbn [stringify_length]. intros [= <-] _. by exists old.
  - cbn [truthy]. intros [= <-]. lia.
Qed.

(** A round that selects a field measuring above 0 replaces a value that
    is there: the batch shrinks by the bytes of that value less the 11
    bytes of ["TRUNCATED"]. *)
Lemma shrinkIteration_bytes data data' size :
  plain data = true ->
  shrinkIteration data = Ok (data', size) -> 0 < size ->
  plain data' = true
  /\ exists old,
       size = String.length (stringify old)
       /\ bytes data' + bytes old = bytes data + 11.
Proof.
  intros Hplain Hiter Hsize.
  destruct (shrinkIteration_Ok _ _ _ Hiter) as (kE & kR & kI & Hsel & Hput).
  destruct Hsel as (nE & nR & entity & rawArr & entry & rawData
                    & _ & HgE & HgA & _ & HgR & HgD & Hlargest).
  destruct Hlargest as [(_ & -> & _)|(_ & before & after & _ & Hitem & _)];
    [lia|].
  destruct (item_length_positive _ _ _ Hitem Hsize) as (old & Hold & ->).
  assert (Hpath : get_path (Some data) (selected_path kE kR kI)
                  = Ok (Some old)).
  { unfold selected_path. cbn [get_path]. unfold mbind, result_bind, rbind.
    by rewrite HgE, HgA, HgR, HgD, Hold. }
  destruct (put_path_bytes _ _ _ (JStr "TRUNCATED") _ Hplain eq_refl
              Hpath Hput) as [Hbytes Hplain'].
  split; [done|]. exists old. split; [done|].
  change (bytes (JStr "TRUNCATED")) with 11 in Hbytes. done.
Qed.

Lemma while_loop_bytes fuel maxSize : forall st final,
  plain (data st) = true ->
  (Z.of_nat (bytes (data st)) <= totalSize st)%Z ->
  positive_rounds fuel maxSize st = true ->
  while_loop fuel maxSize st = Some (Returned final) ->
  plain (data final) = true
  /\ (Z.of_nat (bytes (data final)) <= totalSize final <= maxSize)%Z.
Proof.
  induction fuel as [|fuel IH]; intros st final Hplain Hbytes Hpos;
    cbn [while_loop positive_rounds] in *.
  - destruct (Z.ltb_spec maxSize (totalSize st)); [done|].
    intros [= <-]. split; [done|lia].
  - destruct (Z.ltb_spec maxSize (totalSize st)).
    2:{ intros [= <-]. split; [done|lia]. }
    destruct (step st) as [st'|] eqn:Hstep; [|done].
    destruct (step_Ok _ _ Hstep) as (size & Hiter & Htotal & _).
    rewrite Hiter in Hpos. apply andb_true_iff in Hpos as [Hsize Hpos].
    apply Nat.ltb_lt in Hsize.
    destruct (shrinkIteration_bytes _ _ _ Hplain Hiter Hsize)
      as (Hplain' & old & -> & Hb).
    apply IH; [done| |done].
    pose proof (length_le_byteLength (stringify old)). unfold bytes in *. lia.
Qed.

(** X19. The size [shrinkRawData] tracks is an upper bound of the real
    size: for a batch of plain JSON data, when every round of the run
    selects a field that measures above 0 (one that exists, with a truthy
    value) and the call returns, the bytes of the serialized batch
    returned are at most the tracked size, which is at most the
    maximum. *)
Theorem shrinkRawData_fits (fuel : nat) (batch : list json) (maxSize : Z)
    (final : state) :
  forallb plain batch = true ->
  positive_rounds fuel maxSize (initial batch) = true ->
  shrinkRawData fuel batch maxSize = Some (Returned final) ->
  (Z.of_nat (byteLength (stringify (data final))) <= totalSize final
   <= maxSize)%Z.
Proof.
  intros Hplain Hpos Hrun.
  apply (while_loop_bytes fuel maxSize (initial batch) final);
    [|cbn [initial data totalSize]; unfold bytes; lia|done|done].
  cbn [initial data plain]. by rewrite Hplain.
Qed.

Lemma shrinkRawData_fits_witness :
  (Z.of_nat (byteLength (stringify (JArr payload_batch_truncated [])))
   <= 95 <= 95)%Z.
Proof.
  apply (shrinkRawData_fits 1 payload_batch 95
           {| data := JArr payload_batch_truncated [];
              totalSize := 95; itemsRemoved := 1 |});
    vm_compute; reflexivity.
Defined.

End ShrinkSizeProperties.

(** ** The calls of a synchronization *)

Section SyncCallProperties.

Import Sync.

(** X20. [synchronizeCollectedData] resolves exactly when the initiation,
    the upload, the reading of the summary and the finalization succeed.
    The job is aborted once, and only, when the initiation succeeded and
    one of the other three failed; finalization is attempted only after
    the upload and the reading of the summary succeeded; the queue is
    awaited once, as the last thing, whenever the initiation succeeded,
    and not at all otherwise. *)
Theorem synchronizeCollectedData_calls (o : Outcomes) :
  let r := synchronizeCollectedData o in
  let try_ok := upload_ok o && summary_ok o && finalize_ok o in
  (r.2 = ResolvesWithJob <-> initiate_ok o && try_ok = true)
  /\ (r.2 = RejectsWithAbortError
      <-> initiate_ok o && negb try_ok && negb (abort_ok o) = true)
  /\ occurrences Abort r.1 = (if initiate_ok o && negb try_ok then 1 else 0)
  /\ occurrences Finalize r.1
     = (if initiate_ok o && upload_ok o && summary_ok o then 1 else 0)
  /\ occurrences OnIdle r.1 = (if initiate_ok o then 1 else 0)
  /\ (initiate_ok o = true -> last r.1 = Some OnIdle)
  /\ (initiate_ok o = false -> r.1 = [Initiate]).
Proof.
  destruct o as [[] [] [] [] []]; vm_compute; repeat split; done.
Qed.

End SyncCallProperties.

(** ** Rounds that find nothing to truncate *)

Section ShrinkEmptyProperties.

Import Shrink.

(** X21. A round of [shrinkRawData] in which no field of the selected
    [rawData] measures above 0 (there is none, or all are falsy) assigns
    ['TRUNCATED'] to the property named [''] of that [rawData], and the
    loop goes on with the tracked size raised by 11. *)
Theorem shrinkRawData_round_without_field (st : state) (data' : json) :
  shrinkIteration (data st) = Ok (data', 0) ->
  step st = Ok {| data := data';
                  totalSize := totalSize st + 11;
                  itemsRemoved := itemsRemoved st + 1 |}
  /\ exists kE kR,
       get_path (Some data') (selected_path kE kR "")
       = Ok (Some (JStr "TRUNCATED")).
Proof.
  intros Hiter. split.
  - unfold step. rewrite Hiter. cbn. rewrite sizeOfTruncated_eq.
    do 2 f_equal. lia.
  - destruct (shrinkIteration_Ok _ _ _ Hiter)
      as (kE & kR & kI & Hsel & Hput).
    destruct Hsel as (nE & nR & entity & rawArr & entry & rawData
                      & _ & _ & _ & _ & _ & _ & Hlargest).
    destruct Hlargest as [(-> & _)|(Hlt & _)]; [|lia].
    exists kE, kR. by eapply get_path_put_path.
Qed.

Lemma shrinkRawData_round_without_field_witness :
  step (initial null_batch)
  = Ok {| data := JArr null_batch_truncated [];
          totalSize := totalSize (initial null_batch) + 11;
          itemsRemoved := itemsRemoved (initial null_batch) + 1 |}
  /\ exists kE kR,
       get_path (Some (JArr null_batch_truncated [])) (selected_path kE kR "")
       = Ok (Some (JStr "TRUNCATED")).
Proof.
  apply (shrinkRawData_round_without_field (initial null_batch)
           (JArr null_batch_truncated [])).
  vm_compute. reflexivity.
Defined.

End ShrinkEmptyProperties.

(** ** Shrinking a batch above the upload limit *)

Section OversizedBatchProperties.

Import Shrink.

Lemma quote_body_repeat_string n :
  quote_body (repeat_string n "x") = repeat_string n "x".
Proof.
  induction n as [|n IH]; [done|]. cbn [repeat_string quote_body].
  rewrite IH. reflexivity.
Qed.

Lemma length_repeat_string n c : String.length (repeat_string n c) = n.
Proof. induction n as [|n IH]; [done|]. simpl. by rewrite IH. Qed.

Lemma byteLength_repeat_string n : byteLength (repeat_string n "x") = n.
Proof.
  induction n as [|n IH]; [done|]. cbn [repeat_string byteLength].
  rewrite IH. reflexivity.
Qed.

Lemma length_quote_repeat_string n :
  String.length (quote (repeat_string n "x")) = n + 2.
Proof.
  unfold quote. rewrite quote_body_repeat_string, !length_append.
  rewrite length_repeat_string. simpl. lia.
Qed.

Lemma bytes_repeat_string n : bytes (JStr (repeat_string n "x")) = n + 2.
Proof.
  unfold bytes. cbn [stringify]. unfold quote.
  rewrite quote_body_repeat_string, !byteLength_append.
  rewrite byteLength_repeat_string. simpl. lia.
Qed.

(** The serialized batch is 78 bytes longer than its payload. *)
Lemma bytes_sized_batch n : bytes (JArr (sized_batch n) []) = n + 78.
Proof.
  destruct (put_path_bytes ["0"; "_rawData"; "0"; "rawData"; "payload"]
              (JArr oversized_batch_truncated []) (JStr "TRUNCATED")
              (JStr (repeat_string n "x")) (JArr (sized_batch n) []))
    as [Hbytes _]; [reflexivity..|].
  rewrite bytes_repeat_string in Hbytes.
  change (bytes (JStr "TRUNCATED")) with 11 in Hbytes.
  change (bytes (JArr oversized_batch_truncated [])) with 87 in Hbytes.
  lia.
Qed.

(** A round on a batch of this shape truncates the payload, which is the
    largest field. *)
Lemma shrinkIteration_payload s :
  shrinkIteration
    (JArr [sample_entity [("id", JNum 7); ("payload", JStr (String "x" s))]]
          [])
  = Ok (JArr oversized_batch_truncated [],
        String.length (quote (String "x" s))).
Proof. vm_compute. reflexivity. Qed.

Lemma shrinkIteration_sized_batch n :
  shrinkIteration (JArr (sized_batch (S n)) [])
  = Ok (JArr oversized_batch_truncated [], S n + 2).
Proof.
  rewrite <- (length_quote_repeat_string (S n)).
  exact (shrinkIteration_payload (repeat_string n "x")).
Qed.

(** One round brings a batch whose payload makes it too large back to 87
    bytes. *)
Lemma shrinkRawData_sized_batch fuel n maxSize :
  (maxSize < Z.of_nat (S n) + 78)%Z -> (87 <= maxSize)%Z ->
  shrinkRawData (S fuel) (sized_batch (S n)) maxSize
  = Some (Returned oversized_batch_shrunk).
Proof.
  intros Hlarge Hsmall. unfold shrinkRawData.
  assert (Hsize : totalSize (initial (sized_batch (S n)))
                  = (Z.of_nat (S n) + 78)%Z).
  { unfold initial. cbn [totalSize].
    change (byteLength (stringify ?v)) with (bytes v).
    rewrite bytes_sized_batch. lia. }
  assert (Hstep : step (initial (sized_batch (S n)))
                  = Ok oversized_batch_shrunk).
  { unfold step. rewrite Hsize.
    change (data (initial (sized_batch (S n))))
      with (JArr (sized_batch (S n)) []).
    rewrite shrinkIteration_sized_batch.
    cbn [mbind result_bind rbind mret result_ret fst snd].
    unfold oversized_batch_shrunk. do 2 f_equal.
    rewrite sizeOfTruncated_eq. lia. }
  rewrite (while_loop_round fuel maxSize _ _ ltac:(rewrite Hsize; lia) Hstep).
  apply while_loop_done. cbn [oversized_batch_shrunk totalSize]. lia.
Qed.

Lemma shrinkRawData_oversized_batch :
  shrinkRawData 1 (Upload.batch_elems (JArr oversized_batch []))
    UPLOAD_SIZE_MAX
  = Some (Returned oversized_batch_shrunk).
Proof.
  change (Upload.batch_elems (JArr oversized_batch [])) with oversized_batch.
  unfold oversized_batch.
  assert (Hn : Z.to_nat UPLOAD_SIZE_MAX = S (Z.to_nat (UPLOAD_SIZE_MAX - 1))).
  { unfold UPLOAD_SIZE_MAX. lia. }
  rewrite Hn. apply shrinkRawData_sized_batch; unfold UPLOAD_SIZE_MAX; lia.
Qed.

End OversizedBatchProperties.

(** ** Attempts that end the upload or change the batch *)

Section AttemptOutcomeProperties.

Import Upload.

(** X22. When the first [k] [POST]s of [uploadDataChunk], fewer than 5,
    fail with errors after which the batch is posted again as it is, and
    the next one is answered with the application error
    [JOB_NOT_AWAITING_UPLOADS] (the answer not being a too-large error),
    the upload rejects with the fatal [IntegrationError] of code
    [INTEGRATION_UPLOAD_AFTER_JOB_ENDED] after [k + 1] [POST]s: no
    further attempt is made. *)
Theorem uploadDataChunk_stops_when_job_ended
    (post : nat -> Request -> option UploadError) (shrinkFuel : nat)
    (jobId : string) (type : UploadType) (batch : json) (k : nat)
    (err : UploadError) :
  k < 5 ->
  (forall n, n < k ->
     exists e, post n (chunk_request jobId type batch) = Some e
               /\ retried_as_is batch e) ->
  post k (chunk_request jobId type batch) = Some err ->
  isRequestUploadTooLargeError err = false ->
  sys_code <$> getSystemErrorResponseData err
    = Some "JOB_NOT_AWAITING_UPLOADS" ->
  let r := uploadDataChunk post shrinkFuel jobId type batch in
  r.2 = Rejected (upload_after_job_ended err)
  /\ posts r.1 = replicate (S k) (chunk_request jobId type batch)
  /\ sleeps r.1 = take k [200; 210; 221; 232]%Z.
Proof.
  intros Hk Hfail Hpost Hlarge Hcode r. subst r.
  unfold uploadDataChunk, maxAttempts.
  destruct (makeAttempt_failures post shrinkFuel jobId type batch k 5 0)
    as (Hp & Hs & Hr); [intros n Hn; apply Hfail; lia|lia|].
  rewrite Hp, Hs, Hr. cbn [Nat.add].
  destruct (5 - k) as [|remaining] eqn:Hrem; [lia|].
  cbn [makeAttempt]. rewrite Hpost.
  unfold handleUploadDataChunkError. rewrite Hlarge.
  rewrite bool_decide_eq_true_2 by done.
  cbn [fst snd fmap list_fmap posts sleeps omap].
  split; [done|]. split.
  - change (S k) with (1 + k). rewrite Nat.add_comm.
    by rewrite replicate_add.
  - rewrite app_nil_r.
    do 5 (destruct k as [|k]; [reflexivity|]). lia.
Qed.

Lemma uploadDataChunk_stops_when_job_ended_witness :
  (uploadDataChunk job_ends_after_two 0 "job" entities (JArr [] [])).2
  = Rejected (upload_after_job_ended job_ended)
  /\ posts (uploadDataChunk job_ends_after_two 0 "job" entities
              (JArr [] [])).1
     = replicate 3 (chunk_request "job" entities (JArr [] []))
  /\ sleeps (uploadDataChunk job_ends_after_two 0 "job" entities
               (JArr [] [])).1
     = [200; 210]%Z.
Proof.
  apply (uploadDataChunk_stops_when_job_ended job_ends_after_two 0 "job"
           entities (JArr [] []) 2 job_ended);
    [lia| |reflexivity|reflexivity|reflexivity].
  intros n Hn. exists connection_reset. split.
  - destruct n as [|[|n]]; [reflexivity|reflexivity|lia].
  - left. split; [reflexivity|discriminate].
Defined.

(** X23. When the first [POST] of [uploadDataChunk] is answered with a
    too-large error and the shrinking of the batch returns, the second
    [POST] carries the batch as the shrinking left it, after a pause of
    200 ms; when that [POST] succeeds the upload resolves. *)
Theorem uploadDataChunk_posts_shrunk_batch
    (post : nat -> Request -> option UploadError) (shrinkFuel : nat)
    (jobId : string) (type : UploadType) (batch : json)
    (err : UploadError) (shrunk : Shrink.state) :
  post 0 (chunk_request jobId type batch) = Some err ->
  isRequestUploadTooLargeError err = true ->
  Shrink.shrinkRawData shrinkFuel (batch_elems batch) Shrink.UPLOAD_SIZE_MAX
  = Some (Shrink.Returned shrunk) ->
  post 1 (chunk_request jobId type (Shrink.data shrunk)) = None ->
  let r := uploadDataChunk post shrinkFuel jobId type batch in
  r.2 = Resolved
  /\ posts r.1 = [chunk_request jobId type batch;
                  chunk_request jobId type (Shrink.data shrunk)]
  /\ sleeps r.1 = [200%Z].
Proof.
  intros Hpost Hlarge Hshrink Hok r. subst r.
  unfold uploadDataChunk, maxAttempts. cbn [makeAttempt]. rewrite Hpost.
  unfold handleUploadDataChunkError. rewrite Hlarge, Hshrink.
  cbn [Nat.eqb makeAttempt]. rewrite Hok. cbn [fst snd].
  rewrite posts_post, sleeps_post, posts_logs, sleeps_logs.
  done.
Qed.

(** The batch of 6275150 bytes is posted, found too large, shrunk in one
    round to 87 bytes and posted again. *)
Lemma uploadDataChunk_posts_shrunk_batch_witness :
  (uploadDataChunk too_large_once 1 "job" entities
     (JArr Shrink.oversized_batch [])).2 = Resolved
  /\ posts (uploadDataChunk too_large_once 1 "job" entities
              (JArr Shrink.oversized_batch [])).1
     = [chunk_request "job" entities (JArr Shrink.oversized_batch []);
        chunk_request "job" entities
          (Shrink.data Shrink.oversized_batch_shrunk)]
  /\ sleeps (uploadDataChunk too_large_once 1 "job" entities
               (JArr Shrink.oversized_batch [])).1 = [200%Z].
Proof.
  apply (uploadDataChunk_posts_shrunk_batch too_large_once 1 "job" entities
           (JArr Shrink.oversized_batch []) job_ended_too_large
           Shrink.oversized_batch_shrunk);
    [reflexivity|reflexivity|exact shrinkRawData_oversized_batch
    |reflexivity].
Defined.

End AttemptOutcomeProperties.
